(** * signaler: the Markdown translation and summarisation pipeline

    A shallow embedding of [AI_summarize.py]: the token estimator, the
    Markdown segmenter, the front-matter splitter and transformer, tag
    extraction, the document assembler and the top-level loop with its
    [[ds]] marker, followed by the properties of these functions.

    Python values are modelled as follows.
    - [str] is a list of Unicode code points ([list N]); [len], slicing and
      the character classes work on code points as in Python.
    - [int] is [Z]; slices and [range] follow Python's rules for negative
      and out-of-range arguments.
    - An exception is a value of [exn]; code that may raise returns a
      [result].
    - The external collaborators (tokenizer, YAML library, generation
      service, date parsers of the standard library) are parameters. *)

From Stdlib Require Import ZArith NArith List String Ascii Lia Bool DecimalString.
From stdpp Require Import base list gmap.

#[local] Open Scope Z_scope.

(** ** Python strings *)

Abbreviation pystr := (list N).

Definition LF : N := 10%N.
Definition CR : N := 13%N.
Definition HASH : N := 35%N.

Definition len {A} (l : list A) : Z := Z.of_nat (length l).

(** UTF-8 decoding of the bytes of a literal. *)
Fixpoint utf8_decode (bs : list N) : pystr :=
  match bs with
  | [] => []
  | b :: r =>
    if (b <? 128)%N then b :: utf8_decode r
    else if (b <? 224)%N then
      match r with
      | b2 :: r2 => ((b mod 32) * 64 + b2 mod 64)%N :: utf8_decode r2
      | _ => [b]
      end
    else if (b <? 240)%N then
      match r with
      | b2 :: b3 :: r3 =>
          ((b mod 16) * 4096 + (b2 mod 64) * 64 + b3 mod 64)%N :: utf8_decode r3
      | _ => [b]
      end
    else
      match r with
      | b2 :: b3 :: b4 :: r4 =>
          ((b mod 8) * 262144 + (b2 mod 64) * 4096 + (b3 mod 64) * 64 + b4 mod 64)%N
            :: utf8_decode r4
      | _ => [b]
      end
  end.

(** The escapes of a Python literal that the source uses: [\n] and [\\]. *)
Fixpoint unescape (bs : list N) : list N :=
  match bs with
  | [] => []
  | b :: r =>
    if (b =? 92)%N then
      match r with
      | c :: r' =>
          if (c =? 110)%N then LF :: unescape r'
          else if (c =? 92)%N then 92%N :: unescape r'
          else b :: c :: unescape r'
      | [] => [b]
      end
    else b :: unescape r
  end.

(** [py "..."] is the Python string written with the same literal. *)
Definition py (s : string) : pystr :=
  utf8_decode (unescape (map N_of_ascii (list_ascii_of_string s))).

(** [str.isspace] on one character; [\s] of the [re] module is the same set. *)
Definition py_isspace (c : N) : bool :=
  ((9 <=? c) && (c <=? 13) || (28 <=? c) && (c <=? 32)
   || (c =? 133) || (c =? 160) || (c =? 5760)
   || (8192 <=? c) && (c <=? 8202)
   || (c =? 8232) || (c =? 8233) || (c =? 8239) || (c =? 8287) || (c =? 12288))%N.

(** The line boundaries of [str.splitlines]. *)
Definition is_linebreak (c : N) : bool :=
  ((10 <=? c) && (c <=? 13) || (28 <=? c) && (c <=? 30)
   || (c =? 133) || (c =? 8232) || (c =? 8233))%N.

(** [s.splitlines(keepends=True)]; [cur] holds the characters of the line
    being read, most recent first. [\r\n] is one boundary. *)
Fixpoint splitlines_from (cur : pystr) (s : pystr) : list pystr :=
  match s with
  | [] => match cur with [] => [] | _ => [rev cur] end
  | c :: s' =>
    if (c =? CR)%N then
      match s' with
      | c' :: s'' =>
          if (c' =? LF)%N then rev (c' :: c :: cur) :: splitlines_from [] s''
          else rev (c :: cur) :: splitlines_from [] s'
      | [] => [rev (c :: cur)]
      end
    else if is_linebreak c then rev (c :: cur) :: splitlines_from [] s'
    else splitlines_from (c :: cur) s'
  end.

Definition splitlines (s : pystr) : list pystr := splitlines_from [] s.

(** [l[lo:hi]] for any integers [lo], [hi]. *)
Definition clamp_index (n i : Z) : Z :=
  if i <? 0 then Z.max 0 (i + n) else Z.min i n.

Definition py_slice {A} (l : list A) (lo hi : Z) : list A :=
  let n := len l in
  let lo' := clamp_index n lo in
  let hi' := clamp_index n hi in
  take (Z.to_nat (hi' - lo')) (drop (Z.to_nat lo') l).

(** [s.startswith(p)] *)
Fixpoint startswith (p s : pystr) : bool :=
  match p, s with
  | [], _ => true
  | a :: p', b :: s' => (a =? b)%N && startswith p' s'
  | _ :: _, [] => false
  end.

(** ** Exceptions *)

Inductive exn : Set :=
| ValueError | TypeError | AttributeError | YAMLError | APIError
| KeyError | FileNotFoundError | IsADirectoryError | UnicodeDecodeError
| FileExistsError | NotADirectoryError.

Inductive result (A : Type) : Type :=
| Ok (a : A)
| Raise (e : exn).
Arguments Ok {A} a.
Arguments Raise {A} e.

#[global] Instance result_ret : MRet result := fun A a => Ok a.
#[global] Instance result_bind : MBind result := fun A B k r =>
  match r with Ok a => k a | Raise e => Raise e end.

(** [list(range(start, stop, step))] *)
Definition py_range (start stop step : Z) : result (list Z) :=
  if step =? 0 then Raise ValueError
  else if 0 <? step then
    Ok (map (fun k => start + Z.of_nat k * step)
            (seq 0 (Z.to_nat ((stop - start + step - 1) / step))))
  else
    Ok (map (fun k => start + Z.of_nat k * step)
            (seq 0 (Z.to_nat ((start - stop - step - 1) / (- step))))).

(** ** Token estimator (lines 24-32) *)

(** The interface of the tiktoken encoding that the code uses. *)
Record tokenizer : Type := {
  encode : pystr -> list N;
  decode : list N -> pystr
}.

(** [_enc] is [Some] encoding when tiktoken was imported, [None] otherwise;
    [_token_len] is defined accordingly. *)
Definition _token_len (_enc : option tokenizer) (txt : pystr) : Z :=
  match _enc with
  | Some e => len (encode e txt)
  | None => len txt
  end.

(** ** Configuration (lines 41-43) *)

Record config : Set := {
  SUMMARY_CHARS : Z;
  CHUNK_TOKENS : Z;
  CHUNK_OVERLAP : Z
}.

Definition default_config : config :=
  {| SUMMARY_CHARS := 200; CHUNK_TOKENS := 8000; CHUNK_OVERLAP := 200 |}.

(** ** Markdown segmenter (lines 73-99) *)

(** [_HDR_RE.match(ln)]: one to six [#] at the start of [ln], then a
    whitespace character. The greedy [#{1,6}] tries six marks first. *)
Definition hashes_then_space (n : nat) (ln : pystr) : bool :=
  forallb (fun c => (c =? HASH)%N) (take n ln)
  && (length (take n ln) =? n)%nat
  && match drop n ln with c :: _ => py_isspace c | [] => false end.

Definition _HDR_RE_match (ln : pystr) : bool :=
  existsb (fun n => hashes_then_space n ln) [6; 5; 4; 3; 2; 1]%nat.

Definition nonempty {A} (l : list A) : bool :=
  match l with [] => false | _ => true end.

(** The first loop: [sections] and [buf] after reading [lines]. *)
Fixpoint section_loop (lines : list pystr) (sections buf : list pystr)
  : list pystr * list pystr :=
  match lines with
  | [] => (sections, buf)
  | ln :: rest =>
    if _HDR_RE_match ln && nonempty buf
    then section_loop rest (sections ++ [concat buf]) [ln]
    else section_loop rest sections (buf ++ [ln])
  end.

Definition sections_of (md : pystr) : list pystr :=
  let '(sections, buf) := section_loop (splitlines md) [] [] in
  if nonempty buf then sections ++ [concat buf] else sections.

(** The second loop: [out] after slicing [sections]. *)
Fixpoint chunk_loop (_enc : option tokenizer) (cfg : config)
    (sections out : list pystr) : result (list pystr) :=
  match sections with
  | [] => Ok out
  | seg :: rest =>
    if _token_len _enc seg <=? CHUNK_TOKENS cfg
    then chunk_loop _enc cfg rest (out ++ [seg])
    else
      match _enc with
      | Some e =>
          let toks := encode e seg in
          r ← py_range 0 (len toks) (CHUNK_TOKENS cfg - CHUNK_OVERLAP cfg);
          chunk_loop _enc cfg rest
            (out ++ map (fun i => decode e (py_slice toks i (i + CHUNK_TOKENS cfg))) r)
      | None =>
          let step := (CHUNK_TOKENS cfg - CHUNK_OVERLAP cfg) * 4 in
          r ← py_range 0 (len seg) step;
          chunk_loop _enc cfg rest (out ++ map (fun i => py_slice seg i (i + step)) r)
      end
  end.

Definition _split_markdown (_enc : option tokenizer) (cfg : config)
    (md : pystr) : result (list pystr) :=
  chunk_loop _enc cfg (sections_of md) [].


(** Notions used to state the properties of the segmenter. *)

(** The stride of the slicing loop, in tokens. *)
Definition stride (cfg : config) : Z := CHUNK_TOKENS cfg - CHUNK_OVERLAP cfg.

Definition within_budget (_enc : option tokenizer) (cfg : config) (seg : pystr) : bool :=
  _token_len _enc seg <=? CHUNK_TOKENS cfg.

(** The bound that a chunk meets, by mode: with a tokenizer it is a section
    within the budget or decodes a window of at most [CHUNK_TOKENS] tokens;
    without one it has at most [CHUNK_TOKENS] or four times the stride
    characters. *)
Definition chunk_bounded (_enc : option tokenizer) (cfg : config) (c : pystr) : Prop :=
  match _enc with
  | Some e =>
      _token_len _enc c <= CHUNK_TOKENS cfg
      \/ exists w, len w <= CHUNK_TOKENS cfg /\ c = decode e w
  | None => len c <= Z.max (CHUNK_TOKENS cfg) (stride cfg * 4)
  end.

(** A section of [n] letters [a] with no heading and no line end. *)
Definition long_section (n : Z) : pystr := replicate (Z.to_nat n) 97%N.

(** ** More string primitives *)

Fixpoint find_at (sub s : pystr) (i : Z) : Z :=
  if startswith sub s then i
  else match s with
       | [] => -1
       | _ :: s' => find_at sub s' (i + 1)
       end.

(** [s.find(sub, start)] for [0 <= start]. *)
Definition py_find (sub s : pystr) (start : Z) : Z :=
  if len s <? start then -1 else find_at sub (drop (Z.to_nat start) s) start.

(** [s.endswith(p)] *)
Definition endswith (p s : pystr) : bool := startswith (rev p) (rev s).

(** [s.lstrip(chars)], with the characters to strip given as a predicate. *)
Fixpoint lstrip_if (strip : N -> bool) (s : pystr) : pystr :=
  match s with
  | c :: s' => if strip c then lstrip_if strip s' else s
  | [] => []
  end.

(** [s.strip()] *)
Definition py_strip (s : pystr) : pystr :=
  rev (lstrip_if py_isspace (rev (lstrip_if py_isspace s))).

(** [sep.join(l)] *)
Fixpoint py_join (sep : pystr) (l : list pystr) : pystr :=
  match l with
  | [] => []
  | [x] => x
  | x :: rest => x ++ sep ++ py_join sep rest
  end.

(** [s.replace(old, new)] where [old] is a one-character string. *)
Definition replace_char (old : N) (new : pystr) (s : pystr) : pystr :=
  flat_map (fun c => if (c =? old)%N then new else [c]) s.

(** [re.split(r"[...]+", s)] for a character class given as a predicate:
    the pieces between the maximal runs of class characters. [in_run] says
    that the previous character belonged to a run; [cur] is the piece being
    read, most recent character first. *)
Fixpoint re_split_class (cls : N -> bool) (in_run : bool) (cur s : pystr)
  : list pystr :=
  match s with
  | [] => [rev cur]
  | c :: s' =>
    if cls c then
      if in_run then re_split_class cls true [] s'
      else rev cur :: re_split_class cls true [] s'
    else re_split_class cls false (c :: cur) s'
  end.

(** [str(n)] for an [int]. *)
Definition str_of_int (n : Z) : pystr :=
  py (DecimalString.NilZero.string_of_int (Z.to_int n)).

(** ** Front-matter values *)

(** [datetime.datetime]; [tzinfo] is the UTC offset in seconds of an aware
    value and [None] for a naive one. *)
Record datetime : Set := {
  year : Z; month : Z; day : Z;
  hour : Z; minute : Z; second : Z; microsecond : Z;
  tzinfo : option Z
}.

(** The values that [yaml.safe_load] builds, together with the values the
    pipeline stores in the front matter. A [dict] keeps its items in
    insertion order; a float is given by its binary64 bit pattern. *)
#[local] Unset Elimination Schemes.
Inductive yaml : Type :=
| YNull
| YBool (b : bool)
| YInt (z : Z)
| YFloat (bits : N)
| YStr (s : pystr)
| YBytes (b : list N)
| YDate (y m d : Z)
| YDatetime (t : datetime)
| YSeq (l : list yaml)
| YSet (l : list yaml)
| YMap (items : list (yaml * yaml)).
#[local] Set Elimination Schemes.

(** Truth value of a Python object. *)
Definition py_truthy (v : yaml) : bool :=
  match v with
  | YNull => false
  | YBool b => b
  | YInt z => negb (z =? 0)
  | YFloat bits => negb (bits mod 2 ^ 63 =? 0)%N
  | YStr s => nonempty s
  | YBytes b => nonempty b
  | YDate _ _ _ => true
  | YDatetime _ => true
  | YSeq l => nonempty l
  | YSet l => nonempty l
  | YMap items => nonempty items
  end.

(** [v == key] for a [str] [key]. *)
Definition is_str (key : pystr) (v : yaml) : bool :=
  match v with
  | YStr s => bool_decide (s = key)
  | _ => false
  end.
Arguments is_str : simpl never.

(** [key in obj] for a [str] [key]. *)
Definition py_in (key : pystr) (obj : yaml) : result bool :=
  match obj with
  | YMap items => Ok (existsb (fun kv => is_str key kv.1) items)
  | YSeq l | YSet l => Ok (existsb (is_str key) l)
  | YStr s => Ok (negb (py_find key s 0 =? -1))
  | _ => Raise TypeError
  end.

Fixpoint dict_get (key : pystr) (items : list (yaml * yaml)) : option yaml :=
  match items with
  | [] => None
  | (k, v) :: rest => if is_str key k then Some v else dict_get key rest
  end.

(** Assignment keeps the position of an existing key and appends a new one. *)
Fixpoint dict_set (key : pystr) (v : yaml) (items : list (yaml * yaml))
  : list (yaml * yaml) :=
  match items with
  | [] => [(YStr key, v)]
  | (k, v') :: rest =>
    if is_str key k then (k, v) :: rest else (k, v') :: dict_set key v rest
  end.

(** Removal of a key (the keys of a [dict] are pairwise different). *)
Definition dict_del (key : pystr) (items : list (yaml * yaml))
  : list (yaml * yaml) :=
  filter (fun kv => is_str key kv.1 = false) items.

(** [obj[key]] *)
Definition py_getitem (obj : yaml) (key : pystr) : result yaml :=
  match obj with
  | YMap items =>
      match dict_get key items with
      | Some v => Ok v
      | None => Raise KeyError
      end
  | _ => Raise TypeError
  end.

(** [obj[key] = v]; the object after the assignment. *)
Definition py_setitem (obj : yaml) (key : pystr) (v : yaml) : result yaml :=
  match obj with
  | YMap items => Ok (YMap (dict_set key v items))
  | _ => Raise TypeError
  end.

(** [obj.pop(key)]; the value and the object after the call. *)
Definition py_pop (obj : yaml) (key : pystr) : result (yaml * yaml) :=
  match obj with
  | YMap items =>
      match dict_get key items with
      | Some v => Ok (v, YMap (dict_del key items))
      | None => Raise KeyError
      end
  | YSeq _ | YSet _ => Raise TypeError
  | _ => Raise AttributeError
  end.

(** [obj.pop(key, None)] *)
Definition py_pop_default (obj : yaml) (key : pystr) : result (yaml * yaml) :=
  match obj with
  | YMap items =>
      match dict_get key items with
      | Some v => Ok (v, YMap (dict_del key items))
      | None => Ok (YNull, obj)
      end
  | YSeq _ | YSet _ => Raise TypeError
  | _ => Raise AttributeError
  end.

(** ** External collaborators *)

(** What the pipeline uses of its libraries and of the generation service.
    - [create s prompt temp] is one request
      [client.chat.completions.create(...)] in service state [s], with its
      [choices[0].message.content] or the exception raised; [temp] is the
      temperature in tenths.
    - [safe_load], [safe_dump] are PyYAML's ([safe_dump] with
      [allow_unicode=True, sort_keys=False]).
    - [format_other] is [str(v)], as an f-string inserts it, for a [v]
      that is not a [str].
    - [fromisoformat], [strptime] are [datetime]'s; [None] stands for
      [ValueError].
    - [_enc] and [constants] are the module's tokenizer and constants. *)
Record env : Type := {
  llm : Type;
  create : llm -> pystr -> Z -> result pystr * llm;
  safe_load : pystr -> result yaml;
  safe_dump : yaml -> pystr;
  format_other : yaml -> pystr;
  fromisoformat : pystr -> option datetime;
  strptime : pystr -> pystr -> option datetime;
  _enc : option tokenizer;
  constants : config
}.

Definition format_value (E : env) (v : yaml) : pystr :=
  match v with
  | YStr s => s
  | _ => format_other E v
  end.

(** ** Front-matter splitter (lines 61-69) *)

Definition split_front_matter (E : env) (text : pystr) : result (yaml * pystr) :=
  if startswith (py "---\n") text then
    let end_ := py_find (py "\n---") text 4 in
    if negb (end_ =? -1) then
      let fm := py_slice text 4 end_ in
      let body := lstrip_if (fun c => (c =? LF)%N) (py_slice text (end_ + 4) (len text)) in
      v ← safe_load E fm;
      Ok (if py_truthy v then v else YMap [], body)
    else Ok (YMap [], text)
  else Ok (YMap [], text).

(** ** Document assembler (lines 101-105) *)

Definition link_block (E : env) (link : yaml) : pystr :=
  if py_truthy link
  then py "*[源信息](" ++ format_value E link ++ py ")经过deepseek翻译并总结*\n\n"
  else [].

Definition summary_block (summary : pystr) : pystr :=
  py "## 摘要：\n\n" ++ summary ++ py "\n\n---\n\n".

Definition compose_markdown (E : env) (front link : yaml) (summary body : pystr)
  : pystr :=
  let fm_txt := py_strip (safe_dump E front) in
  py "---\n" ++ fm_txt ++ py "\n---\n\n"
    ++ link_block E link ++ summary_block summary ++ body.

(** ** Front-matter transformer: the date (lines 120-134) *)

(** The [for fmt in (...)] loop with its [break]. *)
Fixpoint try_formats (E : env) (raw_date : pystr) (fmts : list pystr)
    (pub_dt : yaml) : yaml :=
  match fmts with
  | [] => pub_dt
  | fmt :: rest =>
    match strptime E raw_date fmt with
    | Some t => YDatetime t
    | None => try_formats E raw_date rest pub_dt
    end
  end.

Definition parse_date (E : env) (raw_date : yaml) : yaml :=
  match raw_date with
  | YStr s =>
    match fromisoformat E (replace_char 90 (py "+00:00") s) with
    | Some t => YDatetime t
    | None => try_formats E s [py "%Y-%m-%d %H:%M:%S"; py "%Y-%m-%d"] raw_date
    end
  | _ => raw_date
  end.

Definition rename_date (E : env) (front : yaml) : result yaml :=
  has_date ← py_in (py "date") front;
  if (has_date : bool) then
    '(raw_date, front) ← py_pop front (py "date");
    py_setitem front (py "pubDatetime") (parse_date E raw_date)
  else Ok front.

(** ** Metadata synthesizer: the tags (line 159) *)

Definition tag_delimiter (c : N) : bool :=
  ((c =? 44) || (c =? 65292) || (c =? 12289) || (c =? LF))%N.

Definition extract_tags (keywords_resp : pystr) : list pystr :=
  map py_strip
    (filter (fun kw => nonempty (py_strip kw) = true)
       (re_split_class tag_delimiter false [] keywords_resp)).

(** ** The file trees *)

(** A path below a root: the directories from the root down, then the
    name. The source tree holds text files (with the text that [read_text]
    returns), files that are not UTF-8, and directories. The destination
    tree holds files, with their text, and directories; a directory is
    named by the list of names from the root down, the root itself by the
    empty list. The roots [SRC_DIR] and [DST_DIR] are different
    directories. What is printed is not part of the world. *)
Definition path : Type := list pystr * pystr.

Inductive node : Type :=
| Text (content : pystr)
| Binary
| Dir.

Record world (E : env) : Type := {
  service : llm E;
  src : gmap path node;
  dst : gmap path pystr;
  dst_dirs : gset (list pystr)
}.
Arguments service {E} w.
Arguments src {E} w.
Arguments dst {E} w.
Arguments dst_dirs {E} w.

(** Computations that read and change the world and may raise. *)
Definition M (E : env) (A : Type) : Type := world E -> result A * world E.

#[global] Instance M_ret {E} : MRet (M E) := fun A a w => (Ok a, w).
#[global] Instance M_bind {E} : MBind (M E) := fun A B k m w =>
  match m w with
  | (Ok a, w') => k a w'
  | (Raise e, w') => (Raise e, w')
  end.

Definition lift {E A} (r : result A) : M E A := fun w => (r, w).

Fixpoint mapM {E A B} (f : A -> M E B) (l : list A) : M E (list B) :=
  match l with
  | [] => mret []
  | x :: rest => y ← f x; ys ← mapM f rest; mret (y :: ys)
  end.

(** [p.read_text(encoding="utf-8")] in the source tree. *)
Definition read_text {E} (p : path) : M E pystr := fun w =>
  match src w !! p with
  | Some (Text s) => (Ok s, w)
  | Some Binary => (Raise UnicodeDecodeError, w)
  | Some Dir => (Raise IsADirectoryError, w)
  | None => (Raise FileNotFoundError, w)
  end.

(** The directory [d] and the directories above it, the root first. *)
Definition ancestors (d : list pystr) : list (list pystr) :=
  map (fun n => take n d) (seq 0 (S (length d))).

(** The exception of [mkdir] when a file stands where the directory
    [above ++ d] or one of the directories between [above] and it has to
    be: [FileExistsError] for a file at the directory's own name,
    [NotADirectoryError] for a file further up. *)
Fixpoint blocked (files : gmap path pystr) (above d : list pystr) : option exn :=
  match d with
  | [] => None
  | n :: rest =>
    match files !! (above, n) with
    | Some _ => Some (match rest with
                      | [] => FileExistsError
                      | _ => NotADirectoryError
                      end)
    | None => blocked files (above ++ [n]) rest
    end
  end.

(** [d.mkdir(parents=True, exist_ok=True)] in the destination tree: the
    directory and the missing directories above it are made, down from
    the root. *)
Definition mkdir_parents {E} (d : list pystr) : M E unit := fun w =>
  match blocked (dst w) [] d with
  | Some e => (Raise e, w)
  | None =>
      (Ok tt, {| service := service w; src := src w; dst := dst w;
                 dst_dirs := dst_dirs w ∪ list_to_set (ancestors d) |})
  end.

(** [p.write_text(s, encoding="utf-8")] in the destination tree: the
    file is made or replaced. A directory at the path, a file where a
    directory of the path has to be, or a missing parent is an error. *)
Definition write_text {E} (p : path) (s : pystr) : M E unit := fun w =>
  if decide (p.1 ++ [p.2] ∈ dst_dirs w) then (Raise IsADirectoryError, w)
  else
    match blocked (dst w) [] p.1 with
    | Some _ => (Raise NotADirectoryError, w)
    | None =>
      if decide (p.1 ∈ dst_dirs w) then
        (Ok tt, {| service := service w; src := src w; dst := <[p := s]> (dst w);
                   dst_dirs := dst_dirs w |})
      else (Raise FileNotFoundError, w)
    end.

(** [p.exists()] in the source tree. *)
Definition path_exists {E} (p : path) : M E bool := fun w =>
  (Ok (match src w !! p with Some _ => true | None => false end), w).

(** [p.unlink()] in the source tree. *)
Definition unlink {E} (p : path) : M E unit := fun w =>
  match src w !! p with
  | Some Dir => (Raise IsADirectoryError, w)
  | Some _ =>
      (Ok tt, {| service := service w; src := delete p (src w); dst := dst w;
                 dst_dirs := dst_dirs w |})
  | None => (Raise FileNotFoundError, w)
  end.

(** [p.rename(q)] in the source tree, for a file [p]. A file replaces a
    file at [q]; a directory at [q] is an error. [main] renames only paths
    that [process_one] has read as text: the case of a directory [p] is
    not reached and is given as an error. *)
Definition rename {E} (p q : path) : M E unit := fun w =>
  match src w !! p with
  | None => (Raise FileNotFoundError, w)
  | Some Dir => (Raise IsADirectoryError, w)
  | Some f =>
    match src w !! q with
    | Some Dir => (Raise IsADirectoryError, w)
    | _ => (Ok tt, {| service := service w;
                      src := <[q := f]> (delete p (src w));
                      dst := dst w; dst_dirs := dst_dirs w |})
    end
  end.

(** ** Generation client (lines 52-59) *)

Definition ask_llm {E} (prompt : pystr) (temp : Z) : M E pystr := fun w =>
  let '(res, s) := create E (service w) prompt temp in
  let w' := {| service := s; src := src w; dst := dst w; dst_dirs := dst_dirs w |} in
  match res with
  | Ok content => (Ok (py_strip content), w')
  | Raise e => (Raise e, w')
  end.

(** ** Front-matter transformer: the title (lines 116-117) *)

Definition translate_title (E : env) (front : yaml) : M E yaml :=
  has_title ← lift (py_in (py "title") front);
  if (has_title : bool) then
    title ← lift (py_getitem front (py "title"));
    cn ← ask_llm (py "请将以下标题翻译为简体中文，请不要添加任何除正文外的其它内容或者是AI翻译作为第三方的注解或评述，只保留翻译后的标题中文：\n" ++ format_value E title) 13;
    lift (py_setitem front (py "title") (YStr cn))
  else mret front.

(** ** One document (lines 107-176) *)

(** The destination path is [dst_root / src_path.relative_to(rel_root)]:
    the same relative path in the destination tree. The line printed at
    the end is not modelled. *)
Definition process_one (E : env) (src_path : path) : M E unit :=
  let dst_path := src_path in
  mkdir_parents dst_path.1;;
  raw ← read_text src_path;
  '(front, body) ← lift (split_front_matter E raw);
  front ← translate_title E front;
  front ← lift (rename_date E front);
  segs ← lift (_split_markdown (_enc E) (constants E) body);
  translated_segs ←
    mapM (fun seg =>
            ask_llm (py "请将以下 Markdown 内容翻译为简体中文，保留原文中所有的有效正文并去除不相干的商业广告部分，保留所有原始超链接位置，保留 Markdown 语法但不添加任何代码块前后缀，不要添加任何额外内容：\n\n" ++ seg ++ py "\n") 13) segs;
  let cn_body := concat translated_segs in
  lvl1 ←
    mapM (fun seg =>
            ask_llm (py "请用不超过 " ++ str_of_int (2 * SUMMARY_CHARS (constants E))
                       ++ py " 字总结以下段落，不要添加任何额外内容：\n\n" ++ seg) 10) translated_segs;
  summary ←
    ask_llm (py "以下是多段摘要，请综合压缩为不超过 " ++ str_of_int (SUMMARY_CHARS (constants E))
               ++ py " 字，不要添加任何额外内容：\n\n" ++ py_join (py "\n") lvl1) 10;
  keywords_resp ←
    ask_llm (py "请从以下摘要中提取 2‑6 个用于检索的相关tags，保证清晰简洁明确。仅返回逗号、顿号或换行分隔的关键词列表，不要添加任何额外内容：\n\n" ++ summary ++ py_join (py "\n") lvl1) 10;
  let tags := extract_tags keywords_resp in
  front ← (if nonempty tags
           then lift (py_setitem front (py "tags") (YSeq (map YStr tags)))
           else mret front);
  description ←
    ask_llm (py "基于以下最终摘要，用一句话（≤50字）写一个简介：\n\n" ++ summary) 10;
  front ← lift (py_setitem front (py "description") (YStr description));
  '(link, front) ← lift (py_pop_default front (py "link"));
  write_text dst_path (compose_markdown E front link summary cn_body).

(** ** Resumability marker and top-level loop (lines 178-202) *)

(** [md.with_name(f"[ds]{md.name}")] *)
Definition ds_path (md : path) : path := (md.1, py "[ds]" ++ md.2).

Definition mark {E} (md : path) : M E unit :=
  stale ← path_exists (ds_path md);
  (if (stale : bool) then unlink (ds_path md) else mret tt);;
  rename md (ds_path md).

(** [SRC_DIR.rglob("*.md")]: the entries of the tree, files and
    directories, whose name ends in [.md]. *)
Definition rglob_md {E} (w : world E) : list path :=
  filter (fun p : path => endswith (py ".md") p.2 = true) (map_to_list (src w)).*1.

Definition md_files {E} (w : world E) : list path :=
  filter (fun p : path => startswith (py "[ds]") p.2 = false) (rglob_md w).

(** One turn of the loop: the [try] block and its handler. *)
Definition main_iter (E : env) (md : path) (st : Z * Z * world E)
  : Z * Z * world E :=
  let '(success, fail, w) := st in
  match process_one E md w with
  | (Ok _, w1) =>
      let success := success + 1 in
      match mark md w1 with
      | (Ok _, w2) => (success, fail, w2)
      | (Raise _, w2) => (success, fail + 1, w2)
      end
  | (Raise _, w1) => (success, fail + 1, w1)
  end.

Definition main_loop (E : env) (files : list path) (st : Z * Z * world E)
  : Z * Z * world E :=
  fold_left (fun st md => main_iter E md st) files st.

(** The numbers of the last line printed ([total], [success], [fail]) and
    the world after the run. [DST_DIR.mkdir(parents=True, exist_ok=True)]
    comes first; the root holds no name at which a file could stand, so in
    the world of the two trees this call always returns. *)
Definition main (E : env) (w : world E) : Z * Z * Z * world E :=
  let w := (mkdir_parents [] w).2 in
  let files := md_files w in
  let total := len files in
  let '(success, fail, w') := main_loop E files (0, 0, w) in
  (total, success, fail, w').

(** ** A model of [datetime.fromisoformat]

    [iso_basic] reads the strings [YYYY-MM-DD], [YYYY-MM-DD*HH:MM:SS] and
    [YYYY-MM-DD*HH:MM:SS+HH:MM] (any separator [*], either sign) of the
    format that the library documents, and checks the ranges of the
    fields. An environment is [iso_conformant] when its [fromisoformat]
    agrees with [iso_basic] on these strings. *)

Definition digit (c : N) : option Z :=
  if ((48 <=? c) && (c <=? 57))%N then Some (Z.of_N c - 48) else None.

Fixpoint digits_from (acc : Z) (l : pystr) : option Z :=
  match l with
  | [] => Some acc
  | c :: r =>
    match digit c with
    | Some d => digits_from (acc * 10 + d) r
    | None => None
    end
  end.

Definition in_range (lo hi : Z) (o : option Z) : option Z :=
  match o with
  | Some v => if (lo <=? v) && (v <=? hi) then Some v else None
  | None => None
  end.

Definition is_leap (y : Z) : bool :=
  (y mod 4 =? 0) && (negb (y mod 100 =? 0) || (y mod 400 =? 0)).

Definition days_in_month (y m : Z) : Z :=
  if m =? 2 then (if is_leap y then 29 else 28)
  else if (m =? 4) || (m =? 6) || (m =? 9) || (m =? 11) then 30
  else 31.

Definition iso_date (s : pystr) : option (Z * Z * Z) :=
  match s with
  | [y1; y2; y3; y4; 45%N; m1; m2; 45%N; d1; d2] =>
    y ← in_range 1 9999 (digits_from 0 [y1; y2; y3; y4]);
    m ← in_range 1 12 (digits_from 0 [m1; m2]);
    d ← in_range 1 (days_in_month y m) (digits_from 0 [d1; d2]);
    Some (y, m, d)
  | _ => None
  end.

Definition iso_time (s : pystr) : option (Z * Z * Z) :=
  match s with
  | [h1; h2; 58%N; m1; m2; 58%N; s1; s2] =>
    h ← in_range 0 23 (digits_from 0 [h1; h2]);
    m ← in_range 0 59 (digits_from 0 [m1; m2]);
    sec ← in_range 0 59 (digits_from 0 [s1; s2]);
    Some (h, m, sec)
  | _ => None
  end.

Definition iso_offset (s : pystr) : option (option Z) :=
  match s with
  | [] => Some None
  | [sign; h1; h2; 58%N; m1; m2] =>
    h ← in_range 0 23 (digits_from 0 [h1; h2]);
    m ← in_range 0 59 (digits_from 0 [m1; m2]);
    if (sign =? 43)%N then Some (Some (h * 3600 + m * 60))
    else if (sign =? 45)%N then Some (Some (- (h * 3600 + m * 60)))
    else None
  | _ => None
  end.

Definition iso_basic (s : pystr) : option datetime :=
  '(y, mo, d) ← iso_date (take 10 s);
  match drop 10 s with
  | [] => Some {| year := y; month := mo; day := d; hour := 0; minute := 0;
                  second := 0; microsecond := 0; tzinfo := None |}
  | _ :: t =>
    '(h, mi, sec) ← iso_time (take 8 t);
    tz ← iso_offset (drop 8 t);
    Some {| year := y; month := mo; day := d; hour := h; minute := mi;
            second := sec; microsecond := 0; tzinfo := tz |}
  end.

Definition iso_conformant (E : env) : Prop :=
  forall s t, iso_basic s = Some t -> fromisoformat E s = Some t.

(** ** Sample collaborators

    Small collaborators on which the pipeline can be run: a service that
    answers a fixed number of requests and then fails, a loader and a
    dumper for block mappings of one-line plain scalars, and a one-token-
    per-character tokenizer. *)

Definition quota_create (reply : pystr) (left : nat) (prompt : pystr) (temp : Z)
  : result pystr * nat :=
  match left with
  | O => (Raise APIError, O)
  | S n => (Ok reply, n)
  end.

Definition load_line (ln : pystr) : result (yaml * yaml) :=
  let i := py_find (py ": ") ln 0 in
  if i =? -1 then Raise YAMLError
  else
    let v := py_slice ln (i + 2) (len ln) in
    if startswith (py "[") v && negb (endswith (py "]") v) then Raise YAMLError
    else Ok (YStr (py_slice ln 0 i), YStr v).

Fixpoint load_lines (lines : list pystr) : result (list (yaml * yaml)) :=
  match lines with
  | [] => Ok []
  | ln :: rest =>
    kv ← load_line ln;
    items ← load_lines rest;
    Ok (kv :: items)
  end.

Definition sample_load (fm : pystr) : result yaml :=
  items ← load_lines (filter (fun ln => nonempty ln = true)
                        (re_split_class (fun c => (c =? LF)%N) false [] fm));
  Ok (YMap items).

Definition dump_scalar (v : yaml) : pystr :=
  match v with
  | YStr s => s
  | YSeq l => py "[" ++ py_join (py ", ") (map (fun x => match x with YStr s => s | _ => py "?" end) l) ++ py "]"
  | _ => py "?"
  end.

Definition sample_dump (v : yaml) : pystr :=
  match v with
  | YMap items =>
      flat_map (fun kv : yaml * yaml => dump_scalar kv.1 ++ py ": " ++ dump_scalar kv.2 ++ py "\n") items
  | _ => dump_scalar v ++ py "\n"
  end.

Definition sample_env (reply : pystr) : env := {|
  llm := nat;
  create := quota_create reply;
  safe_load := sample_load;
  safe_dump := sample_dump;
  format_other := dump_scalar;
  fromisoformat := iso_basic;
  strptime := fun _ _ => None;
  _enc := None;
  constants := default_config
|}.

Definition char_tokenizer : tokenizer := {| encode := fun s => s; decode := fun t => t |}.

(** A tokenizer that merges: two characters make one token (their code
    points packed in one number), a last odd character makes a token of
    its own. *)
Fixpoint pair_encode (s : pystr) : list N :=
  match s with
  | a :: b :: rest => (a * 2097152 + b + 1114112)%N :: pair_encode rest
  | [a] => [a]
  | [] => []
  end.

Definition pair_decode (toks : list N) : pystr :=
  flat_map (fun t => if (t <? 1114112)%N then [t]
                     else [((t - 1114112) / 2097152)%N; ((t - 1114112) mod 2097152)%N])
           toks.

Definition pair_tokenizer : tokenizer :=
  {| encode := pair_encode; decode := pair_decode |}.

Definition small_config (budget overlap : Z) : config :=
  {| SUMMARY_CHARS := 200; CHUNK_TOKENS := budget; CHUNK_OVERLAP := overlap |}.

(** A source document as the feed reader writes it, and small source trees. *)
Definition sample_text : pystr :=
  py "---\ntitle: Hello\nlink: http://example.org/a\n---\n\nintro\n# A\ntext\n".

Definition a_md : path := ([], py "a.md").
Definition b_md : path := ([], py "b.md").

Definition sample_world (quota : nat) (files : gmap path node)
  : world (sample_env (py "AI, 芯片")) :=
  Build_world (sample_env (py "AI, 芯片")) quota files ∅ ∅.

(** [a.md] beside a directory that has its sentinel name. *)
Definition stale_directory_tree : gmap path node :=
  <[a_md := Text sample_text]> (<[ds_path a_md := Dir]> ∅).

(** [a.md], and [b.md] that is not UTF-8. *)
Definition two_files_tree : gmap path node :=
  <[a_md := Text sample_text]> (<[b_md := Binary]> ∅).

(** A document whose front-matter block is not YAML: a flow sequence is
    opened and never closed. *)
Definition malformed_text : pystr := py "---\ntitle: [\n---\nbody\n".

Definition malformed_tree : gmap path node :=
  <[a_md := Text malformed_text]> (<[b_md := Text sample_text]> ∅).

(** ** Notions used to state the properties of the pipeline *)

(** A string that neither starts nor ends with whitespace. *)
Definition trimmed (t : pystr) : Prop :=
  (forall c rest, t = c :: rest -> py_isspace c = false)
  /\ (forall c front, t = front ++ [c] -> py_isspace c = false).

(** 2023-05-01 12:00:00 UTC *)
Definition may_day_noon_utc : datetime :=
  {| year := 2023; month := 5; day := 1; hour := 12; minute := 0; second := 0;
     microsecond := 0; tzinfo := Some 0 |}.

(** A computation that leaves the source tree as it found it. *)
Definition preserves_src {E A} (m : M E A) : Prop :=
  forall w r w', m w = (r, w') -> src w' = src w.

(** The turn of [md] in the run from [w] over [l1 ++ md :: l2] completes:
    [process_one] and the marking step both return. *)
Definition completes (E : env) (md : path) (w : world E) : Prop :=
  exists w1 w2, process_one E md w = (Ok tt, w1) /\ mark md w1 = (Ok tt, w2).

(** A group of lines that makes a section: not empty, and no line after
    the first is a heading. *)
Definition section_group (g : list pystr) : Prop :=
  g <> [] /\ Forall (fun ln => _HDR_RE_match ln = false) (tail g).

(** A group whose first line is a heading. *)
Definition headed (g : list pystr) : Prop :=
  match g with
  | ln :: _ => _HDR_RE_match ln = true
  | [] => False
  end.

(** [v or {}] *)
Definition or_empty_dict (v : yaml) : yaml := if py_truthy v then v else YMap [].

(** A front-matter block inside which the closing mark does not occur. *)
Definition no_closing_mark (fm : pystr) : Prop := py_find (py "\n---") fm 0 = -1.

(** The prompts of [process_one], by request. *)
Definition title_prompt (E : env) (title : yaml) : pystr :=
  py "请将以下标题翻译为简体中文，请不要添加任何除正文外的其它内容或者是AI翻译作为第三方的注解或评述，只保留翻译后的标题中文：\n" ++ format_value E title.






(** The world after a request was answered or refused in state [s]. *)
Definition with_service {E} (w : world E) (s : llm E) : world E :=
  {| service := s; src := src w; dst := dst w; dst_dirs := dst_dirs w |}.

(** A computation that leaves the files of the destination tree as it
    found them, and one that does so at least when it raises. *)
Definition preserves_dst {E A} (m : M E A) : Prop :=
  forall w r w', m w = (r, w') -> dst w' = dst w.

Definition raise_keeps_dst {E A} (m : M E A) : Prop :=
  forall w e w', m w = (Raise e, w') -> dst w' = dst w.

(** The world once the root of the destination tree is there
    ([DST_DIR.mkdir], line 180). *)
Definition with_root {E} (w : world E) : world E := (mkdir_parents [] w).2.

(** A computation that makes and removes no directory of the destination
    tree. *)
Definition preserves_dirs {E A} (m : M E A) : Prop :=
  forall w r w', m w = (r, w') -> dst_dirs w' = dst_dirs w.

(** A computation that runs in the same way, with the same result, when
    the root of the destination tree is there from the start. *)
Definition rooted {E A} (m : M E A) : Prop :=
  forall w r w', m w = (r, w') -> m (with_root w) = (r, with_root w').





(** [feed/b.md], a file that is not UTF-8, in a directory of the source
    tree. *)
Definition feed_b_md : path := ([py "feed"], py "b.md").

Definition unreadable_tree : gmap path node :=
  <[feed_b_md := Binary]> (<[([], py "feed") := Dir]> ∅).

(** * Properties *)

(** ** Segmenter: sections *)

Section Sections.

Lemma len_nonneg {A} (l : list A) : 0 <= len l.
Proof. unfold len. lia. Qed.

Lemma len_app {A} (l k : list A) : len (l ++ k) = len l + len k.
Proof. unfold len. rewrite length_app. lia. Qed.

Lemma splitlines_from_cons cur c s' :
  splitlines_from cur (c :: s') =
  if (c =? CR)%N then
    match s' with
    | c' :: s'' =>
        if (c' =? LF)%N then rev (c' :: c :: cur) :: splitlines_from [] s''
        else rev (c :: cur) :: splitlines_from [] s'
    | [] => [rev (c :: cur)]
    end
  else if is_linebreak c then rev (c :: cur) :: splitlines_from [] s'
  else splitlines_from (c :: cur) s'.
Proof. destruct s'; reflexivity. Qed.

(** Joining the lines of [splitlines] gives the string back. *)
Lemma splitlines_from_concat s :
  forall cur, concat (splitlines_from cur s) = rev cur ++ s.
Proof.
  remember (length s) as n eqn:Hn.
  revert s Hn. induction n as [n IH] using lt_wf_ind. intros s Hn cur.
  destruct s as [|c s'].
  - destruct cur; simpl; [reflexivity|]. now rewrite !app_nil_r.
  - rewrite splitlines_from_cons. simpl in Hn.
    assert (Hs' : forall cur', concat (splitlines_from cur' s') = rev cur' ++ s')
      by (intros; apply (IH (length s')); [lia | reflexivity]).
    destruct (c =? CR)%N; [destruct s' as [|c' s'']; [|destruct (c' =? LF)%N]|
                          destruct (is_linebreak c)];
      cbn [concat]; rewrite ?Hs'; cbn [rev]; rewrite <- ?app_assoc;
      try reflexivity.
    rewrite (IH (length s'')); [reflexivity | simpl in Hn; lia | reflexivity].
Qed.

Lemma splitlines_concat s : concat (splitlines s) = s.
Proof. unfold splitlines. now rewrite splitlines_from_concat. Qed.

(** The first loop keeps every line, in order. *)
Lemma section_loop_concat lines :
  forall sections buf sections' buf',
    section_loop lines sections buf = (sections', buf') ->
    concat sections' ++ concat buf' =
    concat sections ++ concat buf ++ concat lines.
Proof.
  induction lines as [|ln rest IH]; intros sections buf sections' buf' H; simpl in H.
  - injection H as <- <-. simpl. now rewrite app_nil_r.
  - destruct (_HDR_RE_match ln && nonempty buf).
    + apply IH in H. rewrite H. rewrite concat_app. simpl.
      rewrite !app_nil_r, <- !app_assoc. reflexivity.
    + apply IH in H. rewrite H. rewrite concat_app. simpl.
      rewrite !app_nil_r, <- !app_assoc. reflexivity.
Qed.

Lemma sections_of_concat md : concat (sections_of md) = md.
Proof.
  unfold sections_of.
  destruct (section_loop (splitlines md) [] []) as [sections buf] eqn:H.
  apply section_loop_concat in H. simpl in H. rewrite splitlines_concat in H.
  destruct buf as [|b buf]; simpl in *.
  - now rewrite app_nil_r in H.
  - rewrite concat_app. simpl. rewrite app_nil_r. exact H.
Qed.

(** A member of a list of strings is a segment of their concatenation. *)
Lemma concat_segment (ss : list pystr) s :
  In s ss -> exists a c, concat ss = a ++ s ++ c.
Proof.
  intros H. apply in_split in H as (l1 & l2 & ->).
  exists (concat l1), (concat l2). rewrite concat_app. reflexivity.
Qed.

End Sections.

(** ** Segmenter: ranges and slices *)

Section RangesAndSlices.

Lemma py_range_step_zero start stop : py_range start stop 0 = Raise ValueError.
Proof. reflexivity. Qed.

Lemma py_range_pos stop step :
  0 < step ->
  py_range 0 stop step =
  Ok (map (fun k => Z.of_nat k * step)
          (seq 0 (Z.to_nat ((stop + step - 1) / step)))).
Proof.
  intros Hs. unfold py_range.
  destruct (Z.eqb_spec step 0); [lia|].
  destruct (Z.ltb_spec 0 step); [|lia].
  rewrite Z.sub_0_r. reflexivity.
Qed.

Lemma py_range_neg stop step :
  step < 0 -> 0 <= stop -> py_range 0 stop step = Ok [].
Proof.
  intros Hs Hstop. unfold py_range.
  destruct (Z.eqb_spec step 0); [lia|].
  destruct (Z.ltb_spec 0 step); [lia|].
  assert (Hq : (0 - stop - step - 1) / - step < 1)
    by (apply Z.div_lt_upper_bound; lia).
  replace (Z.to_nat ((0 - stop - step - 1) / - step)) with O by lia.
  reflexivity.
Qed.

(** A range from zero to a length is empty unless the step is positive,
    and holds no negative index. *)
Lemma py_range_from_zero stop step r :
  0 <= stop -> py_range 0 stop step = Ok r ->
  Forall (fun i => 0 <= i /\ 0 < step) r.
Proof.
  intros Hstop H.
  destruct (Z.lt_trichotomy step 0) as [Hneg|[->|Hpos]].
  - rewrite py_range_neg in H by assumption. injection H as <-. constructor.
  - discriminate H.
  - rewrite py_range_pos in H by assumption. injection H as <-.
    apply List.Forall_forall. intros i Hi. apply in_map_iff in Hi as (k & <- & _).
    split; [nia | assumption].
Qed.

Lemma py_slice_length {A} (l : list A) lo w :
  0 <= lo -> 0 <= w -> len (py_slice l lo (lo + w)) <= w.
Proof.
  intros Hlo Hw. unfold py_slice, clamp_index, len.
  destruct (Z.ltb_spec lo 0); [lia|].
  destruct (Z.ltb_spec (lo + w) 0); [lia|].
  rewrite length_take, length_drop. lia.
Qed.

End RangesAndSlices.

(** ** Segmenter: chunks *)

Section Chunks.

Variable _enc : option tokenizer.
Variable cfg : config.

(** Sections within the budget pass through the second loop unchanged. *)
Lemma chunk_loop_within secs :
  forall out,
    Forall (fun s => _token_len _enc s <= CHUNK_TOKENS cfg) secs ->
    chunk_loop _enc cfg secs out = Ok (out ++ secs).
Proof.
  induction secs as [|seg rest IH]; intros out H; simpl.
  - now rewrite app_nil_r.
  - inversion H as [|? ? Hseg Hrest]; subst.
    destruct (Z.leb_spec (_token_len _enc seg) (CHUNK_TOKENS cfg)); [|lia].
    rewrite IH by assumption. rewrite <- app_assoc. reflexivity.
Qed.

(** A property of chunks that holds of unsplit sections and of every
    window holds of all the output. *)
Lemma chunk_loop_Forall (P : pystr -> Prop) :
  (forall seg, _token_len _enc seg <= CHUNK_TOKENS cfg -> P seg) ->
  (forall e toks i, _enc = Some e -> 0 <= i -> 0 < stride cfg ->
                    P (decode e (py_slice toks i (i + CHUNK_TOKENS cfg)))) ->
  (forall seg i, _enc = None -> 0 <= i -> 0 < stride cfg * 4 ->
                 P (py_slice seg i (i + stride cfg * 4))) ->
  forall secs out out',
    Forall P out -> chunk_loop _enc cfg secs out = Ok out' -> Forall P out'.
Proof.
  intros Hin Htok Hchr. induction secs as [|seg rest IH]; intros out out' Hout H.
  - simpl in H. now injection H as <-.
  - simpl in H.
    destruct (Z.leb_spec (_token_len _enc seg) (CHUNK_TOKENS cfg)).
    + apply IH in H; [assumption|]. apply Forall_app. split; [assumption|].
      constructor; [now apply Hin | constructor].
    + destruct _enc as [e|] eqn:He.
      * destruct (py_range 0 (len (encode e seg)) (CHUNK_TOKENS cfg - CHUNK_OVERLAP cfg))
          as [r|] eqn:Hr; [|discriminate H].
        simpl in H. apply IH in H; [assumption|].
        apply Forall_app. split; [assumption|].
        apply py_range_from_zero in Hr; [|apply len_nonneg].
        apply List.Forall_forall. intros c Hc. apply in_map_iff in Hc as (i & <- & Hi).
        rewrite List.Forall_forall in Hr. destruct (Hr i Hi). now apply Htok.
      * destruct (py_range 0 (len seg) ((CHUNK_TOKENS cfg - CHUNK_OVERLAP cfg) * 4))
          as [r|] eqn:Hr; [|discriminate H].
        simpl in H. apply IH in H; [assumption|].
        apply Forall_app. split; [assumption|].
        apply py_range_from_zero in Hr; [|apply len_nonneg].
        apply List.Forall_forall. intros c Hc. apply in_map_iff in Hc as (i & <- & Hi).
        rewrite List.Forall_forall in Hr. destruct (Hr i Hi). now apply Hchr.
Qed.

End Chunks.

(** In character mode a segment is never longer than the whole. *)
Lemma fallback_monotone (md a s c : pystr) :
  md = a ++ s ++ c -> _token_len None s <= _token_len None md.
Proof. intros ->. simpl. rewrite !len_app. pose proof (len_nonneg a). pose proof (len_nonneg c). lia. Qed.

(** So in character mode no section is longer than the body. *)
Lemma fallback_sections_monotone (md : pystr) :
  Forall (fun s => _token_len None s <= _token_len None md) (sections_of md).
Proof.
  apply List.Forall_forall. intros s Hs.
  apply concat_segment in Hs as (a & c & Hs). rewrite sections_of_concat in Hs.
  exact (fallback_monotone md a s c Hs).
Qed.

(** C1. When the estimated length of the body is within the chunk budget,
    [_split_markdown] returns the sections unchanged, one chunk per
    section, and the chunks joined in order are the body. Without a
    tokenizer this holds of every body; with a tokenizer it holds when no
    section of the body has more tokens than the body. *)
Theorem split_markdown_within_budget (_enc : option tokenizer) (cfg : config) (md : pystr) :
  (forall e, _enc = Some e ->
     Forall (fun s => len (encode e s) <= len (encode e md)) (sections_of md)) ->
  _token_len _enc md <= CHUNK_TOKENS cfg ->
  exists out,
    _split_markdown _enc cfg md = Ok out
    /\ out = sections_of md
    /\ concat out = md.
Proof.
  intros Hmono Hfit. exists (sections_of md). split; [|split].
  - unfold _split_markdown. rewrite chunk_loop_within; [reflexivity|].
    assert (H : Forall (fun s => _token_len _enc s <= _token_len _enc md) (sections_of md)).
    { destruct _enc as [e|]; [exact (Hmono e eq_refl) | apply fallback_sections_monotone]. }
    eapply List.Forall_impl; [|exact H]. cbv beta. intros s Hs. lia.
  - reflexivity.
  - apply sections_of_concat.
Qed.

Lemma split_markdown_within_budget_witness :
  let md := py "intro\n# A\ntext\n## B\n" in
  let cfg := small_config 10 2 in
  (forall e, Some pair_tokenizer = Some e ->
     Forall (fun s => len (encode e s) <= len (encode e md)) (sections_of md))
  /\ _token_len (Some pair_tokenizer) md = 10
  /\ _token_len (Some pair_tokenizer) md <= CHUNK_TOKENS cfg
  /\ exists out,
       _split_markdown (Some pair_tokenizer) cfg md = Ok out
       /\ out = [py "intro\n"; py "# A\ntext\n"; py "## B\n"]
       /\ concat out = md.
Proof.
  intros md cfg.
  assert (Hmono : forall e, Some pair_tokenizer = Some e ->
            Forall (fun s => len (encode e s) <= len (encode e md)) (sections_of md)).
  { intros e He. injection He as <-.
    repeat (constructor; [vm_compute; discriminate|]). constructor. }
  assert (Hfit : _token_len (Some pair_tokenizer) md <= CHUNK_TOKENS cfg)
    by (vm_compute; discriminate).
  split; [exact Hmono|]. split; [vm_compute; reflexivity|]. split; [exact Hfit|].
  destruct (split_markdown_within_budget (Some pair_tokenizer) cfg md Hmono Hfit)
    as (out & H1 & H2 & H3).
  exists out. split; [exact H1|]. split; [rewrite H2; reflexivity | exact H3].
Defined.

(** *** A body of one line *)

Lemma splitlines_from_one_line s :
  forall cur,
    Forall (fun c => is_linebreak c = false) s ->
    splitlines_from cur s = match rev cur ++ s with [] => [] | ln => [ln] end.
Proof.
  induction s as [|c s IH]; intros cur H.
  - simpl. rewrite app_nil_r. destruct cur as [|x cur]; [reflexivity|].
    simpl. destruct (rev cur ++ [x]) eqn:E; [|reflexivity].
    now apply app_eq_nil in E as [_ ?].
  - inversion H as [|? ? Hc Hs]; subst. rewrite splitlines_from_cons.
    assert (Hcr : (c =? CR)%N = false).
    { destruct (N.eqb_spec c CR) as [->|]; [discriminate Hc | reflexivity]. }
    rewrite Hcr, Hc, IH by assumption. simpl. now rewrite <- app_assoc.
Qed.

Lemma sections_of_one_line s :
  s <> [] -> Forall (fun c => is_linebreak c = false) s -> sections_of s = [s].
Proof.
  intros Hne H. unfold sections_of, splitlines.
  rewrite splitlines_from_one_line by assumption. simpl.
  destruct s as [|c s]; [contradiction|]. simpl.
  destruct (_HDR_RE_match (c :: s)); simpl; now rewrite app_nil_r.
Qed.

(** Without a tokenizer, a one-line body over the budget is cut at the
    multiples of four times the stride. *)
Lemma split_markdown_one_line_fallback cfg s r :
  s <> [] -> Forall (fun c => is_linebreak c = false) s ->
  CHUNK_TOKENS cfg < len s ->
  py_range 0 (len s) (stride cfg * 4) = Ok r ->
  _split_markdown None cfg s = Ok (map (fun i => py_slice s i (i + stride cfg * 4)) r).
Proof.
  intros Hne Hs Hover Hr. unfold _split_markdown.
  rewrite sections_of_one_line by assumption. simpl.
  destruct (Z.leb_spec (len s) (CHUNK_TOKENS cfg)); [lia|].
  unfold stride in Hr. rewrite Hr. reflexivity.
Qed.

Lemma long_section_len n : 0 <= n -> len (long_section n) = n.
Proof. intros H. unfold len, long_section. rewrite length_replicate. lia. Qed.

Lemma long_section_one_line n : Forall (fun c => is_linebreak c = false) (long_section n).
Proof. apply Forall_replicate. reflexivity. Qed.

Lemma long_section_nonempty n : 0 < n -> long_section n <> [].
Proof.
  intros H E. apply (f_equal len) in E. rewrite long_section_len in E by lia.
  unfold len in E. simpl in E. lia.
Qed.

Lemma long_section_slice n lo hi :
  0 <= lo <= hi -> 0 <= n ->
  py_slice (long_section n) lo hi = long_section (Z.min hi n - Z.min lo n).
Proof.
  intros H Hn. unfold py_slice. rewrite long_section_len by assumption.
  unfold clamp_index.
  destruct (Z.ltb_spec lo 0); [lia|]. destruct (Z.ltb_spec hi 0); [lia|].
  unfold long_section. rewrite drop_replicate, take_replicate. f_equal. lia.
Qed.

(** C2, counterexample. Without a tokenizer and with the shipped constants,
    a section of 8001 characters is over the budget of 8000, the only
    window of stride 31200 is the section itself, and the chunk measures
    8001 by [_token_len]. *)
Lemma chunk_budget_fallback_counterexample :
  _split_markdown None default_config (long_section 8001) = Ok [long_section 8001]
  /\ CHUNK_TOKENS default_config < _token_len None (long_section 8001).
Proof.
  split.
  - rewrite (split_markdown_one_line_fallback default_config _ [0]).
    + simpl. rewrite long_section_slice by (vm_compute; intuition discriminate).
      reflexivity.
    + apply long_section_nonempty. reflexivity.
    + apply long_section_one_line.
    + rewrite long_section_len by discriminate. reflexivity.
    + rewrite long_section_len by discriminate. reflexivity.
  - simpl. rewrite long_section_len by discriminate. reflexivity.
Qed.

(** Every chunk meets the bound of its mode. *)
Lemma chunks_bounded (_enc : option tokenizer) (cfg : config) (md : pystr)
    (out : list pystr) :
  0 <= CHUNK_TOKENS cfg ->
  _split_markdown _enc cfg md = Ok out ->
  Forall (chunk_bounded _enc cfg) out.
Proof.
  intros HB H. unfold _split_markdown in H.
  eapply (chunk_loop_Forall _enc cfg (chunk_bounded _enc cfg)); [..|constructor|exact H].
  - intros seg Hseg. unfold chunk_bounded. destruct _enc; [now left|].
    simpl in Hseg. lia.
  - intros e toks i -> Hi Hs. right.
    exists (py_slice toks i (i + CHUNK_TOKENS cfg)). split; [|reflexivity].
    now apply py_slice_length.
  - intros seg i -> Hi Hs. unfold chunk_bounded.
    pose proof (py_slice_length seg i (stride cfg * 4) Hi). lia.
Qed.

(** C2, amended. For a budget that is not negative, every chunk meets the
    bound of its mode: with a tokenizer it is a section whose [_token_len]
    is within [CHUNK_TOKENS] or the decoding of a window of at most
    [CHUNK_TOKENS] tokens; without one it has at most
    [max CHUNK_TOKENS (4 * (CHUNK_TOKENS - CHUNK_OVERLAP))] characters. *)
Theorem chunk_bound_by_mode (_enc : option tokenizer) (cfg : config) (md : pystr)
    (out : list pystr) :
  0 <= CHUNK_TOKENS cfg ->
  _split_markdown _enc cfg md = Ok out ->
  Forall
    (fun c =>
       match _enc with
       | Some e =>
           _token_len _enc c <= CHUNK_TOKENS cfg
           \/ exists w, len w <= CHUNK_TOKENS cfg /\ c = decode e w
       | None =>
           len c <= Z.max (CHUNK_TOKENS cfg) ((CHUNK_TOKENS cfg - CHUNK_OVERLAP cfg) * 4)
       end) out.
Proof.
  intros HB H. pose proof (chunks_bounded _enc cfg md out HB H) as Hb.
  eapply Forall_impl; [exact Hb|]. intros c Hc.
  unfold chunk_bounded, stride in Hc. destruct _enc; exact Hc.
Qed.

Lemma chunk_bound_by_mode_witness :
  let cfg := small_config 4 1 in
  let out := [py "abcd"; py "defg"; py "ghij"; py "j"] in
  0 <= CHUNK_TOKENS cfg
  /\ _split_markdown (Some char_tokenizer) cfg (py "abcdefghij") = Ok out
  /\ Forall (fun c => _token_len (Some char_tokenizer) c <= CHUNK_TOKENS cfg
                       \/ exists w, len w <= CHUNK_TOKENS cfg
                                    /\ c = decode char_tokenizer w) out.
Proof.
  intros cfg out.
  assert (H0 : 0 <= CHUNK_TOKENS cfg) by (vm_compute; discriminate).
  assert (H1 : _split_markdown (Some char_tokenizer) cfg (py "abcdefghij") = Ok out)
    by (vm_compute; reflexivity).
  split; [exact H0|]. split; [exact H1|].
  exact (chunk_bound_by_mode (Some char_tokenizer) cfg (py "abcdefghij") out H0 H1).
Defined.

(** With a tokenizer that never needs more tokens for a decoded window than
    the window had, every chunk is within the budget by [_token_len]. *)
Corollary exact_chunks_within_budget (e : tokenizer) (cfg : config) (md : pystr)
    (out : list pystr) :
  (forall w, len (encode e (decode e w)) <= len w) ->
  0 <= CHUNK_TOKENS cfg ->
  _split_markdown (Some e) cfg md = Ok out ->
  Forall (fun c => _token_len (Some e) c <= CHUNK_TOKENS cfg) out.
Proof.
  intros Hre HB H. apply chunks_bounded in H; [|assumption].
  eapply Forall_impl; [exact H|]. intros c [Hc|(w & Hw & ->)]; [exact Hc|].
  simpl. specialize (Hre w). lia.
Qed.

(** C3, at the failing input. Without a tokenizer and with the shipped
    constants, a section of 31201 characters gives the windows [0:31200]
    and [31200:31201]: a window has the length of the stride, not of the
    budget, and consecutive windows share no character. *)
Theorem fallback_windows_do_not_overlap :
  _split_markdown None default_config (long_section 31201)
  = Ok [long_section 31200; long_section 1].
Proof.
  rewrite (split_markdown_one_line_fallback default_config _ [0; 31200]).
  - simpl. rewrite !long_section_slice by (vm_compute; intuition discriminate).
    reflexivity.
  - apply long_section_nonempty. reflexivity.
  - apply long_section_one_line.
  - rewrite long_section_len by discriminate. reflexivity.
  - rewrite long_section_len by discriminate. reflexivity.
Qed.

(** ** Segmenter: windows *)

Lemma py_slice_nonneg {A} (l : list A) lo hi :
  0 <= lo -> 0 <= hi ->
  py_slice l lo hi = take (Z.to_nat (Z.min hi (len l)) - Z.to_nat (Z.min lo (len l))) (drop (Z.to_nat (Z.min lo (len l))) l).
Proof.
  intros Hlo Hhi. unfold py_slice, clamp_index.
  destruct (Z.ltb_spec lo 0); [lia|]. destruct (Z.ltb_spec hi 0); [lia|].
  f_equal. pose proof (len_nonneg l). lia.
Qed.

(** Consecutive slices of the same width tile a prefix. *)
Lemma slices_tile {A} (l : list A) step m :
  0 < step ->
  concat (map (fun i => py_slice l i (i + step)) (map (fun k => Z.of_nat k * step) (seq 0 m)))
  = take (Z.to_nat (Z.of_nat m * step)) l.
Proof.
  intros Hs. induction m as [|m IH].
  - reflexivity.
  - rewrite seq_S, !map_app, concat_app, IH. simpl. rewrite app_nil_r.
    replace (Z.of_nat (S m) * step) with (Z.of_nat m * step + step) by lia.
    assert (Hx : 0 <= Z.of_nat m * step) by nia.
    generalize dependent (Z.of_nat m * step). intros x _ Hx.
    rewrite py_slice_nonneg by lia. unfold len.
    destruct (Z.le_gt_cases (Z.of_nat (length l)) x) as [Hge|Hlt].
    + rewrite (take_ge l (Z.to_nat x)) by lia.
      rewrite drop_ge by lia. rewrite take_nil, app_nil_r.
      symmetry. apply take_ge. lia.
    + replace (Z.to_nat (Z.min x (Z.of_nat (length l)))) with (Z.to_nat x) by lia.
      rewrite <- (take_drop (Z.to_nat x) (take (Z.to_nat (x + step)) l)).
      rewrite take_take. f_equal; [f_equal; lia|].
      destruct (Z.le_gt_cases (x + step) (Z.of_nat (length l))).
      * rewrite skipn_firstn_comm. f_equal. lia.
      * rewrite (take_ge l (Z.to_nat (x + step))) by lia.
        apply take_ge. rewrite length_drop. lia.
Qed.

Lemma py_slice_inside {A} (l : list A) lo hi :
  0 <= lo <= hi -> hi <= len l ->
  py_slice l lo hi = take (Z.to_nat (hi - lo)) (drop (Z.to_nat lo) l).
Proof.
  intros H Hhi. rewrite py_slice_nonneg by lia. f_equal; [|f_equal]; lia.
Qed.

(** The window at [i] and the next one, at [i] plus the stride: when the
    first is full, its last [O] tokens are the first [O] tokens of the
    next. *)
Lemma windows_overlap {A} (toks : list A) (B O i : Z) :
  0 <= O -> O < B -> 0 <= i -> i + B <= len toks ->
  let w1 := py_slice toks i (i + B) in
  let w2 := py_slice toks (i + (B - O)) (i + (B - O) + B) in
  len w1 = B
  /\ py_slice w1 (B - O) B = py_slice w2 0 O
  /\ len (py_slice w2 0 O) = O.
Proof.
  intros HO HB Hi Hfit w1 w2.
  assert (Hw1 : w1 = take (Z.to_nat B) (drop (Z.to_nat i) toks)).
  { unfold w1. rewrite py_slice_inside by lia. f_equal. lia. }
  assert (Hl1 : len w1 = B).
  { rewrite Hw1. unfold len in *. rewrite length_take, length_drop. lia. }
  assert (Hl2 : O <= len w2).
  { unfold w2. rewrite py_slice_nonneg by lia. unfold len in *.
    rewrite length_take, length_drop. lia. }
  assert (Hw2 : py_slice w2 0 O = take (Z.to_nat O) (drop (Z.to_nat (i + (B - O))) toks)).
  { rewrite py_slice_inside by lia. rewrite Z.sub_0_r. change (Z.to_nat 0) with 0%nat.
    rewrite drop_0. unfold w2. rewrite py_slice_nonneg by lia. rewrite take_take.
    unfold len in *. f_equal; [|f_equal]; lia. }
  split; [exact Hl1|]. split.
  - rewrite Hw2. rewrite py_slice_inside by lia. rewrite Hw1.
    rewrite skipn_firstn_comm, drop_drop, take_take.
    f_equal; [|f_equal]; lia.
  - rewrite Hw2. unfold len in *. rewrite length_take, length_drop. lia.
Qed.

(** With a tokenizer and a positive stride, a section over the budget
    gives the decoded windows of [CHUNK_TOKENS] tokens that start at the
    multiples of the stride. *)
Lemma exact_mode_windows (e : tokenizer) (cfg : config) (seg : pystr) :
  0 < stride cfg ->
  CHUNK_TOKENS cfg < _token_len (Some e) seg ->
  chunk_loop (Some e) cfg [seg] []
  = Ok (map (fun k => decode e (py_slice (encode e seg)
                                   (Z.of_nat k * stride cfg)
                                   (Z.of_nat k * stride cfg + CHUNK_TOKENS cfg)))
          (seq 0 (Z.to_nat ((len (encode e seg) + stride cfg - 1) / stride cfg)))).
Proof.
  intros Hs Hover. simpl in *.
  destruct (Z.leb_spec (len (encode e seg)) (CHUNK_TOKENS cfg)); [lia|].
  unfold stride in *. rewrite py_range_pos by assumption. simpl.
  now rewrite map_map.
Qed.

(** As many slices as [range] gives cover the whole list. *)
Lemma slices_cover {A} (l : list A) step :
  0 < step ->
  concat (map (fun i => py_slice l i (i + step))
            (map (fun k => Z.of_nat k * step)
               (seq 0 (Z.to_nat ((len l + step - 1) / step)))))
  = l.
Proof.
  intros Hs. rewrite slices_tile by assumption. apply take_ge.
  pose proof (len_nonneg l) as Hl.
  assert (Hq : 0 <= (len l + step - 1) / step) by (apply Z.div_pos; lia).
  pose proof (Z.mul_succ_div_gt (len l + step - 1) step Hs) as Hgt.
  rewrite Z2Nat.id by assumption. unfold len in *. nia.
Qed.

(** Without a tokenizer and with a positive stride, the chunks joined in
    order are the body: consecutive chunks share no character. *)
Lemma fallback_chunks_tile (cfg : config) secs :
  0 < stride cfg ->
  forall out out',
    chunk_loop None cfg secs out = Ok out' ->
    concat out' = concat out ++ concat secs.
Proof.
  intros Hs. induction secs as [|seg rest IH]; intros out out' H; simpl in H.
  - injection H as <-. simpl. now rewrite app_nil_r.
  - destruct (len seg <=? CHUNK_TOKENS cfg).
    + apply IH in H. rewrite H, concat_app. simpl.
      now rewrite app_nil_r, <- app_assoc.
    + unfold stride in Hs. rewrite py_range_pos in H by lia. simpl in H.
      apply IH in H. rewrite H, concat_app, slices_cover by lia.
      simpl. now rewrite <- app_assoc.
Qed.

Corollary fallback_chunks_tile_body (cfg : config) (md : pystr) (out : list pystr) :
  0 < stride cfg ->
  _split_markdown None cfg md = Ok out ->
  concat out = md.
Proof.
  intros Hs H. apply (fallback_chunks_tile cfg _ Hs) in H.
  rewrite H. simpl. apply sections_of_concat.
Qed.

(** ** Segmenter: the stride *)

Section Stride.

Variable _enc : option tokenizer.
Variable cfg : config.

(** A positive stride: the second loop returns. *)
Lemma chunk_loop_total secs :
  0 < stride cfg -> forall out, exists out', chunk_loop _enc cfg secs out = Ok out'.
Proof.
  intros Hs. unfold stride in Hs.
  induction secs as [|seg rest IH]; intros out; simpl.
  - now exists out.
  - destruct (_token_len _enc seg <=? CHUNK_TOKENS cfg); [apply IH|].
    destruct _enc as [e|].
    + rewrite py_range_pos by lia. simpl. apply IH.
    + rewrite py_range_pos by lia. simpl. apply IH.
Qed.

(** A zero stride: the first section over the budget raises. *)
Lemma chunk_loop_stride_zero secs :
  stride cfg = 0 ->
  Exists (fun seg => within_budget _enc cfg seg = false) secs ->
  forall out, chunk_loop _enc cfg secs out = Raise ValueError.
Proof.
  intros Hs. unfold stride in Hs.
  induction secs as [|seg rest IH]; intros Hex out.
  - inversion Hex.
  - simpl. unfold within_budget in *.
    destruct (_token_len _enc seg <=? CHUNK_TOKENS cfg) eqn:Hfit.
    + apply IH. inversion Hex as [? ? Hseg|]; subst; [congruence | assumption].
    + destruct _enc; rewrite Hs; reflexivity.
Qed.

(** A negative stride: the sections over the budget give no chunk. *)
Lemma chunk_loop_stride_negative secs :
  stride cfg < 0 ->
  forall out,
    chunk_loop _enc cfg secs out
    = Ok (out ++ filter (fun seg => within_budget _enc cfg seg = true) secs).
Proof.
  intros Hs. unfold stride in Hs.
  induction secs as [|seg rest IH]; intros out.
  - simpl. now rewrite app_nil_r.
  - simpl. unfold within_budget in *. rewrite filter_cons.
    destruct (_token_len _enc seg <=? CHUNK_TOKENS cfg) eqn:Hfit.
    + rewrite IH. destruct (decide (true = true)); [|congruence].
      now rewrite <- app_assoc.
    + destruct (decide (false = true)); [congruence|].
      destruct _enc as [e|].
      * rewrite py_range_neg by (try apply len_nonneg; lia). simpl.
        rewrite app_nil_r. apply IH.
      * rewrite py_range_neg by (try apply len_nonneg; lia). simpl.
        rewrite app_nil_r. apply IH.
Qed.

End Stride.

(** C4, counterexample. No check stands between the constants and the
    slicing loop: with overlap equal to the budget the loop is reached
    with stride zero and [range] raises; with a greater overlap the stride
    is negative and the section over the budget gives no chunk. *)
Lemma overlap_not_guarded_counterexample :
  (CHUNK_TOKENS (small_config 2 2) <= CHUNK_OVERLAP (small_config 2 2)
   /\ stride (small_config 2 2) = 0
   /\ _split_markdown None (small_config 2 2) (py "abc") = Raise ValueError)
  /\ (CHUNK_TOKENS (small_config 2 3) <= CHUNK_OVERLAP (small_config 2 3)
      /\ stride (small_config 2 3) = -1
      /\ _split_markdown None (small_config 2 3) (py "abc") = Ok []).
Proof. repeat split; vm_compute; congruence. Qed.

(** C4, amended. The constants are not checked. With the shipped constants
    the stride is 7800, and for every pair with the overlap below the
    budget the stride is positive and segmentation returns. A pair with
    the overlap equal to the budget makes segmentation raise [ValueError]
    as soon as a section is over the budget; a pair with a greater overlap
    makes it return the sections within the budget only. *)
Theorem stride_by_configuration :
  stride default_config = 7800
  /\ (forall _enc cfg md,
        CHUNK_OVERLAP cfg < CHUNK_TOKENS cfg ->
        0 < stride cfg /\ exists out, _split_markdown _enc cfg md = Ok out)
  /\ (forall _enc cfg md,
        CHUNK_OVERLAP cfg = CHUNK_TOKENS cfg ->
        Exists (fun seg => within_budget _enc cfg seg = false) (sections_of md) ->
        _split_markdown _enc cfg md = Raise ValueError)
  /\ (forall _enc cfg md,
        CHUNK_TOKENS cfg < CHUNK_OVERLAP cfg ->
        _split_markdown _enc cfg md
        = Ok (filter (fun seg => within_budget _enc cfg seg = true) (sections_of md))).
Proof.
  split; [reflexivity|]. split; [|split].
  - intros _enc cfg md H. assert (Hs : 0 < stride cfg) by (unfold stride; lia).
    split; [exact Hs|]. now apply chunk_loop_total.
  - intros _enc cfg md H Hex. apply chunk_loop_stride_zero; [|assumption].
    unfold stride. lia.
  - intros _enc cfg md H. unfold _split_markdown.
    rewrite chunk_loop_stride_negative by (unfold stride; lia). reflexivity.
Qed.

Lemma stride_by_configuration_witness :
  (CHUNK_OVERLAP default_config < CHUNK_TOKENS default_config
   /\ 0 < stride default_config
   /\ exists out, _split_markdown None default_config (py "# A\ntext\n") = Ok out)
  /\ (CHUNK_OVERLAP (small_config 2 2) = CHUNK_TOKENS (small_config 2 2)
      /\ _split_markdown (Some char_tokenizer) (small_config 2 2) (py "abc")
         = Raise ValueError)
  /\ (CHUNK_TOKENS (small_config 2 3) < CHUNK_OVERLAP (small_config 2 3)
      /\ _split_markdown None (small_config 2 3) (py "abc\n# A\n")
         = Ok (filter (fun seg => within_budget None (small_config 2 3) seg = true)
                 (sections_of (py "abc\n# A\n")))).
Proof.
  destruct stride_by_configuration as (_ & Hpos & Hzero & Hneg).
  split; [|split].
  - assert (H : CHUNK_OVERLAP default_config < CHUNK_TOKENS default_config)
      by (vm_compute; reflexivity).
    split; [exact H|]. exact (Hpos None default_config (py "# A\ntext\n") H).
  - split; [reflexivity|].
    apply Hzero; [reflexivity|]. vm_compute. constructor. reflexivity.
  - assert (H : CHUNK_TOKENS (small_config 2 3) < CHUNK_OVERLAP (small_config 2 3))
      by (vm_compute; reflexivity).
    split; [exact H|]. exact (Hneg None (small_config 2 3) (py "abc\n# A\n") H).
Defined.

(** ** Tags *)

Section Tags.

Lemma lstrip_if_suffix p s : exists pre, s = pre ++ lstrip_if p s.
Proof.
  induction s as [|c s [pre IH]]; simpl.
  - now exists [].
  - destruct (p c); [|now exists []].
    exists (c :: pre). simpl. now f_equal.
Qed.

Lemma lstrip_if_head p s c rest : lstrip_if p s = c :: rest -> p c = false.
Proof.
  induction s as [|x s IH]; simpl; [discriminate|].
  destruct (p x) eqn:Hx; [exact IH|]. intros H. injection H as -> _. exact Hx.
Qed.

(** [strip] returns a segment of its argument, trimmed at both ends. *)
Lemma py_strip_segment s : exists a c, s = a ++ py_strip s ++ c.
Proof.
  unfold py_strip.
  destruct (lstrip_if_suffix py_isspace s) as [a Ha].
  destruct (lstrip_if_suffix py_isspace (rev (lstrip_if py_isspace s))) as [c Hc].
  exists a, (rev c). rewrite Ha at 1. f_equal.
  rewrite <- rev_app_distr, <- Hc. now rewrite rev_involutive.
Qed.

Lemma py_strip_trimmed s : trimmed (py_strip s).
Proof.
  unfold py_strip. set (a := lstrip_if py_isspace s).
  destruct (lstrip_if_suffix py_isspace (rev a)) as [pre Hpre].
  set (b := lstrip_if py_isspace (rev a)) in *.
  split.
  - intros c rest Hb.
    assert (Ha : a = (c :: rest) ++ rev pre).
    { rewrite <- Hb, <- rev_app_distr, <- Hpre. now rewrite rev_involutive. }
    apply (lstrip_if_head py_isspace s c (rest ++ rev pre)). exact Ha.
  - intros c front Hb.
    apply (f_equal (@rev N)) in Hb. rewrite rev_involutive, rev_app_distr in Hb.
    simpl in Hb. exact (lstrip_if_head _ _ _ _ Hb).
Qed.

(** The pieces of [re.split] hold no character of the class. *)
Lemma re_split_class_pieces cls s :
  forall in_run cur,
    Forall (fun c => cls c = false) cur ->
    Forall (Forall (fun c => cls c = false)) (re_split_class cls in_run cur s).
Proof.
  induction s as [|c s IH]; intros in_run cur Hcur; simpl.
  - constructor; [|constructor]. now apply Forall_rev.
  - destruct (cls c) eqn:Hc.
    + destruct in_run.
      * apply IH. constructor.
      * constructor; [now apply Forall_rev | apply IH; constructor].
    + apply IH. now constructor.
Qed.

Lemma extract_tags_each resp :
  Forall (fun t => t <> [] /\ trimmed t /\ Forall (fun c => tag_delimiter c = false) t)
         (extract_tags resp).
Proof.
  unfold extract_tags.
  pose proof (re_split_class_pieces tag_delimiter resp false [] (List.Forall_nil _)) as H.
  induction H as [|kw pieces Hkw Hrest IH]; [constructor|].
  rewrite filter_cons. destruct (decide (nonempty (py_strip kw) = true)) as [Hne|]; [|exact IH].
  simpl. constructor; [|exact IH]. split; [|split].
  - intros E. rewrite E in Hne. discriminate.
  - apply py_strip_trimmed.
  - destruct (py_strip_segment kw) as (a & c & Hseg). rewrite Hseg in Hkw.
    apply Forall_app in Hkw as [_ Hkw]. now apply Forall_app in Hkw as [Hkw _].
Qed.

End Tags.

(** C9. The tags are the pieces of the response between runs of comma,
    fullwidth comma, ideographic comma and newline, stripped, the blank
    ones left out: no tag is empty, none starts or ends with whitespace,
    none holds a delimiter; and the response [AI, 芯片、机器人\n监管] gives
    the four tags [AI], [芯片], [机器人], [监管] in this order. *)
Theorem extract_tags_spec :
  (forall resp,
     extract_tags resp
     = map py_strip
         (filter (fun kw => nonempty (py_strip kw) = true)
            (re_split_class
               (fun c => (c =? 44) || (c =? 65292) || (c =? 12289) || (c =? 10))%N
               false [] resp))
     /\ Forall (fun t => t <> [] /\ trimmed t
                         /\ Forall (fun c => tag_delimiter c = false) t)
               (extract_tags resp))
  /\ py "," = [44%N] /\ py "，" = [65292%N] /\ py "、" = [12289%N] /\ py "\n" = [10%N]
  /\ extract_tags (py "AI, 芯片、机器人\n监管")
     = [py "AI"; py "芯片"; py "机器人"; py "监管"].
Proof.
  split; [|repeat split; vm_compute; reflexivity].
  intros resp. split; [reflexivity | apply extract_tags_each].
Qed.

(** ** Front matter *)

Section Dict.

Lemma is_str_true key k : is_str key k = true -> k = YStr key.
Proof.
  unfold is_str. destruct k; try discriminate. intros H.
  apply bool_decide_eq_true in H. now subst.
Qed.

Lemma is_str_refl key : is_str key (YStr key) = true.
Proof. unfold is_str. now apply bool_decide_eq_true. Qed.

Lemma is_str_other key key' k :
  key <> key' -> is_str key k = true -> is_str key' k = false.
Proof.
  intros Hne H. apply is_str_true in H. subst. unfold is_str.
  apply bool_decide_eq_false. congruence.
Qed.

Lemma dict_get_in key items v :
  dict_get key items = Some v -> existsb (fun kv => is_str key kv.1) items = true.
Proof.
  induction items as [|[k v'] rest IH]; simpl; [discriminate|].
  destruct (is_str key k); [reflexivity | exact IH].
Qed.

Lemma dict_get_set_same key v items : dict_get key (dict_set key v items) = Some v.
Proof.
  induction items as [|[k v'] rest IH]; simpl.
  - now rewrite is_str_refl.
  - destruct (is_str key k) eqn:Hk; simpl; rewrite Hk; [reflexivity | exact IH].
Qed.

Lemma dict_get_set_other key key' v items :
  key <> key' -> dict_get key' (dict_set key v items) = dict_get key' items.
Proof.
  intros Hne. induction items as [|[k v'] rest IH]; simpl.
  - unfold is_str. destruct (bool_decide_reflect (key = key')); [contradiction | reflexivity].
  - destruct (is_str key k) eqn:Hk; simpl.
    + now rewrite (is_str_other _ _ _ Hne Hk).
    + rewrite IH. reflexivity.
Qed.

Lemma dict_get_del_same key items : dict_get key (dict_del key items) = None.
Proof.
  unfold dict_del. induction items as [|[k v] rest IH]; [reflexivity|].
  rewrite filter_cons. simpl.
  destruct (decide (is_str key k = false)) as [Hk|Hk]; [|exact IH].
  simpl. now rewrite Hk.
Qed.

End Dict.

(** C7. When the front matter has [date] with the string
    [2023-05-01T12:00:00Z] (and [fromisoformat] reads the documented
    format), the date block succeeds, the result has no key [date], and
    [pubDatetime] is the aware datetime 2023-05-01 12:00:00 with offset
    zero. *)
Theorem rename_date_utc (E : env) (items : list (yaml * yaml)) :
  iso_conformant E ->
  dict_get (py "date") items = Some (YStr (py "2023-05-01T12:00:00Z")) ->
  exists items',
    rename_date E (YMap items) = Ok (YMap items')
    /\ dict_get (py "date") items' = None
    /\ dict_get (py "pubDatetime") items' = Some (YDatetime may_day_noon_utc).
Proof.
  intros Hiso Hdate.
  exists (dict_set (py "pubDatetime") (YDatetime may_day_noon_utc)
            (dict_del (py "date") items)).
  split; [|split].
  - unfold rename_date. simpl py_in. rewrite (dict_get_in _ _ _ Hdate).
    simpl. rewrite Hdate. simpl.
    rewrite (Hiso _ may_day_noon_utc); reflexivity.
  - rewrite dict_get_set_other by (vm_compute; discriminate).
    apply dict_get_del_same.
  - apply dict_get_set_same.
Qed.

Lemma rename_date_utc_witness :
  let E := sample_env (py "ok") in
  let items := [(YStr (py "title"), YStr (py "Hello"));
                (YStr (py "date"), YStr (py "2023-05-01T12:00:00Z"));
                (YStr (py "link"), YStr (py "https://example.org/a"))] in
  iso_conformant E
  /\ dict_get (py "date") items = Some (YStr (py "2023-05-01T12:00:00Z"))
  /\ exists items',
       rename_date E (YMap items) = Ok (YMap items')
       /\ dict_get (py "date") items' = None
       /\ dict_get (py "pubDatetime") items' = Some (YDatetime may_day_noon_utc).
Proof.
  intros E items.
  assert (H1 : iso_conformant E) by (intros s t H; exact H).
  assert (H2 : dict_get (py "date") items = Some (YStr (py "2023-05-01T12:00:00Z")))
    by (vm_compute; reflexivity).
  split; [exact H1|]. split; [exact H2|].
  exact (rename_date_utc E items H1 H2).
Defined.

(** C8. The assembled document is, in this order: the line [---], the
    stripped dump of the front matter, the line [---] and a blank line; the
    attribution line with a blank line when the link is a non-empty value
    and nothing when it is [None] or empty; the heading [## 摘要：], a blank
    line, the summary, a blank line, the rule [---], a blank line; the
    body. It starts with [---] and a line end whatever the link is. *)
Theorem compose_markdown_layout (E : env) (front link : yaml) (summary body : pystr) :
  exists fm attribution,
    compose_markdown E front link summary body
    = py "---\n" ++ fm ++ py "\n---\n\n" ++ attribution
        ++ py "## 摘要：\n\n" ++ summary ++ py "\n\n---\n\n" ++ body
    /\ fm = py_strip (safe_dump E front)
    /\ attribution
       = (if py_truthy link
          then py "*[源信息](" ++ format_value E link ++ py ")经过deepseek翻译并总结*\n\n"
          else [])
    /\ startswith (py "---\n") (compose_markdown E front link summary body) = true.
Proof.
  exists (py_strip (safe_dump E front)), (link_block E link).
  split; [|split; [reflexivity|split; [reflexivity|reflexivity]]].
  unfold compose_markdown, summary_block. now rewrite <- !app_assoc.
Qed.

(** The front matter that [process_one] hands to the assembler has no
    [link]: the value popped is passed beside it. *)
Lemma pop_link_absent items link front :
  py_pop_default (YMap items) (py "link") = Ok (link, front) ->
  exists items', front = YMap items' /\ dict_get (py "link") items' = None.
Proof.
  simpl. destruct (dict_get (py "link") items) eqn:H; intros Heq; injection Heq as <- <-.
  - eexists. split; [reflexivity | apply dict_get_del_same].
  - eexists. split; [reflexivity | exact H].
Qed.

(** ** The monad of the pipeline *)

Lemma result_of_fst {A B} (p : A * B) (a : A) : p.1 = a -> p = (a, p.2).
Proof. destruct p. simpl. congruence. Qed.

Section Monad.

Context {E : env}.

Lemma M_bind_Ok {A B} (m : M E A) (k : A -> M E B) w a w' :
  m w = (Ok a, w') -> (m ≫= k) w = k a w'.
Proof. intros H. unfold mbind, M_bind. now rewrite H. Qed.

Lemma M_bind_Raise {A B} (m : M E A) (k : A -> M E B) w e w' :
  m w = (Raise e, w') -> (m ≫= k) w = (Raise e, w').
Proof. intros H. unfold mbind, M_bind. now rewrite H. Qed.

Lemma preserves_ret {A} (a : A) : preserves_src (mret a : M E A).
Proof. intros w r w' H. now injection H as _ <-. Qed.

Lemma preserves_lift {A} (r : result A) : preserves_src (lift r : M E A).
Proof. intros w r' w' H. now injection H as _ <-. Qed.

Lemma preserves_bind {A B} (m : M E A) (k : A -> M E B) :
  preserves_src m -> (forall a, preserves_src (k a)) -> preserves_src (m ≫= k).
Proof.
  intros Hm Hk w r w' H. unfold mbind, M_bind in H.
  destruct (m w) as [[a|e] w1] eqn:Hmw.
  - apply Hk in H. apply Hm in Hmw. congruence.
  - injection H as _ <-. now apply Hm in Hmw.
Qed.

Lemma preserves_mapM {A B} (f : A -> M E B) l :
  (forall a, preserves_src (f a)) -> preserves_src (mapM f l).
Proof.
  intros Hf. induction l as [|x rest IH]; simpl.
  - apply preserves_ret.
  - apply preserves_bind; [apply Hf|]. intros y.
    apply preserves_bind; [apply IH|]. intros ys. apply preserves_ret.
Qed.

Lemma preserves_ask_llm prompt temp : preserves_src (ask_llm prompt temp : M E pystr).
Proof.
  intros w r w' H. unfold ask_llm in H.
  destruct (create E (service w) prompt temp) as [[content|e] s];
    now injection H as _ <-.
Qed.

Lemma preserves_read_text p : preserves_src (read_text p : M E pystr).
Proof.
  intros w r w' H. unfold read_text in H.
  destruct (src w !! p) as [[| |]|]; now injection H as _ <-.
Qed.

Lemma preserves_write_text p s : preserves_src (write_text p s : M E unit).
Proof.
  intros w r w' H. unfold write_text in H.
  repeat case_match; now injection H as _ <-.
Qed.

Lemma preserves_mkdir_parents d : preserves_src (mkdir_parents d : M E unit).
Proof.
  intros w r w' H. unfold mkdir_parents in H.
  destruct (blocked (dst w) [] d); now injection H as _ <-.
Qed.

End Monad.

Create HintDb preserve.
#[local] Hint Resolve preserves_ret preserves_lift preserves_ask_llm
  preserves_read_text preserves_write_text preserves_mkdir_parents : preserve.

Ltac preserve :=
  repeat first
    [ apply preserves_bind; [|intros]
    | apply preserves_mapM; intros
    | match goal with
      | |- preserves_src (match ?x with _ => _ end) => destruct x
      | |- preserves_src (if ?b then _ else _) => destruct b
      end
    | solve [auto with preserve] ].

(** [process_one] reads the source tree and writes the destination tree. *)
Lemma translate_title_src (E : env) front : preserves_src (translate_title E front).
Proof. unfold translate_title. preserve. Qed.

#[local] Hint Resolve translate_title_src : preserve.

Lemma process_one_src (E : env) md : preserves_src (process_one E md).
Proof. unfold process_one. preserve. Qed.

(** ** The marker *)

Section Marker.

Context {E : env}.

Lemma startswith_app p s : startswith p (p ++ s) = true.
Proof. induction p as [|c p IH]; simpl; [reflexivity|]. now rewrite N.eqb_refl. Qed.

Lemma ds_path_prefixed md : startswith (py "[ds]") (ds_path md).2 = true.
Proof. apply startswith_app. Qed.

Lemma ds_path_inj md md' : ds_path md = ds_path md' -> md = md'.
Proof.
  destruct md as [d n], md' as [d' n']. unfold ds_path. cbn [fst snd]. intros H.
  assert (H1 : d = d') by congruence.
  assert (H2 : py "[ds]" ++ n = py "[ds]" ++ n') by congruence.
  apply app_inv_head in H2. now subst.
Qed.

Lemma ds_path_ne md : ds_path md <> md.
Proof.
  destruct md as [d n]. unfold ds_path. cbn [fst snd]. intros H.
  assert (H2 : py "[ds]" ++ n = n) by congruence.
  apply (f_equal (@length N)) in H2. rewrite length_app in H2.
  change (length (py "[ds]")) with 4%nat in H2. lia.
Qed.

(** The marking step, when it returns, has moved the file to the
    sentinel name, over any file that was there. *)
Lemma mark_ok md (w w2 : world E) :
  mark md w = (Ok tt, w2) ->
  exists f,
    src w !! md = Some f /\ f <> Dir
    /\ src w2 = <[ds_path md := f]> (delete md (delete (ds_path md) (src w))).
Proof.
  pose proof (ds_path_ne md) as Hne. intros H.
  unfold mark, mbind, M_bind, path_exists, unlink, rename, mret, M_ret in H.
  destruct (src w !! ds_path md) as [[c| |]|] eqn:Hds;
    destruct (src w !! md) as [[c'| |]|] eqn:Hmd; cbn in H.
  all: repeat (rewrite ?lookup_delete_ne, ?lookup_delete_eq, ?Hds, ?Hmd in H
                 by congruence; cbn in H).
  all: try discriminate H.
  all: injection H as <-; cbn; eexists; (split; [reflexivity|]);
    (split; [discriminate|]); rewrite ?(delete_id (src w) (ds_path md)) by assumption;
    reflexivity.
Qed.

(** The marking step changes nothing but the file and the sentinel
    name. *)
Lemma mark_frame md (w w2 : world E) r p :
  mark md w = (r, w2) -> p <> md -> p <> ds_path md -> src w2 !! p = src w !! p.
Proof.
  pose proof (ds_path_ne md) as Hne. intros H Hp Hpds.
  unfold mark, mbind, M_bind, path_exists, unlink, rename, mret, M_ret in H.
  destruct (src w !! ds_path md) as [[c| |]|] eqn:Hds;
    destruct (src w !! md) as [[c'| |]|] eqn:Hmd; cbn in H.
  all: repeat (rewrite ?lookup_delete_ne, ?lookup_delete_eq, ?Hds, ?Hmd in H
                 by congruence; cbn in H).
  all: injection H as _ <-; cbn;
    rewrite ?lookup_insert_ne, ?lookup_delete_ne by congruence; reflexivity.
Qed.

(** When the marking step raises, the file is where it was. *)
Lemma mark_raise md (w w2 : world E) e :
  mark md w = (Raise e, w2) -> src w2 !! md = src w !! md.
Proof.
  pose proof (ds_path_ne md) as Hne. intros H.
  unfold mark, mbind, M_bind, path_exists, unlink, rename, mret, M_ret in H.
  destruct (src w !! ds_path md) as [[c| |]|] eqn:Hds;
    destruct (src w !! md) as [[c'| |]|] eqn:Hmd; cbn in H.
  all: repeat (rewrite ?lookup_delete_ne, ?lookup_delete_eq, ?Hds, ?Hmd in H
                 by congruence; cbn in H).
  all: try discriminate H.
  all: injection H as _ <-; cbn;
    rewrite ?lookup_delete_ne by congruence; congruence.
Qed.

End Marker.

(** ** The directories of the destination tree *)

Section Dirs.

Context {E : env}.

Lemma M_bind_inv {A B} (m : M E A) (k : A -> M E B) w r w' :
  (m ≫= k) w = (r, w') ->
  (exists a w1, m w = (Ok a, w1) /\ k a w1 = (r, w'))
  \/ (exists e, m w = (Raise e, w') /\ r = Raise e).
Proof.
  unfold mbind, M_bind. destruct (m w) as [[a|e] w1].
  - left. eauto.
  - intros H. injection H as <- <-. right. eauto.
Qed.

Lemma dirs_ret {A} (a : A) : preserves_dirs (mret a : M E A).
Proof. intros w r w' H. now injection H as _ <-. Qed.

Lemma dirs_lift {A} (r : result A) : preserves_dirs (lift r : M E A).
Proof. intros w r' w' H. now injection H as _ <-. Qed.

Lemma dirs_bind {A B} (m : M E A) (k : A -> M E B) :
  preserves_dirs m -> (forall a, preserves_dirs (k a)) -> preserves_dirs (m ≫= k).
Proof.
  intros Hm Hk w r w' H.
  apply M_bind_inv in H as [(a & w1 & Hmw & H)|(e & Hmw & _)].
  - apply Hk in H. apply Hm in Hmw. congruence.
  - now apply Hm in Hmw.
Qed.

Lemma dirs_mapM {A B} (f : A -> M E B) l :
  (forall a, preserves_dirs (f a)) -> preserves_dirs (mapM f l).
Proof.
  intros Hf. induction l as [|x rest IH]; simpl.
  - apply dirs_ret.
  - apply dirs_bind; [apply Hf|]. intros y.
    apply dirs_bind; [apply IH|]. intros ys. apply dirs_ret.
Qed.

Lemma dirs_ask_llm prompt temp : preserves_dirs (ask_llm prompt temp : M E pystr).
Proof.
  intros w r w' H. unfold ask_llm in H.
  destruct (create E (service w) prompt temp) as [[content|e] s];
    now injection H as _ <-.
Qed.

Lemma dirs_read_text p : preserves_dirs (read_text p : M E pystr).
Proof.
  intros w r w' H. unfold read_text in H.
  destruct (src w !! p) as [[| |]|]; now injection H as _ <-.
Qed.

Lemma dirs_write_text p s : preserves_dirs (write_text p s : M E unit).
Proof.
  intros w r w' H. unfold write_text in H.
  repeat case_match; now injection H as _ <-.
Qed.

Lemma dirs_mark md : preserves_dirs (mark md : M E unit).
Proof.
  intros w r w' H.
  unfold mark, path_exists, unlink, rename, mbind, M_bind, mret, M_ret in H.
  repeat case_match; simplify_eq; reflexivity.
Qed.

(** The root is among the ancestors of every directory. *)
Lemma root_ancestor (d : list pystr) : [] ∈ ancestors d.
Proof. unfold ancestors. cbn [seq map]. rewrite take_0. left. Qed.

Lemma elem_of_ancestors (d a : list pystr) : a ∈ ancestors d <-> a `prefix_of` d.
Proof.
  unfold ancestors. rewrite list_elem_of_fmap. split.
  - intros (n & -> & _). apply prefix_take.
  - intros [k ->]. exists (length a). split.
    + now rewrite take_app_length.
    + apply elem_of_seq. rewrite length_app. lia.
Qed.

(** [mkdir] either raises and changes nothing, or makes the directory
    and those above it. *)
Lemma mkdir_parents_cases d (w : world E) :
  (exists e, blocked (dst w) [] d = Some e /\ mkdir_parents d w = (Raise e, w))
  \/ (blocked (dst w) [] d = None
      /\ exists w1, mkdir_parents d w = (Ok tt, w1)
         /\ service w1 = service w /\ src w1 = src w /\ dst w1 = dst w
         /\ dst_dirs w1 = dst_dirs w ∪ list_to_set (ancestors d)).
Proof.
  unfold mkdir_parents. destruct (blocked (dst w) [] d) as [e|].
  - left. eauto.
  - right. split; [reflexivity|]. eexists. split; [reflexivity|]. auto.
Qed.

Lemma with_root_eq (w : world E) :
  with_root w = {| service := service w; src := src w; dst := dst w;
                   dst_dirs := dst_dirs w ∪ list_to_set (ancestors []) |}.
Proof. reflexivity. Qed.

Lemma src_with_root (w : world E) : src (with_root w) = src w.
Proof. reflexivity. Qed.

Lemma dst_with_root (w : world E) : dst (with_root w) = dst w.
Proof. reflexivity. Qed.

Lemma md_files_with_root (w : world E) : md_files (with_root w) = md_files w.
Proof. reflexivity. Qed.

Lemma with_root_id (w : world E) : [] ∈ dst_dirs w -> with_root w = w.
Proof.
  intros H. rewrite with_root_eq. destruct w as [s sr d dd].
  cbn [service src dst dst_dirs] in *.
  f_equal. apply leibniz_equiv. intros x.
  rewrite elem_of_union, elem_of_list_to_set, elem_of_ancestors.
  split; [|now left]. intros [Hx|Hx]; [exact Hx|].
  apply prefix_nil_inv in Hx. now rewrite Hx.
Qed.

End Dirs.

Create HintDb keep_dirs.
#[local] Hint Resolve dirs_ret dirs_lift dirs_ask_llm dirs_read_text
  dirs_write_text : keep_dirs.

Ltac keep_dirs :=
  repeat first
    [ apply dirs_bind; [|intros]
    | apply dirs_mapM; intros
    | match goal with
      | |- preserves_dirs (match ?x with _ => _ end) => destruct x
      | |- preserves_dirs (if ?b then _ else _) => destruct b
      end
    | solve [auto with keep_dirs] ].

Lemma translate_title_dirs (E : env) front : preserves_dirs (translate_title E front).
Proof. unfold translate_title. keep_dirs. Qed.

#[local] Hint Resolve translate_title_dirs : keep_dirs.

(** The directories that [process_one] makes: none when [mkdir] raises,
    else the parent of the destination path and the directories above
    it, whatever happens afterwards. *)
Lemma process_one_dirs (E : env) md (w w' : world E) r :
  process_one E md w = (r, w') ->
  (exists e, blocked (dst w) [] md.1 = Some e /\ r = Raise e /\ w' = w)
  \/ (blocked (dst w) [] md.1 = None
      /\ dst_dirs w' = dst_dirs w ∪ list_to_set (ancestors md.1)).
Proof.
  intros H. unfold process_one in H. cbv zeta in H.
  apply M_bind_inv in H as [(a & w1 & Hmk & H)|(e & Hmk & ->)].
  - right.
    destruct (mkdir_parents_cases md.1 w) as [(e & _ & He)|(Hb & w1' & Hw1 & _ & _ & _ & Hd)];
      [congruence|].
    split; [exact Hb|]. rewrite <- Hd. replace w1' with w1 by congruence.
    match type of H with
    | ?f ?x = _ => assert (Hf : preserves_dirs f) by keep_dirs; exact (Hf _ _ _ H)
    end.
  - left. exists e.
    destruct (mkdir_parents_cases md.1 w) as [(e' & Hb & He)|(_ & w1' & Hw1 & _)];
      [|congruence].
    rewrite He in Hmk. injection Hmk as <- <-. auto.
Qed.

Section Rooted.

Context {E : env}.

Lemma rooted_process_one md : rooted (process_one E md).
Proof.
  intros w r w' H.
  pose proof (process_one_dirs E md w w' r H) as [(e & Hb & -> & ->)|[Hb Hd]].
  - unfold process_one. cbv zeta. apply M_bind_Raise.
    unfold mkdir_parents. change (dst (with_root w)) with (dst w). now rewrite Hb.
  - assert (Hroot : [] ∈ dst_dirs w').
    { rewrite Hd. apply elem_of_union. right. apply elem_of_list_to_set, root_ancestor. }
    rewrite (with_root_id w' Hroot). rewrite <- H.
    unfold process_one. cbv zeta.
    assert (Hmk : mkdir_parents md.1 (with_root w) = mkdir_parents md.1 w).
    { unfold mkdir_parents. change (dst (with_root w)) with (dst w). rewrite Hb.
      f_equal. rewrite with_root_eq. cbn [service src dst dst_dirs]. f_equal.
      apply leibniz_equiv. intros x.
      rewrite !elem_of_union, !elem_of_list_to_set, !elem_of_ancestors.
      split; [|tauto]. intros [[Hx|Hx]|Hx]; [tauto| |tauto].
      right. apply prefix_nil_inv in Hx. rewrite Hx. apply prefix_nil. }
    unfold mbind, M_bind. now rewrite Hmk.
Qed.

Lemma rooted_bind {A B} (m : M E A) (k : A -> M E B) :
  rooted m -> (forall a, rooted (k a)) -> rooted (m ≫= k).
Proof.
  intros Hm Hk w r w' H.
  apply M_bind_inv in H as [(a & w1 & Hmw & H)|(e & Hmw & ->)].
  - rewrite (M_bind_Ok _ _ _ _ _ (Hm _ _ _ Hmw)). now apply Hk.
  - now apply M_bind_Raise, Hm.
Qed.

Lemma rooted_ret {A} (a : A) : rooted (mret a : M E A).
Proof. intros w r w' H. now injection H as <- <-. Qed.

Lemma rooted_path_exists p : rooted (path_exists p : M E bool).
Proof. intros w r w' H. unfold path_exists in *. now injection H as <- <-. Qed.

Lemma rooted_unlink p : rooted (unlink p : M E unit).
Proof.
  intros w r w' H. unfold unlink in *. change (src (with_root w)) with (src w).
  destruct (src w !! p) as [[| |]|]; now injection H as <- <-.
Qed.

Lemma rooted_rename p q : rooted (rename p q : M E unit).
Proof.
  intros w r w' H. unfold rename in *. change (src (with_root w)) with (src w).
  destruct (src w !! p) as [[| |]|]; [| |now injection H as <- <-..];
    destruct (src w !! q) as [[| |]|]; now injection H as <- <-.
Qed.

Lemma rooted_mark md : rooted (mark md : M E unit).
Proof.
  unfold mark. apply rooted_bind; [apply rooted_path_exists|]. intros stale.
  apply rooted_bind; [|intros; apply rooted_rename].
  destruct stale; [apply rooted_unlink | apply rooted_ret].
Qed.

Lemma main_iter_rooted md s f (w : world E) :
  main_iter E md (s, f, with_root w)
  = ((main_iter E md (s, f, w)).1, with_root (main_iter E md (s, f, w)).2).
Proof.
  unfold main_iter.
  destruct (process_one E md w) as [[[]|e] w1] eqn:Hp;
    rewrite (rooted_process_one md _ _ _ Hp); [|reflexivity].
  destruct (mark md w1) as [[[]|e] w2] eqn:Hm;
    rewrite (rooted_mark md _ _ _ Hm); reflexivity.
Qed.

Lemma main_loop_rooted l : forall s f (w : world E),
  main_loop E l (s, f, with_root w)
  = ((main_loop E l (s, f, w)).1, with_root (main_loop E l (s, f, w)).2).
Proof.
  induction l as [|md l IH]; intros s f w; [reflexivity|].
  unfold main_loop in *. cbn [fold_left].
  rewrite main_iter_rooted.
  destruct (main_iter E md (s, f, w)) as [[s1 f1] w1]. cbn [fst snd]. apply IH.
Qed.

(** A run is the loop over the scanned files, with the root of the
    destination tree made. *)
Lemma main_run (w : world E) :
  main E w = (len (md_files w), (main_loop E (md_files w) (0, 0, w)).1.1,
              (main_loop E (md_files w) (0, 0, w)).1.2,
              with_root (main_loop E (md_files w) (0, 0, w)).2).
Proof.
  unfold main. change (mkdir_parents [] w).2 with (with_root w).
  change (md_files (with_root w)) with (md_files w).
  rewrite main_loop_rooted.
  destruct (main_loop E (md_files w) (0, 0, w)) as [[s f] w']. reflexivity.
Qed.

End Rooted.

(** ** The top-level loop *)

Section Loop.

Variable E : env.

Lemma elem_of_md_files (w : world E) p :
  p ∈ md_files w <->
  is_Some (src w !! p)
  /\ endswith (py ".md") p.2 = true
  /\ startswith (py "[ds]") p.2 = false.
Proof.
  unfold md_files, rglob_md. rewrite !list_elem_of_filter, list_elem_of_fmap.
  split.
  - intros (Hds & Hmd & [q x] & -> & Hq). apply elem_of_map_to_list in Hq.
    simpl in *. eauto.
  - intros ([x Hx] & Hmd & Hds). split; [exact Hds|]. split; [exact Hmd|].
    exists (p, x). split; [reflexivity|]. now apply elem_of_map_to_list.
Qed.

Lemma NoDup_md_files (w : world E) : NoDup (md_files w).
Proof.
  unfold md_files, rglob_md. do 2 apply NoDup_filter. apply NoDup_fst_map_to_list.
Qed.

Lemma main_loop_app l1 l2 st :
  main_loop E (l1 ++ l2) st = main_loop E l2 (main_loop E l1 st).
Proof. unfold main_loop. apply fold_left_app. Qed.

Lemma main_loop_cons md l st :
  main_loop E (md :: l) st = main_loop E l (main_iter E md st).
Proof. reflexivity. Qed.

(** A turn of the loop changes nothing but its file and the sentinel
    name of its file. *)
Lemma main_iter_frame md st p :
  p <> md -> p <> ds_path md ->
  src (main_iter E md st).2 !! p = src st.2 !! p.
Proof.
  intros Hp Hpds. destruct st as [[success fail] w]. unfold main_iter.
  destruct (process_one E md w) as [[[]|e] w1] eqn:Hp1;
    pose proof (process_one_src E md _ _ _ Hp1) as Hsrc.
  - destruct (mark md w1) as [[[]|e] w2] eqn:Hm; simpl;
      rewrite (mark_frame md w1 w2 _ p Hm Hp Hpds); now rewrite Hsrc.
  - simpl. now rewrite Hsrc.
Qed.

Lemma main_loop_frame l p :
  (forall q, q ∈ l -> p <> q /\ p <> ds_path q) ->
  forall st, src (main_loop E l st).2 !! p = src st.2 !! p.
Proof.
  induction l as [|md l IH]; intros Hl st; [reflexivity|].
  rewrite main_loop_cons, IH.
  - apply main_iter_frame; apply Hl; left.
  - intros q Hq. apply Hl. now right.
Qed.

(** A turn that completes moves the file to its sentinel name and counts
    one success. *)
Lemma main_iter_completes md success fail (w : world E) :
  completes E md w ->
  exists w2,
    main_iter E md (success, fail, w) = (success + 1, fail, w2)
    /\ src w2 !! md = None
    /\ src w2 !! ds_path md = src w !! md.
Proof.
  intros (w1 & w2 & Hp & Hm). exists w2. unfold main_iter. rewrite Hp, Hm.
  split; [reflexivity|].
  pose proof (process_one_src E md _ _ _ Hp) as Hsrc.
  apply mark_ok in Hm as (f & Hf & _ & ->). rewrite Hsrc in Hf.
  pose proof (ds_path_ne md) as Hne.
  rewrite lookup_insert_ne, lookup_delete_eq, lookup_insert_eq by congruence.
  now rewrite Hf.
Qed.

(** A turn that does not complete leaves the file where it was and
    counts one failure. *)
Lemma main_iter_fails md success fail (w : world E) :
  ¬ completes E md w ->
  exists success' w',
    main_iter E md (success, fail, w) = (success', fail + 1, w')
    /\ src w' !! md = src w !! md.
Proof.
  intros Hnot. unfold main_iter.
  destruct (process_one E md w) as [[[]|e] w1] eqn:Hp;
    pose proof (process_one_src E md _ _ _ Hp) as Hsrc.
  - destruct (mark md w1) as [[[]|e] w2] eqn:Hm.
    + exfalso. apply Hnot. now exists w1, w2.
    + eexists _, _. split; [reflexivity|].
      rewrite (mark_raise md w1 w2 e Hm). now rewrite Hsrc.
  - eexists _, _. split; [reflexivity|]. now rewrite Hsrc.
Qed.

(** Every turn adds at least one to the sum of the two counters. *)
Lemma main_iter_counts md st :
  st.1.1 + st.1.2 + 1 <= (main_iter E md st).1.1 + (main_iter E md st).1.2.
Proof.
  destruct st as [[success fail] w]. unfold main_iter.
  destruct (process_one E md w) as [[[]|e] w1].
  - destruct (mark md w1) as [[[]|e] w2]; simpl; lia.
  - simpl. lia.
Qed.

Lemma main_loop_counts l :
  forall st,
    st.1.1 + st.1.2 + len l <= (main_loop E l st).1.1 + (main_loop E l st).1.2.
Proof.
  induction l as [|md l IH]; intros st.
  - unfold len. simpl. lia.
  - rewrite main_loop_cons. specialize (IH (main_iter E md st)).
    pose proof (main_iter_counts md st). unfold len in *. simpl length. lia.
Qed.

Lemma main_world (w : world E) :
  (main E w).2 = with_root (main_loop E (md_files w) (0, 0, w)).2.
Proof. now rewrite main_run. Qed.

End Loop.

(** ** Runs *)

Section Runs.

Variable E : env.

(** The turn of [md] within a run: the turns before and after it leave
    [md] and its sentinel name alone. *)
Lemma run_around (w : world E) l1 md l2 :
  md_files w = l1 ++ md :: l2 ->
  let st1 := main_loop E l1 (0, 0, w) in
  let st2 := main_iter E md st1 in
  let stF := main_loop E l2 st2 in
  stF = main_loop E (md_files w) (0, 0, w)
  /\ src st1.2 !! md = src w !! md
  /\ src st1.2 !! ds_path md = src w !! ds_path md
  /\ src stF.2 !! md = src st2.2 !! md
  /\ src stF.2 !! ds_path md = src st2.2 !! ds_path md.
Proof.
  intros Hfiles st1 st2 stF.
  pose proof (NoDup_md_files E w) as Hnd. rewrite Hfiles in Hnd.
  apply NoDup_app in Hnd as (_ & Hl1 & Hnd). apply NoDup_cons in Hnd as (Hl2 & _).
  assert (Hmd : startswith (py "[ds]") md.2 = false).
  { apply (elem_of_md_files E w). rewrite Hfiles. apply elem_of_app. right. left. }
  assert (Hother : forall q, q ∈ l1 ++ l2 ->
            startswith (py "[ds]") q.2 = false /\ q <> md).
  { intros q Hq. split.
    - apply (elem_of_md_files E w). rewrite Hfiles.
      apply elem_of_app in Hq as [Hq|Hq]; apply elem_of_app; [now left|].
      right. now right.
    - apply elem_of_app in Hq as [Hq|Hq]; intros ->; [|contradiction].
      apply (Hl1 md Hq). left. }
  assert (Hframe : forall q, q ∈ l1 ++ l2 ->
            (md <> q /\ md <> ds_path q) /\ (ds_path md <> q /\ ds_path md <> ds_path q)).
  { intros q Hq. destruct (Hother q Hq) as [Hpre Hne]. repeat split.
    - congruence.
    - intros Heq. rewrite Heq, ds_path_prefixed in Hmd. discriminate.
    - intros Heq. rewrite <- Heq, ds_path_prefixed in Hpre. discriminate.
    - intros Heq. apply ds_path_inj in Heq. congruence. }
  split; [|split; [|split; [|split]]].
  - rewrite Hfiles, main_loop_app, main_loop_cons. reflexivity.
  - apply (main_loop_frame E l1 md). intros q Hq. apply Hframe, elem_of_app. now left.
  - apply (main_loop_frame E l1 (ds_path md)). intros q Hq.
    apply Hframe, elem_of_app. now left.
  - apply (main_loop_frame E l2 md). intros q Hq. apply Hframe, elem_of_app. now right.
  - apply (main_loop_frame E l2 (ds_path md)). intros q Hq.
    apply Hframe, elem_of_app. now right.
Qed.

End Runs.

(** C5, counterexample. The document [a.md] is processed and its output is
    written, but a directory has its sentinel name: the removal raises,
    the file is not renamed, and the next scan finds it again. *)
Lemma marker_counterexample :
  let w := sample_world 100 stale_directory_tree in
  let wF := (main _ w).2 in
  (process_one _ a_md w).1 = Ok tt
  /\ dst (process_one _ a_md w).2 !! a_md <> None
  /\ dst wF !! a_md <> None
  /\ src wF !! a_md = Some (Text sample_text)
  /\ src wF !! ds_path a_md = Some Dir
  /\ md_files wF = [a_md].
Proof.
  intros w wF. split; [|split; [|split; [|split; [|split]]]].
  - vm_compute. reflexivity.
  - vm_compute. discriminate.
  - vm_compute. discriminate.
  - vm_compute. reflexivity.
  - vm_compute. reflexivity.
  - vm_compute. reflexivity.
Qed.

(** C5, amended. In a run over the scanned files, the file [md] is moved to
    its sentinel name exactly when its turn completes, that is, when
    [process_one] returned and the marking step (removal of a stale entry
    with the sentinel name, then the rename) returned too. The scan holds
    no name with the prefix. A file that was moved is not in the scan of
    the tree after the run; a file whose processing or marking raised
    keeps its name and content and is in that scan. *)
Theorem marker_resumability (E : env) (w : world E) (l1 : list path) (md : path)
    (l2 : list path) :
  md_files w = l1 ++ md :: l2 ->
  let st1 := main_loop E l1 (0, 0, w) in
  let wF := (main E w).2 in
  (completes E md st1.2 ->
     src wF !! md = None /\ src wF !! ds_path md = src w !! md /\ md ∉ md_files wF)
  /\ (¬ completes E md st1.2 ->
        src wF !! md = src w !! md /\ md ∈ md_files wF)
  /\ (forall p, p ∈ md_files wF -> startswith (py "[ds]") p.2 = false).
Proof.
  intros Hfiles. cbv zeta.
  pose proof (run_around E w l1 md l2 Hfiles) as H. cbv zeta in H.
  rewrite main_world, ?md_files_with_root, ?src_with_root.
  destruct H as (<- & Hmd1 & Hds1 & HmdF & HdsF).
  assert (Hin : md ∈ md_files w).
  { rewrite Hfiles. apply elem_of_app. right. left. }
  apply elem_of_md_files in Hin as (Hsome & Hext & Hpre).
  destruct (main_loop E l1 (0, 0, w)) as [[s1 f1] w1]. cbn [fst snd] in *.
  split; [|split].
  - intros Hc. destruct (main_iter_completes E md s1 f1 w1 Hc) as (w2 & Hit & Hgone & Hmoved).
    rewrite Hit in *. cbn [fst snd] in *.
    rewrite HmdF, HdsF, Hgone, Hmoved, Hmd1.
    split; [reflexivity|]. split; [reflexivity|].
    intros Hscan. apply elem_of_md_files in Hscan as ([x Hx] & _).
    discriminate (eq_trans (eq_sym Hx) (eq_trans HmdF Hgone)).
  - intros Hn. destruct (main_iter_fails E md s1 f1 w1 Hn) as (s' & w' & Hit & Hkept).
    rewrite Hit in *. cbn [fst snd] in *.
    rewrite HmdF, Hkept, Hmd1. split; [reflexivity|].
    apply elem_of_md_files. split; [|auto].
    destruct Hsome as [x Hx]. exists x.
    exact (eq_trans HmdF (eq_trans Hkept (eq_trans Hmd1 Hx))).
  - intros p Hp. now apply elem_of_md_files in Hp.
Qed.

Lemma marker_resumability_witness :
  let w := sample_world 100 two_files_tree in
  let wF := (main _ w).2 in
  md_files w = [b_md] ++ a_md :: []
  /\ md_files w = [] ++ b_md :: [a_md]
  /\ (src wF !! a_md = None /\ src wF !! ds_path a_md = src w !! a_md
      /\ a_md ∉ md_files wF)
  /\ (src wF !! b_md = src w !! b_md /\ b_md ∈ md_files wF).
Proof.
  intros w wF.
  assert (Ha : md_files w = [b_md] ++ a_md :: []) by (vm_compute; reflexivity).
  assert (Hb : md_files w = [] ++ b_md :: [a_md]) by (vm_compute; reflexivity).
  split; [exact Ha|]. split; [exact Hb|]. split.
  - apply (marker_resumability _ w [b_md] a_md [] Ha).
    exists (process_one _ a_md (main_loop _ [b_md] (0, 0, w)).2).2,
           (mark a_md (process_one _ a_md (main_loop _ [b_md] (0, 0, w)).2).2).2.
    split; apply result_of_fst; vm_compute; reflexivity.
  - apply (marker_resumability _ w [] b_md [a_md] Hb).
    assert (Hfail : (process_one _ b_md (main_loop _ [] (0, 0, w)).2).1
                    = Raise UnicodeDecodeError) by (vm_compute; reflexivity).
    intros (w1 & w2 & Hp & _). apply (f_equal fst) in Hp.
    rewrite Hfail in Hp. discriminate Hp.
Defined.

(** ** Malformed front matter *)

(** Without the opening line, or without a closing line, the front matter
    is the empty mapping and the body is the whole text. *)
Lemma split_front_matter_absent (E : env) text :
  startswith (py "---\n") text = false \/ py_find (py "\n---") text 4 = -1 ->
  split_front_matter E text = Ok (YMap [], text).
Proof.
  intros [H|H]; unfold split_front_matter; rewrite H; [reflexivity|].
  destruct (startswith (py "---\n") text); reflexivity.
Qed.

(** A block that loads as an empty or false value gives the empty mapping. *)
Lemma split_front_matter_falsy (E : env) text v :
  startswith (py "---\n") text = true ->
  py_find (py "\n---") text 4 <> -1 ->
  safe_load E (py_slice text 4 (py_find (py "\n---") text 4)) = Ok v ->
  py_truthy v = false ->
  exists body, split_front_matter E text = Ok (YMap [], body).
Proof.
  intros Hs Hf Hl Hv. unfold split_front_matter. rewrite Hs.
  destruct (Z.eqb_spec (py_find (py "\n---") text 4) (-1)); [contradiction|].
  simpl. rewrite Hl. simpl. rewrite Hv. eauto.
Qed.

(** C6, counterexample. The block [title: [] between the two [---] lines
    is not YAML; the loader raises and so does [split_front_matter]. *)
Lemma malformed_front_matter_counterexample :
  startswith (py "---\n") malformed_text = true
  /\ py_find (py "\n---") malformed_text 4 = 12
  /\ py_slice malformed_text 4 12 = py "title: ["
  /\ safe_load (sample_env (py "AI, 芯片")) (py "title: [") = Raise YAMLError
  /\ split_front_matter (sample_env (py "AI, 芯片")) malformed_text = Raise YAMLError.
Proof. repeat split; vm_compute; reflexivity. Qed.

(** The document fails before any request is made and before anything is
    written: the directories for the output have been made, the text has
    been read, and the loader's exception ends [process_one]. *)
Lemma process_one_malformed (E : env) (w : world E) (md : path) (text : pystr) (e : exn) :
  src w !! md = Some (Text text) ->
  split_front_matter E text = Raise e ->
  process_one E md w
  = (Raise (match blocked (dst w) [] md.1 with Some e' => e' | None => e end),
     (mkdir_parents md.1 w).2).
Proof.
  intros Hsrc Hsplit. unfold process_one. cbv zeta.
  destruct (mkdir_parents_cases md.1 w) as [(e' & Hb & He)|(Hb & w1 & Hw1 & _ & Hs & _)];
    rewrite Hb.
  - rewrite He. now apply M_bind_Raise.
  - rewrite Hw1. erewrite M_bind_Ok by exact Hw1.
    erewrite M_bind_Ok by (unfold read_text; rewrite Hs, Hsrc; reflexivity).
    erewrite M_bind_Raise by (unfold lift; rewrite Hsplit; reflexivity).
    reflexivity.
Qed.

(** C6, amended. [split_front_matter] returns the empty mapping when the
    text has no opening or no closing [---] line, and when the block
    loads as an empty or false value. When the text has both lines and
    the loader raises on the block between them, [split_front_matter]
    raises the same exception; [process_one] raises as well (this
    exception, unless making the directories for the output has raised
    before), having made no request, written no document and left the
    source tree as it was: the world differs by the directories made for
    the output at most. The loop counts one failure for the document and
    goes on with the remaining documents. *)
Theorem malformed_front_matter_fails_document (E : env) (w : world E) (md : path)
    (text : pystr) (success fail : Z) (rest : list path) :
  let block := py_slice text 4 (py_find (py "\n---") text 4) in
  (startswith (py "---\n") text = false \/ py_find (py "\n---") text 4 = -1 ->
     split_front_matter E text = Ok (YMap [], text))
  /\ (forall v,
        startswith (py "---\n") text = true ->
        py_find (py "\n---") text 4 <> -1 ->
        safe_load E block = Ok v ->
        py_truthy v = false ->
        exists body, split_front_matter E text = Ok (YMap [], body))
  /\ (forall e,
        startswith (py "---\n") text = true ->
        py_find (py "\n---") text 4 <> -1 ->
        safe_load E block = Raise e ->
        split_front_matter E text = Raise e
        /\ (src w !! md = Some (Text text) ->
            let w' := (mkdir_parents md.1 w).2 in
            process_one E md w
            = (Raise (match blocked (dst w) [] md.1 with Some e' => e' | None => e end), w')
            /\ service w' = service w /\ src w' = src w /\ dst w' = dst w
            /\ (forall d, d ∈ dst_dirs w' -> d ∈ dst_dirs w \/ d `prefix_of` md.1)
            /\ main_loop E (md :: rest) (success, fail, w)
               = main_loop E rest (success, fail + 1, w'))).
Proof.
  cbv zeta. split; [|split].
  - apply split_front_matter_absent.
  - intros v Hs Hf Hl Hv. exact (split_front_matter_falsy E text v Hs Hf Hl Hv).
  - intros e Hs Hf Hl.
    assert (Hsplit : split_front_matter E text = Raise e).
    { unfold split_front_matter. rewrite Hs.
      destruct (Z.eqb_spec (py_find (py "\n---") text 4) (-1)); [contradiction|].
      simpl. rewrite Hl. reflexivity. }
    split; [exact Hsplit|]. intros Hsrc.
    pose proof (process_one_malformed E w md text e Hsrc Hsplit) as Hproc.
    split; [exact Hproc|].
    destruct (mkdir_parents_cases md.1 w)
      as [(e' & Hb & He)|(Hb & w1 & Hw1 & Hsv & Hsr & Hds & Hdd)].
    + rewrite He. cbn [snd]. repeat split; auto.
      rewrite main_loop_cons. unfold main_iter. rewrite Hproc, He. reflexivity.
    + rewrite Hw1. cbn [snd]. repeat split; auto.
      * intros d Hd. rewrite Hdd in Hd. apply elem_of_union in Hd as [Hd|Hd]; [now left|].
        right. now apply elem_of_list_to_set, elem_of_ancestors in Hd.
      * rewrite main_loop_cons. unfold main_iter. rewrite Hproc, Hw1. reflexivity.
Qed.

Lemma malformed_front_matter_fails_document_witness :
  let E := sample_env (py "AI, 芯片") in
  let w := sample_world 100 malformed_tree in
  let w' := (mkdir_parents a_md.1 w).2 in
  split_front_matter E (py "no front matter\n") = Ok (YMap [], py "no front matter\n")
  /\ (exists body, split_front_matter E (py "---\n\n---\nbody\n") = Ok (YMap [], body))
  /\ split_front_matter E malformed_text = Raise YAMLError
  /\ process_one E a_md w = (Raise YAMLError, w')
  /\ service w' = service w /\ src w' = src w /\ dst w' = dst w
  /\ main_loop E [a_md; b_md] (0, 0, w) = main_loop E [b_md] (0, 0 + 1, w')
  /\ (main_loop E [a_md; b_md] (0, 0, w)).1 = (1, 1).
Proof.
  intros E w w'.
  pose proof (malformed_front_matter_fails_document E w a_md (py "no front matter\n")
                0 0 [b_md]) as (Hnone & _ & _).
  pose proof (malformed_front_matter_fails_document E w a_md (py "---\n\n---\nbody\n")
                0 0 [b_md]) as (_ & Hfalsy & _).
  pose proof (malformed_front_matter_fails_document E w a_md malformed_text
                0 0 [b_md]) as (_ & _ & Hbad).
  assert (H1 : src w !! a_md = Some (Text malformed_text)) by (vm_compute; reflexivity).
  assert (H2 : startswith (py "---\n") malformed_text = true) by (vm_compute; reflexivity).
  assert (H3 : py_find (py "\n---") malformed_text 4 <> -1) by (vm_compute; discriminate).
  assert (H4 : safe_load E
                 (py_slice malformed_text 4 (py_find (py "\n---") malformed_text 4))
               = Raise YAMLError) by (vm_compute; reflexivity).
  destruct (Hbad YAMLError H2 H3 H4) as (Hsplit & Hrun).
  destruct (Hrun H1) as (Hproc & Hsv & Hsr & Hds & _ & Hloop).
  split; [apply Hnone; left; vm_compute; reflexivity|].
  split.
  { apply (Hfalsy (YMap [])).
    - vm_compute; reflexivity.
    - vm_compute; discriminate.
    - vm_compute; reflexivity.
    - reflexivity. }
  split; [exact Hsplit|]. split; [exact Hproc|].
  split; [exact Hsv|]. split; [exact Hsr|]. split; [exact Hds|].
  split; [exact Hloop|].
  vm_compute. reflexivity.
Defined.

(** ** Double counting *)

(** C10. When [process_one] returns for [md] and the marking step raises,
    the turn of [md] adds one to [success] and one to [fail]; the file is
    where it was, under its name, and in the scan of the tree after the
    run; and the sum of the two counters printed in the last line exceeds
    the total. *)
Theorem marking_failure_counted_twice (E : env) (w : world E) (l1 : list path)
    (md : path) (l2 : list path) (w1 w2 : world E) (e : exn) :
  md_files w = l1 ++ md :: l2 ->
  let st1 := main_loop E l1 (0, 0, w) in
  process_one E md st1.2 = (Ok tt, w1) ->
  mark md w1 = (Raise e, w2) ->
  main_iter E md st1 = (st1.1.1 + 1, st1.1.2 + 1, w2)
  /\ (let '(total, success, fail, wF) := main E w in
      total < success + fail
      /\ src wF !! md = src w !! md
      /\ md ∈ md_files wF).
Proof.
  intros Hfiles st1 Hp Hm.
  pose proof (run_around E w l1 md l2 Hfiles) as H. cbv zeta in H. fold st1 in H.
  destruct H as (HF & Hmd1 & _ & HmdF & _).
  assert (Hin : md ∈ md_files w).
  { rewrite Hfiles. apply elem_of_app. right. left. }
  apply elem_of_md_files in Hin as ([x Hx] & Hext & Hpre).
  pose proof (main_loop_counts E l1 (0, 0, w)) as Hc1. fold st1 in Hc1.
  assert (Hit : main_iter E md st1 = (st1.1.1 + 1, st1.1.2 + 1, w2)).
  { destruct st1 as [[s1 f1] w0]. unfold main_iter. cbn [fst snd] in *.
    now rewrite Hp, Hm. }
  split; [exact Hit|].
  pose proof (main_loop_counts E l2 (main_iter E md st1)) as Hc2.
  rewrite Hit in HF, HmdF, Hc2. cbn [fst snd] in HmdF, Hc2.
  assert (Hkept : src w2 !! md = src w !! md).
  { rewrite (mark_raise md w1 w2 e Hm).
    rewrite (process_one_src E md _ _ _ Hp). exact Hmd1. }
  rewrite main_run, <- HF.
  destruct (main_loop E l2 (st1.1.1 + 1, st1.1.2 + 1, w2)) as [[s f] wF].
  cbn [fst snd] in *. rewrite md_files_with_root, src_with_root. split; [|split].
  - rewrite Hfiles, len_app. unfold len in *. simpl length in *. lia.
  - exact (eq_trans HmdF Hkept).
  - apply elem_of_md_files. split; [|auto]. exists x.
    exact (eq_trans HmdF (eq_trans Hkept Hx)).
Qed.

Lemma marking_failure_counted_twice_witness :
  let E := sample_env (py "AI, 芯片") in
  let w := sample_world 100 stale_directory_tree in
  let w1 := (process_one E a_md (main_loop E [] (0, 0, w)).2).2 in
  let w2 := (mark a_md w1).2 in
  md_files w = [] ++ a_md :: []
  /\ process_one E a_md (main_loop E [] (0, 0, w)).2 = (Ok tt, w1)
  /\ mark a_md w1 = (Raise IsADirectoryError, w2)
  /\ (main E w).1 = (1, 1, 1)
  /\ (let '(total, success, fail, wF) := main E w in
      total < success + fail
      /\ src wF !! a_md = src w !! a_md
      /\ a_md ∈ md_files wF).
Proof.
  intros E w w1 w2.
  assert (Hf : md_files w = [] ++ a_md :: []) by (vm_compute; reflexivity).
  assert (Hp : process_one E a_md (main_loop E [] (0, 0, w)).2 = (Ok tt, w1))
    by (apply result_of_fst; vm_compute; reflexivity).
  assert (Hm : mark a_md w1 = (Raise IsADirectoryError, w2))
    by (apply result_of_fst; vm_compute; reflexivity).
  split; [exact Hf|]. split; [exact Hp|]. split; [exact Hm|].
  split; [vm_compute; reflexivity|].
  pose proof (marking_failure_counted_twice E w [] a_md [] w1 w2 IsADirectoryError
                Hf Hp Hm) as [_ H].
  exact H.
Defined.

(** ** Segmenter: the shape of the sections *)

Lemma splitlines_from_nonempty s :
  forall cur, Forall (fun ln => ln <> []) (splitlines_from cur s).
Proof.
  remember (length s) as n eqn:Hn.
  revert s Hn. induction n as [n IH] using lt_wf_ind. intros s Hn cur.
  assert (Hrev : forall c l, rev (c :: l) <> ([] : pystr)).
  { intros c l H. apply (f_equal (@length N)) in H.
    rewrite length_rev in H. discriminate H. }
  destruct s as [|c s'].
  - destruct cur; simpl; [constructor|]. constructor; [apply (Hrev n0 cur)|constructor].
  - rewrite splitlines_from_cons. simpl in Hn.
    assert (Hs' : forall cur', Forall (fun ln => ln <> []) (splitlines_from cur' s'))
      by (intros; apply (IH (length s')); [lia | reflexivity]).
    destruct (c =? CR)%N; [destruct s' as [|c' s'']; [|destruct (c' =? LF)%N]|
                          destruct (is_linebreak c)];
      repeat (constructor; try apply Hrev); try apply Hs'.
    apply (IH (length s'')); [simpl in Hn; lia | reflexivity].
Qed.

Lemma section_loop_groups lines :
  forall gs b sections' buf',
    (b = [] -> gs = []) ->
    Forall section_group gs -> (b <> [] -> section_group b) ->
    Forall headed (tail (gs ++ [b])) ->
    section_loop lines (map (@concat N) gs) b = (sections', buf') ->
    exists gs',
      sections' = map (@concat N) gs'
      /\ concat gs' ++ buf' = concat gs ++ b ++ lines
      /\ (buf' = [] -> b = [] /\ lines = [] /\ gs' = [])
      /\ Forall section_group gs' /\ (buf' <> [] -> section_group buf')
      /\ Forall headed (tail (gs' ++ [buf'])).
Proof.
  induction lines as [|ln rest IH]; intros gs b sections' buf' Hb Hgs Hgb Hhd H; simpl in H.
  - injection H as <- <-. exists gs. rewrite app_nil_r.
    split; [reflexivity|]. split; [reflexivity|]. split; [|auto].
    intros E. split; [exact E|]. split; [reflexivity | auto].
  - destruct (_HDR_RE_match ln && nonempty b) eqn:Hc.
    + apply andb_true_iff in Hc as [Hln Hne].
      assert (Hbne : b <> []) by (intros ->; discriminate).
      replace (map (@concat N) gs ++ [concat b]) with (map (@concat N) (gs ++ [b])) in H
        by (rewrite map_app; reflexivity).
      apply IH in H.
      * destruct H as (gs' & -> & Hcat & He & Hg' & Hb' & Hh').
        exists gs'. split; [reflexivity|]. split.
        { rewrite Hcat, concat_app. simpl. rewrite app_nil_r, <- !app_assoc. reflexivity. }
        split; [|auto].
        intros E. destruct (He E) as [Hcontra _]. destruct b; discriminate.
      * discriminate.
      * apply Forall_app. auto.
      * intros _. split; [discriminate | constructor].
      * destruct gs as [|g gs]; simpl in *.
        -- constructor; [exact Hln | constructor].
        -- rewrite <- app_assoc. simpl.
           apply Forall_app in Hhd as [Hh1 Hh2]. apply Forall_app. split; [exact Hh1|].
           constructor; [|constructor; [exact Hln|constructor]].
           now inversion Hh2.
    + apply IH in H.
      * destruct H as (gs' & -> & Hcat & He & Hg' & Hb' & Hh').
        exists gs'. split; [reflexivity|]. split.
        { rewrite Hcat, <- !app_assoc. reflexivity. }
        split; [|auto].
        intros E. destruct (He E) as [Hcontra _]. destruct b; discriminate.
      * intros E. destruct b; discriminate.
      * exact Hgs.
      * intros _. destruct b as [|l0 b].
        -- split; [discriminate | constructor].
        -- destruct (Hgb ltac:(discriminate)) as [_ Ht]. split; [discriminate|].
           simpl in *. apply Forall_app. split; [exact Ht|].
           constructor; [|constructor]. now rewrite andb_true_r in Hc.
      * destruct b as [|l0 b].
        -- rewrite (Hb eq_refl). constructor.
        -- destruct gs as [|g gs]; simpl in *; [constructor|].
           apply Forall_app in Hhd as [Hh1 Hh2]. apply Forall_app. split; [exact Hh1|].
           constructor; [|constructor]. now inversion Hh2.
Qed.

(** The sections are the lines of the body, grouped. *)
Lemma sections_grouped (md : pystr) :
  exists groups : list (list pystr),
    sections_of md = map (@concat N) groups
    /\ concat groups = splitlines md
    /\ Forall section_group groups
    /\ Forall headed (tail groups)
    /\ Forall (fun s => s <> []) (sections_of md).
Proof.
  unfold sections_of.
  destruct (section_loop (splitlines md) [] []) as [sections buf] eqn:H.
  apply (section_loop_groups _ [] []) in H;
    [|reflexivity|constructor|intros Hf; now contradiction Hf|constructor].
  destruct H as (gs & -> & Hcat & He & Hg & Hb & Hh). simpl in Hcat.
  assert (Hne : forall groups, Forall section_group groups ->
              concat groups = splitlines md ->
              Forall (fun s => s <> []) (map (@concat N) groups)).
  { intros groups Hgr Hc.
    pose proof (splitlines_from_nonempty md []) as Hl. fold (splitlines md) in Hl.
    rewrite <- Hc in Hl. clear Hc.
    induction Hgr as [|g groups [Hgne _] _ IH]; [constructor|].
    simpl in Hl. apply Forall_app in Hl as [Hl1 Hl2].
    simpl. constructor; [|now apply IH].
    destruct g as [|ln g]; [contradiction|]. simpl.
    inversion Hl1; subst. destruct ln; [contradiction | discriminate]. }
  destruct buf as [|l0 buf]; simpl.
  - destruct (He eq_refl) as (_ & Hl & ->). exists []. rewrite Hl.
    split; [reflexivity|]. split; [reflexivity|]. repeat split; constructor.
  - assert (Hall : concat (gs ++ [l0 :: buf]) = splitlines md).
    { rewrite concat_app. simpl. rewrite app_nil_r. exact Hcat. }
    assert (Hsg : Forall section_group (gs ++ [l0 :: buf])).
    { apply Forall_app. split; [exact Hg|]. constructor; [|constructor].
      apply Hb. discriminate. }
    exists (gs ++ [l0 :: buf]). rewrite map_app. simpl map.
    split; [reflexivity|]. split; [exact Hall|]. split; [exact Hsg|].
    split; [exact Hh|].
    replace (map (@concat N) gs ++ [l0 ++ concat buf])
      with (map (@concat N) (gs ++ [l0 :: buf])) by (rewrite map_app; reflexivity).
    now apply Hne.
Qed.

Lemma sections_of_nonempty (md : pystr) : Forall (fun s => s <> []) (sections_of md).
Proof. now destruct (sections_grouped md) as (_ & _ & _ & _ & _ & H). Qed.

(** X1. The sections are the lines of the body grouped in order: every
    group is non-empty, no line after the first of a group is a heading,
    every group after the first starts with a heading, and no section is
    the empty string. *)
Theorem sections_structure (md : pystr) :
  exists groups : list (list pystr),
    sections_of md = map (@concat N) groups
    /\ concat groups = splitlines md
    /\ Forall section_group groups
    /\ Forall headed (tail groups)
    /\ Forall (fun s => s <> []) (sections_of md).
Proof. exact (sections_grouped md). Qed.

(** ** Segmenter: what the windows hold *)

Lemma lookup_map_seq {B} (f : nat -> B) n k :
  (k < n)%nat -> map f (seq 0 n) !! k = Some (f k).
Proof.
  intros H. change (map f (seq 0 n)) with (f <$> seq 0 n).
  rewrite list_lookup_fmap, lookup_seq_lt by assumption. reflexivity.
Qed.

(** The number of windows that [range] gives over [n] items. *)
Lemma window_count_spec n s k :
  0 <= n -> 0 < s ->
  ((k < Z.to_nat ((n + s - 1) / s))%nat <-> Z.of_nat k * s < n).
Proof.
  intros Hn Hs.
  assert (Hq : 0 <= (n + s - 1) / s) by (apply Z.div_pos; lia).
  pose proof (Z.mul_succ_div_gt (n + s - 1) s Hs) as Hgt.
  pose proof (Z.mul_div_le (n + s - 1) s Hs) as Hle.
  split; intros H; [|apply Nat2Z.inj_lt; rewrite Z2Nat.id by assumption]; nia.
Qed.

Lemma py_slice_lookup {A} (l : list A) lo w (j : nat) x :
  0 <= lo -> lo <= Z.of_nat j < lo + w ->
  l !! j = Some x ->
  py_slice l lo (lo + w) !! (j - Z.to_nat lo)%nat = Some x.
Proof.
  intros Hlo Hj Hx. pose proof (lookup_lt_Some _ _ _ Hx) as Hlt.
  rewrite py_slice_nonneg by lia. unfold len.
  rewrite lookup_take_lt by lia. rewrite lookup_drop.
  replace (Z.to_nat (Z.min lo (Z.of_nat (length l))) + (j - Z.to_nat lo))%nat with j by lia.
  exact Hx.
Qed.

(** X2. With a tokenizer and an overlap from zero to below the budget, no
    token of a section over the budget is left out: the token at any
    position is in the window that starts at the last multiple of the
    stride not after it, and this window is decoded into a chunk. *)
Theorem exact_mode_coverage (e : tokenizer) (cfg : config) (seg : pystr)
    (j : nat) (tok : N) :
  0 <= CHUNK_OVERLAP cfg < CHUNK_TOKENS cfg ->
  CHUNK_TOKENS cfg < _token_len (Some e) seg ->
  encode e seg !! j = Some tok ->
  exists out k w,
    chunk_loop (Some e) cfg [seg] [] = Ok out
    /\ out !! k = Some (decode e w)
    /\ w = py_slice (encode e seg) (Z.of_nat k * stride cfg)
                    (Z.of_nat k * stride cfg + CHUNK_TOKENS cfg)
    /\ Z.of_nat k * stride cfg <= Z.of_nat j < Z.of_nat k * stride cfg + stride cfg
    /\ w !! (j - Z.to_nat (Z.of_nat k * stride cfg))%nat = Some tok.
Proof.
  intros HO Hover Hj.
  assert (Hs : 0 < stride cfg) by (unfold stride; lia).
  pose proof (lookup_lt_Some _ _ _ Hj) as Hlt.
  set (k := Z.to_nat (Z.of_nat j / stride cfg)).
  assert (Hk : Z.of_nat k = Z.of_nat j / stride cfg).
  { unfold k. rewrite Z2Nat.id; [reflexivity | apply Z.div_pos; lia]. }
  pose proof (Z.mul_div_le (Z.of_nat j) (stride cfg) Hs) as Hle.
  pose proof (Z.mul_succ_div_gt (Z.of_nat j) (stride cfg) Hs) as Hgt.
  assert (Hwin : Z.of_nat k * stride cfg <= Z.of_nat j
                 < Z.of_nat k * stride cfg + stride cfg) by (rewrite Hk; lia).
  eexists _, k, (py_slice (encode e seg) (Z.of_nat k * stride cfg)
                   (Z.of_nat k * stride cfg + CHUNK_TOKENS cfg)).
  split; [apply exact_mode_windows; assumption|].
  split; [|split; [reflexivity|split; [exact Hwin|]]].
  - apply (lookup_map_seq
             (fun k => decode e (py_slice (encode e seg) (Z.of_nat k * stride cfg)
                                   (Z.of_nat k * stride cfg + CHUNK_TOKENS cfg)))).
    apply window_count_spec; [apply len_nonneg | assumption|].
    unfold len. lia.
  - apply py_slice_lookup; [lia | unfold stride in *; lia | exact Hj].
Qed.

Lemma exact_mode_coverage_witness :
  let cfg := small_config 4 1 in
  0 <= CHUNK_OVERLAP cfg < CHUNK_TOKENS cfg
  /\ CHUNK_TOKENS cfg < _token_len (Some char_tokenizer) (py "abcdefghij")
  /\ encode char_tokenizer (py "abcdefghij") !! 7%nat = Some 104%N
  /\ exists out k w,
       chunk_loop (Some char_tokenizer) cfg [py "abcdefghij"] [] = Ok out
       /\ out !! k = Some (decode char_tokenizer w)
       /\ w = py_slice (encode char_tokenizer (py "abcdefghij"))
                (Z.of_nat k * stride cfg) (Z.of_nat k * stride cfg + CHUNK_TOKENS cfg)
       /\ Z.of_nat k * stride cfg <= Z.of_nat 7 < Z.of_nat k * stride cfg + stride cfg
       /\ w !! (7 - Z.to_nat (Z.of_nat k * stride cfg))%nat = Some 104%N.
Proof.
  intros cfg.
  assert (H1 : 0 <= CHUNK_OVERLAP cfg < CHUNK_TOKENS cfg) by (vm_compute; split; congruence).
  assert (H2 : CHUNK_TOKENS cfg < _token_len (Some char_tokenizer) (py "abcdefghij"))
    by (vm_compute; reflexivity).
  assert (H3 : encode char_tokenizer (py "abcdefghij") !! 7%nat = Some 104%N)
    by (vm_compute; reflexivity).
  split; [exact H1|]. split; [exact H2|]. split; [exact H3|].
  exact (exact_mode_coverage char_tokenizer cfg (py "abcdefghij") 7 104%N H1 H2 H3).
Defined.

(** X3. With a tokenizer and an overlap above zero and below the budget, a
    window that is full is followed by another window, and its last
    [CHUNK_OVERLAP] tokens are the first [CHUNK_OVERLAP] tokens of that
    window. *)
Theorem exact_mode_overlap (e : tokenizer) (cfg : config) (seg : pystr) (k : nat) :
  0 < CHUNK_OVERLAP cfg < CHUNK_TOKENS cfg ->
  Z.of_nat k * stride cfg + CHUNK_TOKENS cfg <= len (encode e seg) ->
  CHUNK_TOKENS cfg < _token_len (Some e) seg ->
  exists out w1 w2,
    chunk_loop (Some e) cfg [seg] [] = Ok out
    /\ out !! k = Some (decode e w1)
    /\ out !! S k = Some (decode e w2)
    /\ w1 = py_slice (encode e seg) (Z.of_nat k * stride cfg)
                     (Z.of_nat k * stride cfg + CHUNK_TOKENS cfg)
    /\ w2 = py_slice (encode e seg) (Z.of_nat (S k) * stride cfg)
                     (Z.of_nat (S k) * stride cfg + CHUNK_TOKENS cfg)
    /\ len w1 = CHUNK_TOKENS cfg
    /\ py_slice w1 (stride cfg) (CHUNK_TOKENS cfg) = py_slice w2 0 (CHUNK_OVERLAP cfg)
    /\ len (py_slice w2 0 (CHUNK_OVERLAP cfg)) = CHUNK_OVERLAP cfg.
Proof.
  intros HO Hfull Hover.
  assert (Hs : 0 < stride cfg) by (unfold stride; lia).
  assert (Hk : 0 <= Z.of_nat k * stride cfg) by nia.
  set (win := fun k : nat => py_slice (encode e seg) (Z.of_nat k * stride cfg)
                                (Z.of_nat k * stride cfg + CHUNK_TOKENS cfg)).
  eexists _, (win k), (win (S k)).
  split; [apply exact_mode_windows; assumption|].
  split; [|split; [|split; [reflexivity|split; [reflexivity|]]]].
  - apply (lookup_map_seq (fun k => decode e (win k))).
    apply window_count_spec; [apply len_nonneg | assumption|].
    unfold stride in *. lia.
  - apply (lookup_map_seq (fun k => decode e (win k))).
    apply window_count_spec; [apply len_nonneg | assumption|].
    unfold stride in *. lia.
  - unfold win.
    replace (Z.of_nat (S k) * stride cfg)
      with (Z.of_nat k * stride cfg + (CHUNK_TOKENS cfg - CHUNK_OVERLAP cfg))
      by (unfold stride; lia).
    apply (windows_overlap (encode e seg) (CHUNK_TOKENS cfg) (CHUNK_OVERLAP cfg));
      lia.
Qed.

Lemma exact_mode_overlap_witness :
  let cfg := small_config 4 1 in
  0 < CHUNK_OVERLAP cfg < CHUNK_TOKENS cfg
  /\ Z.of_nat 1 * stride cfg + CHUNK_TOKENS cfg <= len (encode char_tokenizer (py "abcdefghij"))
  /\ CHUNK_TOKENS cfg < _token_len (Some char_tokenizer) (py "abcdefghij")
  /\ chunk_loop (Some char_tokenizer) cfg [py "abcdefghij"] []
     = Ok [py "abcd"; py "defg"; py "ghij"; py "j"]
  /\ exists out w1 w2,
       chunk_loop (Some char_tokenizer) cfg [py "abcdefghij"] [] = Ok out
       /\ out !! 1%nat = Some (decode char_tokenizer w1)
       /\ out !! 2%nat = Some (decode char_tokenizer w2)
       /\ w1 = py_slice (encode char_tokenizer (py "abcdefghij")) (Z.of_nat 1 * stride cfg)
                 (Z.of_nat 1 * stride cfg + CHUNK_TOKENS cfg)
       /\ w2 = py_slice (encode char_tokenizer (py "abcdefghij")) (Z.of_nat 2 * stride cfg)
                 (Z.of_nat 2 * stride cfg + CHUNK_TOKENS cfg)
       /\ len w1 = CHUNK_TOKENS cfg
       /\ py_slice w1 (stride cfg) (CHUNK_TOKENS cfg) = py_slice w2 0 (CHUNK_OVERLAP cfg)
       /\ len (py_slice w2 0 (CHUNK_OVERLAP cfg)) = CHUNK_OVERLAP cfg.
Proof.
  intros cfg.
  assert (H1 : 0 < CHUNK_OVERLAP cfg < CHUNK_TOKENS cfg) by (vm_compute; split; congruence).
  assert (H2 : Z.of_nat 1 * stride cfg + CHUNK_TOKENS cfg
               <= len (encode char_tokenizer (py "abcdefghij")))
    by (vm_compute; congruence).
  assert (H3 : CHUNK_TOKENS cfg < _token_len (Some char_tokenizer) (py "abcdefghij"))
    by (vm_compute; reflexivity).
  split; [exact H1|]. split; [exact H2|]. split; [exact H3|].
  split; [vm_compute; reflexivity|].
  exact (exact_mode_overlap char_tokenizer cfg (py "abcdefghij") 1 H1 H2 H3).
Defined.

(** ** Segmenter: the chunks without a tokenizer *)

Lemma py_slice_nonempty {A} (l : list A) i w :
  0 <= i < len l -> 0 < w -> py_slice l i (i + w) <> [].
Proof.
  intros Hi Hw E. apply (f_equal (@length A)) in E.
  rewrite py_slice_nonneg in E by lia. unfold len in *.
  rewrite length_take, length_drop in E. simpl in E. lia.
Qed.

Lemma fallback_chunks_nonempty (cfg : config) secs :
  0 < stride cfg ->
  Forall (fun s => s <> []) secs ->
  forall out out',
    Forall (fun c => c <> []) out ->
    chunk_loop None cfg secs out = Ok out' ->
    Forall (fun c => c <> []) out'.
Proof.
  intros Hs Hsecs. induction Hsecs as [|seg rest Hseg _ IH]; intros out out' Hout H;
    simpl in H.
  - now injection H as <-.
  - destruct (len seg <=? CHUNK_TOKENS cfg).
    + apply IH in H; [assumption|]. apply Forall_app. split; [assumption|].
      constructor; [assumption | constructor].
    + unfold stride in Hs. rewrite py_range_pos in H by lia. simpl in H.
      apply IH in H; [assumption|]. apply Forall_app. split; [assumption|].
      rewrite map_map. apply List.Forall_forall. intros c Hc.
      apply in_map_iff in Hc as (k & <- & Hk). apply in_seq in Hk as [_ Hk].
      simpl in Hk. apply window_count_spec in Hk; [|apply len_nonneg|lia].
      apply py_slice_nonempty; [|lia]. unfold len in *. nia.
Qed.

(** X4. Without a tokenizer and with a positive stride, segmentation
    returns, the chunks joined in order are exactly the body, and no chunk
    is empty; so there is no chunk exactly when the body is empty. *)
Theorem fallback_chunks_partition (cfg : config) (md : pystr) :
  0 < stride cfg ->
  exists out,
    _split_markdown None cfg md = Ok out
    /\ concat out = md
    /\ Forall (fun c => c <> []) out
    /\ (out = [] <-> md = []).
Proof.
  intros Hs. destruct (chunk_loop_total None cfg (sections_of md) Hs []) as [out H].
  exists out. fold (_split_markdown None cfg md) in H.
  assert (Hcat : concat out = md).
  { unfold _split_markdown in H. apply (fallback_chunks_tile cfg _ Hs) in H.
    rewrite H. simpl. apply sections_of_concat. }
  assert (Hne : Forall (fun c => c <> []) out).
  { unfold _split_markdown in H.
    apply (fallback_chunks_nonempty cfg _ Hs (sections_of_nonempty md) [] out);
      [constructor | exact H]. }
  split; [exact H|]. split; [exact Hcat|]. split; [exact Hne|].
  split.
  - intros ->. now rewrite <- Hcat.
  - intros ->. destruct out as [|c out]; [reflexivity|].
    inversion Hne; subst. simpl in Hcat. apply app_eq_nil in Hcat as [? _]. contradiction.
Qed.

Lemma fallback_chunks_partition_witness :
  0 < stride default_config
  /\ exists out,
       _split_markdown None default_config (py "intro\n# A\ntext\n") = Ok out
       /\ concat out = py "intro\n# A\ntext\n"
       /\ Forall (fun c => c <> []) out
       /\ (out = [] <-> py "intro\n# A\ntext\n" = []).
Proof.
  assert (H : 0 < stride default_config) by reflexivity.
  split; [exact H|]. exact (fallback_chunks_partition default_config _ H).
Defined.

(** ** Front-matter splitter: the delimiters *)

Lemma startswith_spec p s : startswith p s = true <-> exists r, s = p ++ r.
Proof.
  revert s. induction p as [|a p IH]; intros s; simpl.
  - split; [eauto | reflexivity].
  - destruct s as [|b s]; [split; [discriminate | intros [r Hr]; discriminate]|].
    rewrite andb_true_iff, IH. split.
    + intros [Hab [r ->]]. apply N.eqb_eq in Hab. subst. now exists r.
    + intros [r Hr]. injection Hr as -> ->. split; [apply N.eqb_refl | eauto].
Qed.

Lemma find_at_nonneg sub s i : 0 <= i -> find_at sub s i = -1 \/ i <= find_at sub s i.
Proof.
  revert i. induction s as [|c s IH]; intros i Hi; simpl.
  - destruct (startswith sub []); [right; lia | now left].
  - destruct (startswith sub (c :: s)); [right; lia|].
    destruct (IH (i + 1)); [lia | now left | right; lia].
Qed.

(** [find_at] returns the first position at which the pattern starts. *)
Lemma find_at_found sub s : forall i (k : nat),
  0 <= i ->
  (forall k', (k' < k)%nat -> startswith sub (drop k' s) = false) ->
  startswith sub (drop k s) = true ->
  find_at sub s i = i + Z.of_nat k.
Proof.
  induction s as [|c s IH]; intros i k Hi Hbefore Hat.
  - rewrite drop_nil in Hat. simpl. rewrite Hat.
    destruct k; [lia|]. specialize (Hbefore 0%nat ltac:(lia)). simpl in Hbefore. congruence.
  - destruct k as [|k].
    + simpl in Hat. cbn [find_at]. rewrite Hat. lia.
    + cbn [find_at]. pose proof (Hbefore 0%nat ltac:(lia)) as H0. simpl in H0.
      rewrite H0. rewrite (IH (i + 1) k); [lia | lia | | exact Hat].
      intros k' Hk'. apply (Hbefore (S k')). lia.
Qed.

Lemma find_at_none sub s i :
  find_at sub s i = -1 -> 0 <= i ->
  forall k, startswith sub (drop k s) = false.
Proof.
  revert i. induction s as [|c s IH]; intros i H Hi k.
  - rewrite drop_nil. simpl in H. destruct (startswith sub []); [lia | reflexivity].
  - simpl in H. destruct (startswith sub (c :: s)) eqn:Hc; [lia|].
    destruct k as [|k]; [exact Hc|]. simpl. apply (IH (i + 1)); [exact H | lia].
Qed.

Lemma find_at_absent sub s i :
  (forall k, startswith sub (drop k s) = false) -> find_at sub s i = -1.
Proof.
  revert i. induction s as [|c s IH]; intros i H; simpl.
  - pose proof (H 0%nat) as H0. simpl in H0. now rewrite H0.
  - pose proof (H 0%nat) as H0. simpl in H0. rewrite H0.
    apply IH. intros k. apply (H (S k)).
Qed.

Lemma closing_mark_straddle (x rest : pystr) :
  x <> [] ->
  startswith [10%N; 45%N; 45%N; 45%N] x = false ->
  startswith [10%N; 45%N; 45%N; 45%N] (x ++ [10%N; 45%N; 45%N; 45%N] ++ rest) = false.
Proof.
  intros Hne Hx. destruct x as [|a [|b [|c [|d x]]]]; [contradiction|..]; simpl in *.
  - now rewrite andb_false_r.
  - now rewrite !andb_false_r.
  - now rewrite !andb_false_r.
  - exact Hx.
Qed.

(** The closing mark cannot start inside a block that does not hold it,
    whatever follows the block after the mark. *)
Lemma closing_mark_not_inside fm rest k :
  no_closing_mark fm -> (k < length fm)%nat ->
  startswith (py "\n---") (drop k (fm ++ py "\n---" ++ rest)) = false.
Proof.
  intros Hno Hk. unfold no_closing_mark, py_find in Hno.
  destruct (Z.ltb_spec (len fm) 0); [pose proof (len_nonneg fm); lia|].
  change (drop (Z.to_nat 0) fm) with fm in Hno.
  pose proof (find_at_none _ _ _ Hno ltac:(lia) k) as Hx.
  rewrite drop_app_le by lia.
  change (py "\n---") with [10%N; 45%N; 45%N; 45%N] in *.
  apply closing_mark_straddle; [|exact Hx].
  intros Hd. apply (f_equal (@length N)) in Hd. rewrite length_drop in Hd. simpl in Hd. lia.
Qed.

Lemma py_slice_to_end {A} (l : list A) lo :
  0 <= lo -> py_slice l lo (len l) = drop (Z.to_nat lo) l.
Proof.
  intros Hlo. pose proof (len_nonneg l). rewrite py_slice_nonneg by lia.
  rewrite Z.min_id. unfold len in *.
  destruct (Z.le_gt_cases lo (Z.of_nat (length l))).
  - rewrite Z.min_l by lia. apply take_ge. rewrite length_drop. lia.
  - rewrite Z.min_r by lia. rewrite !drop_ge by lia. apply take_nil.
Qed.

(** A text made of the opening line, a block without the closing mark,
    the closing mark and a rest is split at that mark. *)
Lemma split_front_matter_delimited (E : env) (fm rest : pystr) :
  no_closing_mark fm ->
  split_front_matter E (py "---\n" ++ fm ++ py "\n---" ++ rest)
  = match safe_load E fm with
    | Ok v => Ok (or_empty_dict v, lstrip_if (fun c => (c =? LF)%N) rest)
    | Raise e => Raise e
    end.
Proof.
  intros Hno. unfold split_front_matter.
  rewrite startswith_app.
  assert (Hfind : py_find (py "\n---") (py "---\n" ++ fm ++ py "\n---" ++ rest) 4
                  = 4 + len fm).
  { unfold py_find. rewrite !len_app.
    pose proof (len_nonneg fm). pose proof (len_nonneg rest).
    change (len (py "---\n")) with 4. change (len (py "\n---")) with 4.
    destruct (Z.ltb_spec (4 + (len fm + (4 + len rest))) 4); [lia|].
    change (Z.to_nat 4) with 4%nat. change (py "---\n") with [45%N; 45%N; 45%N; 10%N].
    cbn [app drop]. rewrite ?drop_0. unfold len.
    apply find_at_found; [lia | |].
    - intros k' Hk'. now apply closing_mark_not_inside.
    - rewrite drop_app_length. apply startswith_app. }
  rewrite Hfind. pose proof (len_nonneg fm).
  destruct (Z.eqb_spec (4 + len fm) (-1)); [lia|]. cbn [negb].
  assert (Hfm : py_slice (py "---\n" ++ fm ++ py "\n---" ++ rest) 4 (4 + len fm) = fm).
  { rewrite py_slice_inside; [|lia|rewrite !len_app; pose proof (len_nonneg rest);
                                  change (len (py "---\n")) with 4;
                                  change (len (py "\n---")) with 4; lia].
    change (Z.to_nat 4) with 4%nat. change (py "---\n") with [45%N; 45%N; 45%N; 10%N].
    cbn [app drop]. replace (Z.to_nat (4 + len fm - 4)) with (length fm) by (unfold len; lia).
    apply take_app_length. }
  assert (Hbody : py_slice (py "---\n" ++ fm ++ py "\n---" ++ rest) (4 + len fm + 4)
                    (len (py "---\n" ++ fm ++ py "\n---" ++ rest)) = rest).
  { rewrite py_slice_to_end by lia.
    replace (Z.to_nat (4 + len fm + 4))
      with (length ((py "---\n" ++ fm) ++ py "\n---"))
      by (rewrite !length_app; change (length (py "---\n")) with 4%nat;
          change (length (py "\n---")) with 4%nat; unfold len; lia).
    rewrite (app_assoc fm), (app_assoc (py "---\n")). apply drop_app_length. }
  rewrite Hfm, Hbody. destruct (safe_load E fm); reflexivity.
Qed.

(** X5. A text that begins with the line [---], continues with a block in
    which the closing mark does not occur, then the mark and a rest, is
    split at that mark: the block goes to the loader, a loaded value that
    is empty or false becomes the empty mapping, the body is the rest
    without its leading line ends, and an exception of the loader is the
    only exception. *)
Theorem split_front_matter_block (E : env) (fm rest : pystr) :
  no_closing_mark fm ->
  split_front_matter E (py "---\n" ++ fm ++ py "\n---" ++ rest)
  = match safe_load E fm with
    | Ok v => Ok (if py_truthy v then v else YMap [],
                  lstrip_if (fun c => (c =? LF)%N) rest)
    | Raise e => Raise e
    end.
Proof. exact (split_front_matter_delimited E fm rest). Qed.

Lemma split_front_matter_block_witness :
  let E := sample_env (py "ok") in
  no_closing_mark (py "title: Hello\nlink: http://example.org/a")
  /\ split_front_matter E sample_text
     = Ok (YMap [(YStr (py "title"), YStr (py "Hello"));
                 (YStr (py "link"), YStr (py "http://example.org/a"))],
           py "intro\n# A\ntext\n").
Proof.
  intros E.
  assert (H : no_closing_mark (py "title: Hello\nlink: http://example.org/a"))
    by (vm_compute; reflexivity).
  split; [exact H|].
  assert (Ht : sample_text
               = py "---\n" ++ py "title: Hello\nlink: http://example.org/a"
                   ++ py "\n---" ++ py "\n\nintro\n# A\ntext\n")
    by (vm_compute; reflexivity).
  rewrite Ht, (split_front_matter_block E _ _ H). vm_compute. reflexivity.
Defined.

Lemma find_at_hit sub s : forall i,
  0 <= i -> find_at sub s i <> -1 ->
  exists k : nat,
    find_at sub s i = i + Z.of_nat k /\ startswith sub (drop k s) = true.
Proof.
  induction s as [|c s IH]; intros i Hi H; simpl in *.
  - destruct (startswith sub []) eqn:Hs; [|contradiction].
    exists 0%nat. split; [lia | exact Hs].
  - destruct (startswith sub (c :: s)) eqn:Hs.
    + exists 0%nat. split; [lia | exact Hs].
    + destruct (IH (i + 1) ltac:(lia) H) as (k & Hk & Hat).
      exists (S k). split; [lia | exact Hat].
Qed.

(** X6. When [split_front_matter] returns, the front matter is the empty
    mapping or a value that counts as true, it is the empty mapping unless
    the text begins with the line [---], and the body is a suffix of the
    text. When it raises, the text has the opening line and a closing
    mark, and the exception is the loader's on the block between them. *)
Theorem split_front_matter_result (E : env) (text : pystr) :
  match split_front_matter E text with
  | Ok (front, body) =>
      (front = YMap [] \/ py_truthy front = true)
      /\ (front <> YMap [] -> startswith (py "---\n") text = true)
      /\ exists pre, text = pre ++ body
  | Raise e =>
      exists fm rest,
        text = py "---\n" ++ fm ++ py "\n---" ++ rest
        /\ safe_load E fm = Raise e
  end.
Proof.
  unfold split_front_matter.
  destruct (startswith (py "---\n") text) eqn:Hs;
    [|split; [now left | split; [congruence | now exists []]]].
  destruct (Z.eqb_spec (py_find (py "\n---") text 4) (-1)) as [|Hfound]; cbn [negb];
    [split; [now left | split; [congruence | now exists []]]|].
  apply startswith_spec in Hs as [t ->].
  unfold py_find in *. rewrite len_app in *. change (len (py "---\n")) with 4 in *.
  pose proof (len_nonneg t) as Ht.
  destruct (Z.ltb_spec (4 + len t) 4); [lia|].
  change (drop (Z.to_nat 4) (py "---\n" ++ t)) with t in *.
  destruct (find_at_hit _ _ 4 ltac:(lia) Hfound) as (k & Hk & Hat).
  rewrite Hk. apply startswith_spec in Hat as [rest Hrest].
  assert (Hklen : (k + 4 <= length t)%nat).
  { apply (f_equal (@length N)) in Hrest. rewrite length_drop, length_app in Hrest.
    change (length (py "\n---")) with 4%nat in Hrest. lia. }
  assert (Ht' : t = take k t ++ py "\n---" ++ rest).
  { rewrite <- Hrest. symmetry. apply take_drop. }
  assert (Hfm : py_slice (py "---\n" ++ t) 4 (4 + Z.of_nat k) = take k t).
  { rewrite py_slice_inside; [|lia|rewrite len_app; change (len (py "---\n")) with 4;
                                  unfold len; lia].
    change (drop (Z.to_nat 4) (py "---\n" ++ t)) with t. f_equal. lia. }
  assert (Hbody : py_slice (py "---\n" ++ t) (4 + Z.of_nat k + 4) (4 + len t) = rest).
  { replace (4 + len t) with (len (py "---\n" ++ t))
      by (rewrite len_app; reflexivity).
    rewrite py_slice_to_end by lia.
    replace (Z.to_nat (4 + Z.of_nat k + 4)) with (4 + (k + 4))%nat by lia.
    change (drop (4 + (k + 4)) (py "---\n" ++ t)) with (drop (k + 4) t).
    rewrite <- (drop_drop t 4 k), Hrest. reflexivity. }
  rewrite Hfm, Hbody.
  destruct (safe_load E (take k t)) as [v|e] eqn:Hload;
    unfold mbind, result_bind; cbv beta iota.
  - split; [destruct (py_truthy v) eqn:Hv; [now right | now left]|].
    split; [intros _; first [reflexivity | apply startswith_app]|].
    destruct (lstrip_if_suffix (fun c => (c =? LF)%N) rest) as [pre Hpre].
    exists (py "---\n" ++ take k t ++ py "\n---" ++ pre).
    rewrite Ht' at 1. rewrite Hpre at 1. now rewrite <- !app_assoc.
  - exists (take k t), rest. split; [now rewrite <- Ht' | exact Hload].
Qed.

(** X7. Two delimiter lines with nothing between them are not a block:
    the search for the closing mark starts after the opening line, so
    unless a mark follows later the front matter is the empty mapping and
    both lines stay in the body. *)
Theorem adjacent_delimiters_not_a_block (E : env) (body : pystr) :
  py_find (py "\n---") (py "---\n" ++ body) 0 = -1 ->
  split_front_matter E (py "---\n---\n" ++ body)
  = Ok (YMap [], py "---\n---\n" ++ body).
Proof.
  intros Hno. apply split_front_matter_absent. right.
  unfold py_find in *. rewrite len_app in *.
  pose proof (len_nonneg body).
  change (len (py "---\n")) with 4 in Hno. change (len (py "---\n---\n")) with 8.
  destruct (Z.ltb_spec (4 + len body) 0); [lia|].
  destruct (Z.ltb_spec (8 + len body) 4); [lia|].
  change (drop (Z.to_nat 0) (py "---\n" ++ body)) with (py "---\n" ++ body) in Hno.
  change (drop (Z.to_nat 4) (py "---\n---\n" ++ body)) with (py "---\n" ++ body).
  apply find_at_absent. intros k. exact (find_at_none _ _ _ Hno ltac:(lia) k).
Qed.

Lemma adjacent_delimiters_not_a_block_witness :
  py_find (py "\n---") (py "---\n" ++ py "body\n") 0 = -1
  /\ split_front_matter (sample_env (py "ok")) (py "---\n---\n" ++ py "body\n")
     = Ok (YMap [], py "---\n---\n" ++ py "body\n").
Proof.
  assert (H : py_find (py "\n---") (py "---\n" ++ py "body\n") 0 = -1)
    by (vm_compute; reflexivity).
  split; [exact H|].
  exact (adjacent_delimiters_not_a_block (sample_env (py "ok")) (py "body\n") H).
Defined.

(** ** Assembler and splitter *)

Lemma assembled_rest_keeps_start (E : env) (link : yaml) (summary body : pystr) :
  lstrip_if (fun c => (c =? LF)%N)
    (py "\n\n" ++ link_block E link ++ summary_block summary ++ body)
  = link_block E link ++ summary_block summary ++ body.
Proof.
  unfold link_block, summary_block. destruct (py_truthy link); reflexivity.
Qed.

(** X8. Splitting an assembled document gives back its parts: when the
    dumped front matter holds no closing mark and the loader reads the
    dumped text back as the front matter (a non-empty mapping),
    [split_front_matter] of [compose_markdown] returns that front matter
    and, as body, the attribution line, the summary block and the
    translated body. *)
Theorem compose_then_split (E : env) (front link : yaml) (summary body : pystr) :
  no_closing_mark (py_strip (safe_dump E front)) ->
  safe_load E (py_strip (safe_dump E front)) = Ok front ->
  py_truthy front = true ->
  split_front_matter E (compose_markdown E front link summary body)
  = Ok (front, link_block E link ++ summary_block summary ++ body).
Proof.
  intros Hno Hload Htrue. unfold compose_markdown.
  change (py "\n---\n\n") with (py "\n---" ++ py "\n\n"). rewrite <- (app_assoc (py "\n---")).
  rewrite split_front_matter_delimited by assumption.
  rewrite Hload. unfold or_empty_dict. rewrite Htrue.
  now rewrite assembled_rest_keeps_start.
Qed.

Lemma compose_then_split_witness :
  let E := sample_env (py "ok") in
  let front := YMap [(YStr (py "title"), YStr (py "你好"));
                     (YStr (py "description"), YStr (py "简介"))] in
  no_closing_mark (py_strip (safe_dump E front))
  /\ safe_load E (py_strip (safe_dump E front)) = Ok front
  /\ py_truthy front = true
  /\ split_front_matter E (compose_markdown E front YNull (py "摘要") (py "# 正文\n"))
     = Ok (front, link_block E YNull ++ summary_block (py "摘要") ++ py "# 正文\n").
Proof.
  intros E front.
  assert (H1 : no_closing_mark (py_strip (safe_dump E front))) by (vm_compute; reflexivity).
  assert (H2 : safe_load E (py_strip (safe_dump E front)) = Ok front)
    by (vm_compute; reflexivity).
  assert (H3 : py_truthy front = true) by reflexivity.
  split; [exact H1|]. split; [exact H2|]. split; [exact H3|].
  exact (compose_then_split E front YNull (py "摘要") (py "# 正文\n") H1 H2 H3).
Defined.

(** ** Front-matter transformer *)

Lemma dict_get_not_in key items :
  dict_get key items = None -> existsb (fun kv => is_str key kv.1) items = false.
Proof.
  induction items as [|[k v'] rest IH]; simpl; [reflexivity|].
  destruct (is_str key k); [discriminate | exact IH].
Qed.

Lemma dict_get_del_other key key' items :
  key <> key' -> dict_get key' (dict_del key items) = dict_get key' items.
Proof.
  intros Hne. unfold dict_del. induction items as [|[k v] rest IH]; [reflexivity|].
  rewrite filter_cons. simpl.
  destruct (decide (is_str key k = false)) as [Hk|Hk]; simpl.
  - now rewrite IH.
  - apply not_false_is_true in Hk. now rewrite (is_str_other _ _ _ Hne Hk).
Qed.

Lemma dict_set_keys key v items :
  is_Some (dict_get key items) -> map fst (dict_set key v items) = map fst items.
Proof.
  induction items as [|[k v'] rest IH]; simpl; intros [x Hx]; [discriminate|].
  destruct (is_str key k); simpl; [reflexivity|]. f_equal. apply IH. eauto.
Qed.

Lemma try_formats_cases E s fmts pub_dt :
  try_formats E s fmts pub_dt = pub_dt
  \/ exists t, try_formats E s fmts pub_dt = YDatetime t.
Proof.
  induction fmts as [|fmt rest IH]; simpl; [now left|].
  destruct (strptime E s fmt); [right; eauto | exact IH].
Qed.

Lemma parse_date_cases E v :
  (parse_date E v = v \/ exists t, parse_date E v = YDatetime t)
  /\ ((forall s, v <> YStr s) -> parse_date E v = v)
  /\ (forall s, v = YStr s ->
        fromisoformat E (replace_char 90 (py "+00:00") s) = None ->
        strptime E s (py "%Y-%m-%d %H:%M:%S") = None ->
        strptime E s (py "%Y-%m-%d") = None ->
        parse_date E v = v).
Proof.
  split; [|split].
  - destruct v; try (now left). cbn [parse_date].
    destruct (fromisoformat E _); [right; eauto | apply try_formats_cases].
  - intros Hs. destruct v; try reflexivity. now contradiction (Hs s).
  - intros s -> H1 H2 H3. simpl. now rewrite H1, H2, H3.
Qed.

(** The date block on a mapping. *)
Lemma rename_date_on_mapping (E : env) (items : list (yaml * yaml)) :
  exists items',
    rename_date E (YMap items) = Ok (YMap items')
    /\ dict_get (py "date") items' = None
    /\ dict_get (py "pubDatetime") items'
       = match dict_get (py "date") items with
         | Some v => Some (parse_date E v)
         | None => dict_get (py "pubDatetime") items
         end
    /\ (forall key, key <> py "date" -> key <> py "pubDatetime" ->
          dict_get key items' = dict_get key items)
    /\ (forall v, dict_get (py "date") items = Some v ->
          (parse_date E v = v \/ exists t, parse_date E v = YDatetime t)
          /\ ((forall s, v <> YStr s) -> parse_date E v = v)
          /\ (forall s, v = YStr s ->
                fromisoformat E (replace_char 90 (py "+00:00") s) = None ->
                strptime E s (py "%Y-%m-%d %H:%M:%S") = None ->
                strptime E s (py "%Y-%m-%d") = None ->
                parse_date E v = v)).
Proof.
  unfold rename_date. cbn [py_in mbind result_bind].
  destruct (dict_get (py "date") items) as [v|] eqn:Hd.
  - rewrite (dict_get_in _ _ _ Hd). cbn [py_pop]. rewrite Hd. cbn [py_setitem].
    eexists. split; [reflexivity|]. split; [|split; [|split]].
    + rewrite dict_get_set_other by (vm_compute; discriminate).
      apply dict_get_del_same.
    + apply dict_get_set_same.
    + intros key H1 H2. rewrite dict_get_set_other by congruence.
      apply dict_get_del_other. congruence.
    + intros v' Hv'. injection Hv' as <-. apply parse_date_cases.
  - rewrite (dict_get_not_in _ _ Hd). exists items.
    split; [reflexivity|]. split; [exact Hd|]. split; [reflexivity|].
    split; [reflexivity | discriminate].
Qed.

(** X9. On a mapping the date block never raises. Afterwards there is no
    key [date]; [pubDatetime] holds the parsed date when there was a
    [date] and is as before otherwise; every other key keeps its value.
    The value stored is a datetime or the original value: a value that is
    not a string, or a string that no parser accepts, is stored as it
    was. *)
Theorem rename_date_mapping (E : env) (items : list (yaml * yaml)) :
  exists items',
    rename_date E (YMap items) = Ok (YMap items')
    /\ dict_get (py "date") items' = None
    /\ dict_get (py "pubDatetime") items'
       = match dict_get (py "date") items with
         | Some v => Some (parse_date E v)
         | None => dict_get (py "pubDatetime") items
         end
    /\ (forall key, key <> py "date" -> key <> py "pubDatetime" ->
          dict_get key items' = dict_get key items)
    /\ (forall v, dict_get (py "date") items = Some v ->
          (parse_date E v = v \/ exists t, parse_date E v = YDatetime t)
          /\ ((forall s, v <> YStr s) -> parse_date E v = v)
          /\ (forall s, v = YStr s ->
                fromisoformat E (replace_char 90 (py "+00:00") s) = None ->
                strptime E s (py "%Y-%m-%d %H:%M:%S") = None ->
                strptime E s (py "%Y-%m-%d") = None ->
                parse_date E v = v)).
Proof. exact (rename_date_on_mapping E items). Qed.

(** X10. The title is translated in place. Without a key [title] no
    request is made and nothing changes. With one, exactly one request is
    made, at temperature 1.3, with the title at the end of the prompt; if
    it is answered, the keys and their order are as before, [title] holds
    the stripped answer and every other key keeps its value; if it
    raises, the exception is passed on. *)
Theorem translate_title_in_place (E : env) (items : list (yaml * yaml)) (w : world E) :
  match dict_get (py "title") items with
  | None => translate_title E (YMap items) w = (Ok (YMap items), w)
  | Some v =>
    match create E (service w) (title_prompt E v) 13 with
    | (Ok content, s) =>
        exists items',
          translate_title E (YMap items) w = (Ok (YMap items'), with_service w s)
          /\ map fst items' = map fst items
          /\ dict_get (py "title") items' = Some (YStr (py_strip content))
          /\ (forall key, key <> py "title" -> dict_get key items' = dict_get key items)
    | (Raise e, s) =>
        translate_title E (YMap items) w = (Raise e, with_service w s)
    end
  end.
Proof.
  unfold translate_title, title_prompt, with_service.
  destruct (dict_get (py "title") items) as [v|] eqn:Ht.
  - destruct (create E (service w) _ 13) as [[content|e] s] eqn:Hc.
    + exists (dict_set (py "title") (YStr (py_strip content)) items).
      split; [|split; [|split]].
      * unfold mbind, M_bind, lift. cbn [py_in]. rewrite (dict_get_in _ _ _ Ht).
        cbn [py_getitem]. rewrite Ht. unfold ask_llm. rewrite Hc. reflexivity.
      * apply dict_set_keys. eauto.
      * apply dict_get_set_same.
      * intros key Hk. apply dict_get_set_other. congruence.
    + unfold mbind, M_bind, lift. cbn [py_in]. rewrite (dict_get_in _ _ _ Ht).
      cbn [py_getitem]. rewrite Ht. unfold ask_llm. rewrite Hc. reflexivity.
  - unfold mbind, M_bind, lift. cbn [py_in]. rewrite (dict_get_not_in _ _ Ht).
    reflexivity.
Qed.

(** ** One document: what it reads and writes *)

Section Outcome.

Context {E : env}.

Lemma M_bind_Ok_inv {A B} (m : M E A) (k : A -> M E B) w b w' :
  (m ≫= k) w = (Ok b, w') ->
  exists a w1, m w = (Ok a, w1) /\ k a w1 = (Ok b, w').
Proof.
  unfold mbind, M_bind. destruct (m w) as [[a|e] w1]; [eauto | discriminate].
Qed.

Lemma lift_Ok_inv {A} (r : result A) (w w1 : world E) a :
  lift r w = (Ok a, w1) -> r = Ok a /\ w1 = w.
Proof. unfold lift. intros H. injection H as -> ->. auto. Qed.

Lemma mret_Ok_inv {A} (x a : A) (w w1 : world E) :
  (mret x : M E A) w = (Ok a, w1) -> a = x /\ w1 = w.
Proof. intros H. injection H as -> ->. auto. Qed.

Lemma dst_ret {A} (a : A) : preserves_dst (mret a : M E A).
Proof. intros w r w' H. now injection H as _ <-. Qed.

Lemma dst_lift {A} (r : result A) : preserves_dst (lift r : M E A).
Proof. intros w r' w' H. now injection H as _ <-. Qed.

Lemma dst_bind {A B} (m : M E A) (k : A -> M E B) :
  preserves_dst m -> (forall a, preserves_dst (k a)) -> preserves_dst (m ≫= k).
Proof.
  intros Hm Hk w r w' H. unfold mbind, M_bind in H.
  destruct (m w) as [[a|e] w1] eqn:Hmw.
  - apply Hk in H. apply Hm in Hmw. congruence.
  - injection H as _ <-. now apply Hm in Hmw.
Qed.

Lemma dst_mapM {A B} (f : A -> M E B) l :
  (forall a, preserves_dst (f a)) -> preserves_dst (mapM f l).
Proof.
  intros Hf. induction l as [|x rest IH]; simpl.
  - apply dst_ret.
  - apply dst_bind; [apply Hf|]. intros y.
    apply dst_bind; [apply IH|]. intros ys. apply dst_ret.
Qed.

Lemma dst_ask_llm prompt temp : preserves_dst (ask_llm prompt temp : M E pystr).
Proof.
  intros w r w' H. unfold ask_llm in H.
  destruct (create E (service w) prompt temp) as [[content|e] s];
    now injection H as _ <-.
Qed.

Lemma dst_read_text p : preserves_dst (read_text p : M E pystr).
Proof.
  intros w r w' H. unfold read_text in H.
  destruct (src w !! p) as [[| |]|]; now injection H as _ <-.
Qed.

Lemma raise_keeps_of_preserves {A} (m : M E A) : preserves_dst m -> raise_keeps_dst m.
Proof. intros H w e w' Hm. exact (H _ _ _ Hm). Qed.

Lemma raise_keeps_bind {A B} (m : M E A) (k : A -> M E B) :
  preserves_dst m -> (forall a, raise_keeps_dst (k a)) -> raise_keeps_dst (m ≫= k).
Proof.
  intros Hm Hk w e w' H. unfold mbind, M_bind in H.
  destruct (m w) as [[a|e'] w1] eqn:Hmw.
  - apply Hk in H. apply Hm in Hmw. congruence.
  - injection H as _ <-. now apply Hm in Hmw.
Qed.

Lemma raise_keeps_write_text p s : raise_keeps_dst (write_text p s : M E unit).
Proof.
  intros w e w' H. unfold write_text in H.
  repeat case_match; first [discriminate H | now injection H as _ <-].
Qed.

Lemma dst_mkdir_parents d : preserves_dst (mkdir_parents d : M E unit).
Proof.
  intros w r w' H. unfold mkdir_parents in H.
  destruct (blocked (dst w) [] d); now injection H as _ <-.
Qed.

(** [write_text] returns only when the parent is a directory and the
    path is not one; the file then holds the text. *)
Lemma write_text_Ok_inv p s (w w' : world E) :
  write_text p s w = (Ok tt, w') ->
  p.1 ∈ dst_dirs w
  /\ ((p.1 ++ [p.2]) ∉ dst_dirs w)
  /\ w' = {| service := service w; src := src w; dst := <[p := s]> (dst w);
             dst_dirs := dst_dirs w |}.
Proof.
  unfold write_text. intros H.
  repeat case_match; try discriminate H. now injection H as <-.
Qed.

End Outcome.

Create HintDb keep_dst.
#[local] Hint Resolve dst_ret dst_lift dst_ask_llm dst_read_text
  dst_mkdir_parents : keep_dst.

Ltac keep_dst :=
  repeat first
    [ apply dst_bind; [|intros]
    | apply dst_mapM; intros
    | match goal with
      | |- preserves_dst (match ?x with _ => _ end) => destruct x
      | |- preserves_dst (if ?b then _ else _) => destruct b
      end
    | solve [auto with keep_dst] ].

Lemma translate_title_dst (E : env) front : preserves_dst (translate_title E front).
Proof. unfold translate_title. keep_dst. Qed.

#[local] Hint Resolve translate_title_dst : keep_dst.

Lemma process_one_raise_dst (E : env) md : raise_keeps_dst (process_one E md).
Proof.
  unfold process_one. cbv zeta.
  repeat first
    [ apply raise_keeps_write_text
    | apply raise_keeps_bind; [solve [keep_dst]|intros]
    | match goal with
      | |- raise_keeps_dst (match ?x with _ => _ end) => destruct x
      end ].
Qed.

(** The front matter after the date block has no [date]. *)
Lemma rename_date_no_date (E : env) front items :
  rename_date E front = Ok (YMap items) -> dict_get (py "date") items = None.
Proof.
  destruct front; try (cbn; discriminate).
  - cbn [rename_date py_in mbind result_bind].
    destruct (negb (py_find (py "date") s 0 =? -1)); cbn; discriminate.
  - cbn [rename_date py_in mbind result_bind].
    destruct (existsb (is_str (py "date")) l); cbn; discriminate.
  - cbn [rename_date py_in mbind result_bind].
    destruct (existsb (is_str (py "date")) l); cbn; discriminate.
  - intros H. destruct (rename_date_on_mapping E items0) as (items' & Hr & Hd & _).
    rewrite Hr in H. now injection H as <-.
Qed.

(** What [process_one] leaves behind. *)
Lemma process_one_result (E : env) (md : path) (w : world E) :
  match process_one E md w with
  | (Raise e, w') => src w' = src w /\ dst w' = dst w
  | (Ok _, w') =>
      src w' = src w
      /\ exists text items link summary body,
           src w !! md = Some (Text text)
           /\ dst w' = <[md := compose_markdown E (YMap items) link summary body]> (dst w)
           /\ dict_get (py "link") items = None
           /\ dict_get (py "date") items = None
           /\ exists d, dict_get (py "description") items = Some (YStr d)
  end.
Proof.
  destruct (process_one E md w) as [[[]|e] w'] eqn:H.
  2:{ split; [exact (process_one_src E md _ _ _ H) | exact (process_one_raise_dst E md _ _ _ H)]. }
  split; [exact (process_one_src E md _ _ _ H)|].
  unfold process_one in H. cbv zeta in H.
  apply M_bind_Ok_inv in H as ([] & w0 & Hmk & H).
  destruct (mkdir_parents_cases md.1 w)
    as [(e' & _ & He)|(_ & w0' & Hw0 & _ & Hs0 & Hd0 & _)]; [congruence|].
  replace w0' with w0 in * by congruence. clear Hw0.
  apply M_bind_Ok_inv in H as (raw & w1 & Hread & H).
  assert (Hw1 : w1 = w0 /\ src w !! md = Some (Text raw)).
  { unfold read_text in Hread. rewrite Hs0 in Hread.
    destruct (src w !! md) as [[| |]|]; try discriminate.
    injection Hread as -> ->. auto. }
  destruct Hw1 as [-> Htext].
  apply M_bind_Ok_inv in H as ([front0 body0] & w2 & Hsplit & H).
  apply lift_Ok_inv in Hsplit as [_ ->].
  apply M_bind_Ok_inv in H as (front1 & w3 & Htitle & H).
  pose proof (translate_title_dst E front0 _ _ _ Htitle) as Hd3.
  apply M_bind_Ok_inv in H as (front2 & w4 & Hdate & H).
  apply lift_Ok_inv in Hdate as [Hdate ->].
  apply M_bind_Ok_inv in H as (segs & w5 & Hsegs & H).
  apply lift_Ok_inv in Hsegs as [_ ->].
  apply M_bind_Ok_inv in H as (translated & w6 & Htr & H).
  assert (Hd6 : dst w6 = dst w3).
  { revert Htr. apply dst_mapM. intros. apply dst_ask_llm. }
  apply M_bind_Ok_inv in H as (lvl1 & w7 & Hl1 & H).
  assert (Hd7 : dst w7 = dst w6).
  { revert Hl1. apply dst_mapM. intros. apply dst_ask_llm. }
  apply M_bind_Ok_inv in H as (summary & w8 & Hsum & H).
  pose proof (dst_ask_llm _ _ _ _ _ Hsum) as Hd8.
  apply M_bind_Ok_inv in H as (keywords & w9 & Hkw & H).
  pose proof (dst_ask_llm _ _ _ _ _ Hkw) as Hd9.
  apply M_bind_Ok_inv in H as (front3 & w10 & Htags & H).
  assert (Htags' : w10 = w9 /\
            (front3 = front2
             \/ py_setitem front2 (py "tags") (YSeq (map YStr (extract_tags keywords)))
                = Ok front3)).
  { destruct (nonempty (extract_tags keywords)).
    - apply lift_Ok_inv in Htags as [? ->]. auto.
    - apply mret_Ok_inv in Htags as [-> ->]. auto. }
  destruct Htags' as [-> Hfront3].
  apply M_bind_Ok_inv in H as (description & w11 & Hdesc & H).
  pose proof (dst_ask_llm _ _ _ _ _ Hdesc) as Hd11.
  apply M_bind_Ok_inv in H as (front4 & w12 & Hset & H).
  apply lift_Ok_inv in Hset as [Hset ->].
  apply M_bind_Ok_inv in H as ([link front5] & w13 & Hpop & H).
  apply lift_Ok_inv in Hpop as [Hpop ->].
  apply write_text_Ok_inv in H as (_ & _ & ->). cbn [src dst].
  (* the front matter, step by step *)
  destruct front3 as [| | | | | | | | | |items3]; try discriminate Hset.
  cbn [py_setitem] in Hset. injection Hset as <-.
  assert (Hdate3 : dict_get (py "date") items3 = None).
  { destruct Hfront3 as [<-|Hs].
    - exact (rename_date_no_date E _ _ Hdate).
    - destruct front2 as [| | | | | | | | | |items2]; try discriminate Hs.
      cbn [py_setitem] in Hs. injection Hs as <-.
      rewrite dict_get_set_other by (vm_compute; discriminate).
      exact (rename_date_no_date E _ _ Hdate). }
  set (items4 := dict_set (py "description") (YStr description) items3) in *.
  assert (Hdate4 : dict_get (py "date") items4 = None).
  { unfold items4. rewrite dict_get_set_other by (vm_compute; discriminate). exact Hdate3. }
  assert (Hdesc4 : dict_get (py "description") items4 = Some (YStr description))
    by apply dict_get_set_same.
  cbn [py_pop_default] in Hpop.
  exists raw.
  destruct (dict_get (py "link") items4) as [l|] eqn:Hlink; injection Hpop as <- <-.
  - exists (dict_del (py "link") items4), l, summary, (concat translated).
    split; [exact Htext|]. split; [f_equal; congruence|].
    split; [apply dict_get_del_same|].
    split; [rewrite dict_get_del_other by (vm_compute; discriminate); exact Hdate4|].
    exists description.
    rewrite dict_get_del_other by (vm_compute; discriminate). exact Hdesc4.
  - exists items4, YNull, summary, (concat translated).
    split; [exact Htext|]. split; [f_equal; congruence|].
    split; [exact Hlink|]. split; [exact Hdate4|]. eauto.
Qed.

(** When [process_one] returns, the document's path is not a directory. *)
Lemma process_one_written (E : env) (md : path) (w w' : world E) :
  process_one E md w = (Ok tt, w') -> (md.1 ++ [md.2]) ∉ dst_dirs w'.
Proof.
  intros H. unfold process_one in H. cbv zeta in H.
  repeat first
    [ apply M_bind_Ok_inv in H as (? & ? & _ & H)
    | match goal with x : (_ * _)%type |- _ => destruct x; cbv beta iota in H end ].
  apply write_text_Ok_inv in H as (_ & Hn & ->). exact Hn.
Qed.

(** X11. [process_one] never changes the source tree. In the
    destination tree it makes the parent directory of the document's path
    and the directories above it, unless a file stands in their way; it
    makes no other directory. When it raises, no file of the destination
    tree is written or changed: a document that fails leaves at most
    these directories behind. When it returns, the source was a text
    file, the directories have been made, the document's path is not a
    directory, and the files of the destination tree differ only at the
    document's path, which holds the assembled document; its front matter
    is a mapping without [link] and without [date] and with a string
    under [description]. *)
Theorem process_one_outcome (E : env) (md : path) (w : world E) :
  match process_one E md w with
  | (Raise e, w') =>
      src w' = src w /\ dst w' = dst w
      /\ match blocked (dst w) [] md.1 with
         | Some e' => e = e' /\ dst_dirs w' = dst_dirs w
         | None => dst_dirs w' = dst_dirs w ∪ list_to_set (ancestors md.1)
         end
  | (Ok _, w') =>
      src w' = src w
      /\ blocked (dst w) [] md.1 = None
      /\ dst_dirs w' = dst_dirs w ∪ list_to_set (ancestors md.1)
      /\ ((md.1 ++ [md.2]) ∉ dst_dirs w')
      /\ exists text items link summary body,
           src w !! md = Some (Text text)
           /\ dst w' = <[md := compose_markdown E (YMap items) link summary body]> (dst w)
           /\ dict_get (py "link") items = None
           /\ dict_get (py "date") items = None
           /\ exists d, dict_get (py "description") items = Some (YStr d)
  end.
Proof.
  pose proof (process_one_result E md w) as H.
  pose proof (process_one_dirs E md w) as Hd.
  pose proof (process_one_written E md w) as Hw.
  destruct (process_one E md w) as [[[]|e] w'].
  - destruct H as [Hs H].
    destruct (Hd w' (Ok tt) eq_refl) as [(e & _ & He & _)|[Hb Hdd]]; [discriminate He|].
    split; [exact Hs|]. split; [exact Hb|]. split; [exact Hdd|].
    split; [exact (Hw w' eq_refl) | exact H].
  - destruct H as [Hs Hdst]. split; [exact Hs|]. split; [exact Hdst|].
    destruct (Hd w' (Raise e) eq_refl) as [(e' & Hb & He & ->)|[Hb Hdd]]; rewrite Hb.
    + injection He as ->. auto.
    + exact Hdd.
Qed.

Lemma translate_title_not_mapping (E : env) front (w w' : world E) front' :
  (forall items, front <> YMap items) ->
  translate_title E front w = (Ok front', w') -> front' = front.
Proof.
  intros Hnm H. unfold translate_title in H.
  apply M_bind_Ok_inv in H as (has & w1 & Hin & H).
  apply lift_Ok_inv in Hin as [Hin ->].
  destruct has.
  - apply M_bind_Ok_inv in H as (t & w2 & Hget & _).
    apply lift_Ok_inv in Hget as [Hget _].
    destruct front; try discriminate Hget. now contradiction (Hnm items).
  - now apply mret_Ok_inv in H as [-> _].
Qed.

Lemma rename_date_not_mapping (E : env) front front' :
  (forall items, front <> YMap items) ->
  rename_date E front = Ok front' -> front' = front.
Proof.
  intros Hnm. unfold rename_date.
  destruct (py_in (py "date") front) as [[|]|e] eqn:Hin; cbn [mbind result_bind].
  - destruct front; try (cbn; discriminate). now contradiction (Hnm items).
  - intros H. now injection H.
  - discriminate.
Qed.

(** X12. A front matter that is not a mapping (a block that loads as a
    string, a list, a number) makes [process_one] raise, whatever the
    service answers; no document is written. *)
Theorem non_mapping_front_matter_fails (E : env) (md : path) (w : world E)
    (text : pystr) (front : yaml) (body : pystr) :
  src w !! md = Some (Text text) ->
  split_front_matter E text = Ok (front, body) ->
  (forall items, front <> YMap items) ->
  exists e w', process_one E md w = (Raise e, w') /\ dst w' = dst w.
Proof.
  intros Htext Hsplit Hnm.
  destruct (process_one E md w) as [[[]|e] w'] eqn:H;
    [|exists e, w'; split; [reflexivity | exact (process_one_raise_dst E md _ _ _ H)]].
  exfalso. unfold process_one in H. cbv zeta in H.
  apply M_bind_Ok_inv in H as ([] & w0 & Hmk & H).
  destruct (mkdir_parents_cases md.1 w)
    as [(e' & _ & He)|(_ & w0' & Hw0 & _ & Hs0 & _)]; [congruence|].
  replace w0' with w0 in * by congruence. clear Hw0.
  apply M_bind_Ok_inv in H as (raw & w1 & Hread & H).
  unfold read_text in Hread. rewrite Hs0, Htext in Hread. injection Hread as <- <-.
  apply M_bind_Ok_inv in H as ([front0 body0] & w2 & Hs & H).
  apply lift_Ok_inv in Hs as [Hs ->]. rewrite Hsplit in Hs. injection Hs as <- <-.
  apply M_bind_Ok_inv in H as (front1 & w3 & Htitle & H).
  apply (translate_title_not_mapping E _ _ _ _ Hnm) in Htitle as ->.
  apply M_bind_Ok_inv in H as (front2 & w4 & Hdate & H).
  apply lift_Ok_inv in Hdate as [Hdate ->].
  apply (rename_date_not_mapping E _ _ Hnm) in Hdate as ->.
  apply M_bind_Ok_inv in H as (segs & w5 & _ & H).
  apply M_bind_Ok_inv in H as (translated & w6 & _ & H).
  apply M_bind_Ok_inv in H as (lvl1 & w7 & _ & H).
  apply M_bind_Ok_inv in H as (summary & w8 & _ & H).
  apply M_bind_Ok_inv in H as (keywords & w9 & _ & H).
  apply M_bind_Ok_inv in H as (front3 & w10 & Htags & H).
  assert (Hf3 : front3 = front).
  { destruct (nonempty (extract_tags keywords)).
    - apply lift_Ok_inv in Htags as [Hset _].
      destruct front; try discriminate Hset. now contradiction (Hnm items).
    - now apply mret_Ok_inv in Htags as [-> _]. }
  subst front3.
  apply M_bind_Ok_inv in H as (description & w11 & _ & H).
  apply M_bind_Ok_inv in H as (front4 & w12 & Hset & _).
  apply lift_Ok_inv in Hset as [Hset _].
  destruct front; try discriminate Hset. now contradiction (Hnm items).
Qed.

Lemma non_mapping_front_matter_fails_witness :
  let E := {| llm := nat; create := quota_create (py "ok");
              safe_load := fun fm => Ok (YStr fm); safe_dump := sample_dump;
              format_other := dump_scalar; fromisoformat := iso_basic;
              strptime := fun _ _ => None; _enc := None;
              constants := default_config |} in
  let w := Build_world E 100%nat (<[a_md := Text (py "---\njust a sentence\n---\nbody\n")]> ∅) ∅ ∅ in
  src w !! a_md = Some (Text (py "---\njust a sentence\n---\nbody\n"))
  /\ split_front_matter E (py "---\njust a sentence\n---\nbody\n")
     = Ok (YStr (py "just a sentence"), py "body\n")
  /\ (forall items, YStr (py "just a sentence") <> YMap items)
  /\ exists e w', process_one E a_md w = (Raise e, w') /\ dst w' = dst w.
Proof.
  intros E w.
  assert (H1 : src w !! a_md = Some (Text (py "---\njust a sentence\n---\nbody\n")))
    by (vm_compute; reflexivity).
  assert (H2 : split_front_matter E (py "---\njust a sentence\n---\nbody\n")
               = Ok (YStr (py "just a sentence"), py "body\n"))
    by (vm_compute; reflexivity).
  assert (H3 : forall items, YStr (py "just a sentence") <> YMap items) by discriminate.
  split; [exact H1|]. split; [exact H2|]. split; [exact H3|].
  exact (non_mapping_front_matter_fails E a_md w _ _ _ H1 H2 H3).
Defined.

(** ** The run: tallies and the two trees *)

Section RunLevel.

Context {E : env}.

Lemma mark_dst md : preserves_dst (mark md : M E unit).
Proof.
  intros w r w' H.
  unfold mark, path_exists, unlink, rename, mbind, M_bind, mret, M_ret in H.
  repeat case_match; simplify_eq; reflexivity.
Qed.

Lemma completes_dec md (w : world E) : completes E md w \/ ¬ completes E md w.
Proof.
  unfold completes.
  destruct (process_one E md w) as [[[]|e] w1] eqn:Hp.
  - destruct (mark md w1) as [[[]|e] w2] eqn:Hm.
    + left. eauto.
    + right. intros (x1 & x2 & Hx & Hy). simplify_eq. congruence.
  - right. intros (x1 & x2 & Hx & Hy). discriminate.
Qed.

Lemma main_iter_bounds md (st : Z * Z * world E) :
  st.1.1 <= (main_iter E md st).1.1 <= st.1.1 + 1
  /\ st.1.2 <= (main_iter E md st).1.2 <= st.1.2 + 1.
Proof.
  destruct st as [[s f] w]. unfold main_iter.
  destruct (process_one E md w) as [[[]|e] w1];
    [destruct (mark md w1) as [[[]|e] w2]|]; cbn; lia.
Qed.

Lemma main_loop_bounds l : forall st : Z * Z * world E,
  st.1.1 <= (main_loop E l st).1.1 <= st.1.1 + len l
  /\ st.1.2 <= (main_loop E l st).1.2 <= st.1.2 + len l.
Proof.
  induction l as [|md l IH]; intros st.
  - unfold len. cbn. lia.
  - rewrite main_loop_cons.
    pose proof (IH (main_iter E md st)) as H.
    pose proof (main_iter_bounds md st) as H1.
    unfold len in *. cbn [length]. lia.
Qed.

(** The turn of [md]: either the file is gone from its name and no failure
    is counted, or it is as before and one failure is counted. *)
Lemma main_iter_turn md (st : Z * Z * world E) :
  (src (main_iter E md st).2 !! md = None
   /\ (main_iter E md st).1.2 = st.1.2)
  \/ (src (main_iter E md st).2 !! md = src st.2 !! md
      /\ (main_iter E md st).1.2 = st.1.2 + 1).
Proof.
  destruct st as [[s f] w].
  destruct (completes_dec md w) as [Hc|Hn].
  - destruct (main_iter_completes E md s f w Hc) as (w2 & -> & Hgone & _).
    left. auto.
  - destruct (main_iter_fails E md s f w Hn) as (s' & w' & -> & Hkept).
    right. auto.
Qed.

Lemma unprefixed_frame l p :
  (forall q, q ∈ l -> startswith (py "[ds]") q.2 = false) ->
  startswith (py "[ds]") p.2 = false ->
  p ∉ l ->
  forall st : Z * Z * world E, src (main_loop E l st).2 !! p = src st.2 !! p.
Proof.
  intros Hl Hp Hnin. apply main_loop_frame. intros q Hq. split.
  - intros ->. contradiction.
  - intros ->. rewrite ds_path_prefixed in Hp. discriminate.
Qed.

Lemma main_loop_fail_count l :
  NoDup l ->
  (forall q, q ∈ l -> startswith (py "[ds]") q.2 = false) ->
  forall st : Z * Z * world E,
    (forall q, q ∈ l -> is_Some (src st.2 !! q)) ->
    (main_loop E l st).1.2
    = st.1.2 + len (filter (fun p => is_Some (src (main_loop E l st).2 !! p)) l).
Proof.
  induction l as [|md l IH]; intros Hnd Hun st Hsome.
  - unfold len. cbn. lia.
  - apply NoDup_cons in Hnd as [Hnin Hnd].
    assert (Hun' : forall q, q ∈ l -> startswith (py "[ds]") q.2 = false).
    { intros q Hq. apply Hun. now right. }
    assert (Hmd : startswith (py "[ds]") md.2 = false) by (apply Hun; left).
    rewrite main_loop_cons.
    assert (Hsome' : forall q, q ∈ l -> is_Some (src (main_iter E md st).2 !! q)).
    { intros q Hq. rewrite main_iter_frame.
      - apply Hsome. now right.
      - intros ->. contradiction.
      - intros ->. specialize (Hun' _ Hq). rewrite ds_path_prefixed in Hun'. discriminate. }
    rewrite (IH Hnd Hun' _ Hsome').
    pose proof (unprefixed_frame l md Hun' Hmd Hnin (main_iter E md st)) as Hfr.
    destruct (main_iter_turn md st) as [[Hgone Hf]|[Hkept Hf]].
    + rewrite filter_cons_False.
      * lia.
      * cbv beta. intros [x Hx].
        discriminate (eq_trans (eq_sym Hx) (eq_trans Hfr Hgone)).
    + rewrite filter_cons_True.
      * unfold len. cbn [length]. lia.
      * cbv beta. destruct (Hsome md ltac:(left)) as [x Hx]. exists x.
        exact (eq_trans Hfr (eq_trans Hkept Hx)).
Qed.

Lemma main_loop_scanned l :
  NoDup l ->
  (forall q, q ∈ l -> startswith (py "[ds]") q.2 = false) ->
  forall (st : Z * Z * world E) p, p ∈ l ->
    src (main_loop E l st).2 !! p = src st.2 !! p
    \/ src (main_loop E l st).2 !! p = None.
Proof.
  induction l as [|md l IH]; intros Hnd Hun st p Hp.
  - inversion Hp.
  - apply NoDup_cons in Hnd as [Hnin Hnd].
    assert (Hun' : forall q, q ∈ l -> startswith (py "[ds]") q.2 = false).
    { intros q Hq. apply Hun. now right. }
    assert (Hmd : startswith (py "[ds]") md.2 = false) by (apply Hun; left).
    rewrite main_loop_cons.
    apply elem_of_cons in Hp as [->|Hp].
    + rewrite (unprefixed_frame l md Hun' Hmd Hnin).
      destruct (main_iter_turn md st) as [[Hgone _]|[Hkept _]]; auto.
    + destruct (IH Hnd Hun' (main_iter E md st) p Hp) as [H|H]; [|auto].
      left. rewrite H. apply main_iter_frame.
      * intros ->. contradiction.
      * intros ->. specialize (Hun' _ Hp). rewrite ds_path_prefixed in Hun'. discriminate.
Qed.

Lemma md_files_unprefixed (w : world E) q :
  q ∈ md_files w -> startswith (py "[ds]") q.2 = false.
Proof. intros H. now apply elem_of_md_files in H as (_ & _ & H). Qed.

(** No entry without the prefix is created or altered by a run. *)
Lemma run_unprefixed (w : world E) p :
  startswith (py "[ds]") p.2 = false ->
  is_Some (src (main E w).2 !! p) ->
  src (main E w).2 !! p = src w !! p.
Proof.
  intros Hp Hsome. rewrite main_world, ?src_with_root in *.
  destruct (decide (p ∈ md_files w)) as [Hin|Hnin].
  - destruct (main_loop_scanned (md_files w) (NoDup_md_files E w) (md_files_unprefixed w)
                (0, 0, w) p Hin) as [H|H]; [exact H|].
    destruct Hsome as [x Hx]. discriminate (eq_trans (eq_sym Hx) H).
  - apply (unprefixed_frame (md_files w) p (md_files_unprefixed w) Hp Hnin (0, 0, w)).
Qed.

Lemma rescan_subset (w : world E) p :
  p ∈ md_files (main E w).2 -> p ∈ md_files w.
Proof.
  intros H. apply elem_of_md_files in H as (Hsome & Hext & Hpre).
  apply elem_of_md_files. split; [|auto].
  now rewrite <- (run_unprefixed w p Hpre Hsome).
Qed.

Lemma rescan_length (w : world E) :
  len (md_files (main E w).2)
  = len (filter (fun p => is_Some (src (main E w).2 !! p)) (md_files w)).
Proof.
  unfold len. f_equal. apply Permutation_length.
  apply NoDup_Permutation.
  - apply NoDup_md_files.
  - apply NoDup_filter, NoDup_md_files.
  - intros p. rewrite list_elem_of_filter. split.
    + intros H. split; [|now apply rescan_subset].
      now apply elem_of_md_files in H as (Hsome & _).
    + intros [Hsome Hin]. apply elem_of_md_files in Hin as (_ & Hext & Hpre).
      apply elem_of_md_files. auto.
Qed.

Lemma main_iter_dst md (st : Z * Z * world E) :
  ((main_iter E md st).1.1 = st.1.1 /\ dst (main_iter E md st).2 = dst st.2)
  \/ ((main_iter E md st).1.1 = st.1.1 + 1
      /\ exists c, startswith (py "---\n") c = true
                   /\ dst (main_iter E md st).2 = <[md := c]> (dst st.2)).
Proof.
  destruct st as [[s f] w]. unfold main_iter.
  pose proof (process_one_result E md w) as H.
  destruct (process_one E md w) as [[[]|e] w1].
  - right. destruct H as (_ & text & items & link & summary & body & _ & Hd & _).
    assert (Hw : forall r w2, mark md w1 = (r, w2) ->
                 dst w2 = <[md := compose_markdown E (YMap items) link summary body]> (dst w)).
    { intros r w2 Hm. rewrite (mark_dst md _ _ _ Hm). exact Hd. }
    destruct (mark md w1) as [[[]|e] w2] eqn:Hm; cbn [fst snd];
      (split; [reflexivity|]); eexists; (split; [|exact (Hw _ _ eq_refl)]);
      unfold compose_markdown; apply startswith_app.
  - left. destruct H as [_ Hd]. auto.
Qed.

Lemma main_loop_dst l : forall (st : Z * Z * world E) p,
  dst (main_loop E l st).2 !! p = dst st.2 !! p
  \/ (p ∈ l /\ exists c, startswith (py "---\n") c = true
                         /\ dst (main_loop E l st).2 !! p = Some c).
Proof.
  induction l as [|md l IH]; intros st p.
  - left. reflexivity.
  - rewrite main_loop_cons.
    destruct (IH (main_iter E md st) p) as [H|(Hin & c & Hc & H)].
    + rewrite H. destruct (main_iter_dst md st) as [[_ Hd]|(_ & c & Hc & Hd)].
      * left. now rewrite Hd.
      * rewrite Hd. destruct (decide (p = md)) as [->|Hne].
        -- right. split; [left|]. exists c. split; [exact Hc|]. apply lookup_insert_eq.
        -- left. now apply lookup_insert_ne.
    + right. split; [now right|]. eauto.
Qed.

Lemma main_loop_success_count l :
  NoDup l ->
  forall st : Z * Z * world E,
    (forall q, q ∈ l -> dst st.2 !! q = None) ->
    (main_loop E l st).1.1
    = st.1.1 + len (filter (fun p => is_Some (dst (main_loop E l st).2 !! p)) l).
Proof.
  induction l as [|md l IH]; intros Hnd st Hnone.
  - unfold len. cbn. lia.
  - apply NoDup_cons in Hnd as [Hnin Hnd].
    rewrite main_loop_cons.
    assert (Hfr : dst (main_loop E l (main_iter E md st)).2 !! md
                  = dst (main_iter E md st).2 !! md).
    { destruct (main_loop_dst l (main_iter E md st) md) as [H|[H _]]; [exact H|contradiction]. }
    destruct (main_iter_dst md st) as [[Hs Hd]|(Hs & c & _ & Hd)].
    + rewrite IH; [|exact Hnd|].
      * rewrite filter_cons_False; [lia|].
        cbv beta. intros [x Hx].
        discriminate (eq_trans (eq_sym Hx)
                        (eq_trans Hfr (eq_trans (f_equal (fun m => m !! md) Hd)
                                                (Hnone md ltac:(left))))).
      * intros q Hq. rewrite Hd. apply Hnone. now right.
    + rewrite IH; [|exact Hnd|].
      * rewrite filter_cons_True.
        -- unfold len. cbn [length]. lia.
        -- cbv beta. exists c.
           exact (eq_trans Hfr (eq_trans (f_equal (fun m => m !! md) Hd)
                                         (lookup_insert_eq _ _ _))).
      * intros q Hq. rewrite Hd, lookup_insert_ne.
        -- apply Hnone. now right.
        -- intros ->. contradiction.
Qed.

End RunLevel.

(** X13. The numbers of a run. The total is the number of files scanned;
    the successes and the failures are each between zero and the total,
    and together at least the total; the failures are exactly as many as
    the files that the next run will scan. *)
Theorem run_tallies (E : env) (w : world E) :
  let '(total, success, fail, wF) := main E w in
  total = len (md_files w)
  /\ 0 <= success <= total
  /\ 0 <= fail <= total
  /\ total <= success + fail
  /\ fail = len (md_files wF).
Proof.
  pose proof (rescan_length w) as Hre.
  rewrite main_world, ?md_files_with_root, ?src_with_root in Hre.
  pose proof (main_loop_bounds (md_files w) (0, 0, w)) as Hb.
  pose proof (main_loop_counts E (md_files w) (0, 0, w)) as Hc.
  pose proof (main_loop_fail_count (md_files w) (NoDup_md_files E w)
                (md_files_unprefixed w) (0, 0, w)) as Hf.
  rewrite main_run.
  destruct (main_loop E (md_files w) (0, 0, w)) as [[s f] wF]. cbn [fst snd] in *.
  rewrite md_files_with_root.
  assert (Hf' := Hf (fun q Hq => proj1 (proj1 (elem_of_md_files E w q) Hq))).
  unfold len in *. repeat split; lia.
Qed.

(** X14. What a run does to the source tree. An entry that is neither a
    scanned file nor the sentinel name of one is as before. No entry
    without the prefix is created or altered: one that exists after the
    run existed before with the same content. So the next scan finds no
    file that this scan did not find. *)
Theorem run_source_tree (E : env) (w : world E) :
  let wF := (main E w).2 in
  (forall p, (forall md, md ∈ md_files w -> p <> md /\ p <> ds_path md) ->
     src wF !! p = src w !! p)
  /\ (forall p, startswith (py "[ds]") p.2 = false ->
        is_Some (src wF !! p) -> src wF !! p = src w !! p)
  /\ (forall p, p ∈ md_files wF -> p ∈ md_files w).
Proof.
  cbv zeta. split; [|split].
  - intros p Hp. rewrite main_world, ?src_with_root.
    apply (main_loop_frame E (md_files w) p Hp (0, 0, w)).
  - intros p. apply run_unprefixed.
  - intros p. apply rescan_subset.
Qed.

(** The directories of the destination tree after one turn and after
    the loop. *)
Lemma main_iter_dirs (E : env) md (st : Z * Z * world E) :
  dst_dirs (main_iter E md st).2 = dst_dirs st.2
  \/ dst_dirs (main_iter E md st).2 = dst_dirs st.2 ∪ list_to_set (ancestors md.1).
Proof.
  destruct st as [[s f] w]. unfold main_iter.
  destruct (process_one E md w) as [[[]|e] w1] eqn:Hp.
  - assert (Hm : forall r w2, mark md w1 = (r, w2) -> dst_dirs w2 = dst_dirs w1)
      by (intros r w2; apply dirs_mark).
    destruct (process_one_dirs E md w w1 _ Hp) as [(e & _ & He & _)|[_ Hd]];
      [discriminate He|].
    right. destruct (mark md w1) as [[[]|e] w2] eqn:Hmark; cbn [snd];
      now rewrite (Hm _ _ eq_refl).
  - cbn [snd]. destruct (process_one_dirs E md w w1 _ Hp) as [(e' & _ & _ & ->)|[_ Hd]];
      [now left | now right].
Qed.

Lemma main_loop_dirs (E : env) l : forall (st : Z * Z * world E) d,
  (d ∈ dst_dirs st.2 -> d ∈ dst_dirs (main_loop E l st).2)
  /\ (d ∈ dst_dirs (main_loop E l st).2 ->
      d ∈ dst_dirs st.2 \/ exists md, md ∈ l /\ d `prefix_of` md.1).
Proof.
  induction l as [|md l IH]; intros st d.
  - split; [auto | now left].
  - rewrite main_loop_cons.
    destruct (IH (main_iter E md st) d) as [IH1 IH2].
    destruct (main_iter_dirs E md st) as [Hd|Hd]; rewrite Hd in IH1, IH2.
    + split; [exact IH1|]. intros H. destruct (IH2 H) as [?|(q & Hq & Hp)]; [now left|].
      right. exists q. split; [now right | exact Hp].
    + split.
      * intros H. apply IH1, elem_of_union. now left.
      * intros H. destruct (IH2 H) as [H'|(q & Hq & Hp)].
        -- apply elem_of_union in H' as [H'|H']; [now left|].
           right. exists md. split; [left|].
           now apply elem_of_list_to_set, elem_of_ancestors in H'.
        -- right. exists q. split; [now right | exact Hp].
Qed.

(** X15. What a run does to the destination tree. A file that differs
    after the run is at the path of a scanned file and holds an assembled
    document, which begins with the line [---]: no file is removed and no
    file outside the scan is written. No directory is removed; the root
    is there after the run; and every directory made is the root, the
    parent of a scanned file's path or a directory above it. *)
Theorem run_destination_tree (E : env) (w : world E) :
  let wF := (main E w).2 in
  (forall p,
     dst wF !! p = dst w !! p
     \/ (p ∈ md_files w
         /\ exists c, dst wF !! p = Some c /\ startswith (py "---\n") c = true))
  /\ (forall d, d ∈ dst_dirs w -> d ∈ dst_dirs wF)
  /\ [] ∈ dst_dirs wF
  /\ (forall d, d ∈ dst_dirs wF ->
        d ∈ dst_dirs w \/ d = [] \/ exists md, md ∈ md_files w /\ d `prefix_of` md.1).
Proof.
  cbv zeta. rewrite main_world.
  assert (Hroot : forall (x : world E) d,
            d ∈ dst_dirs (with_root x) <-> d ∈ dst_dirs x \/ d = []).
  { intros x d. rewrite with_root_eq. cbn [dst_dirs].
    rewrite elem_of_union, elem_of_list_to_set, elem_of_ancestors.
    split; (intros [H|H]; [now left | right]).
    - now apply prefix_nil_inv in H.
    - rewrite H. apply prefix_nil. }
  split; [|split; [|split]].
  - intros p. rewrite dst_with_root.
    destruct (main_loop_dst (md_files w) (0, 0, w) p) as [H|(Hin & c & Hc & H)].
    + left. exact H.
    + right. split; [exact Hin|]. eauto.
  - intros d Hd. apply Hroot. left.
    now apply (main_loop_dirs E (md_files w) (0, 0, w) d).
  - apply Hroot. now right.
  - intros d Hd. apply Hroot in Hd as [Hd|Hd]; [|auto].
    apply (main_loop_dirs E (md_files w) (0, 0, w) d) in Hd as [Hd|Hd]; auto.
Qed.

(** X16. When the destination tree holds nothing at the paths of the
    scanned files, the successes of a run are exactly as many as the
    scanned files that have an output after it. *)
Theorem success_counts_outputs (E : env) (w : world E) :
  (forall md, md ∈ md_files w -> dst w !! md = None) ->
  let '(_, success, _, wF) := main E w in
  success = len (filter (fun p => is_Some (dst wF !! p)) (md_files w)).
Proof.
  intros Hnone.
  pose proof (main_loop_success_count (md_files w) (NoDup_md_files E w) (0, 0, w) Hnone) as H.
  rewrite main_run.
  destruct (main_loop E (md_files w) (0, 0, w)) as [[s f] wF]. cbn [fst snd] in *.
  rewrite Z.add_0_l in H. exact H.
Qed.

Lemma success_counts_outputs_witness :
  let E := sample_env (py "AI, 芯片") in
  let w := sample_world 100 two_files_tree in
  (forall md, md ∈ md_files w -> dst w !! md = None)
  /\ (let '(_, success, _, wF) := main E w in
      success = len (filter (fun p => is_Some (dst wF !! p)) (md_files w))).
Proof.
  intros E w.
  assert (H : forall md, md ∈ md_files w -> dst w !! md = None).
  { intros md _. apply lookup_empty. }
  split; [exact H|]. exact (success_counts_outputs E w H).
Defined.

(** ** Tags: nothing is lost *)

Section TagsKeep.










End TagsKeep.


(** ** One document: the requests it makes *)

Section Requests.

Context {E : env}.






End Requests.



(** A document that cannot be read fails after [mkdir]: no file is
    written, and the directory for its output is left behind. *)
Lemma process_one_outcome_witness :
  let E := sample_env (py "ok") in
  let w := Build_world E 100%nat unreadable_tree ∅ ∅ in
  let w' := (process_one E feed_b_md w).2 in
  (process_one E feed_b_md w).1 = Raise UnicodeDecodeError
  /\ dst w' = ∅
  /\ [py "feed"] ∈ dst_dirs w'
  /\ [] ∈ dst_dirs w'.
Proof.
  intros E w w'.
  pose proof (process_one_outcome E feed_b_md w) as H.
  assert (Hr : (process_one E feed_b_md w).1 = Raise UnicodeDecodeError)
    by (vm_compute; reflexivity).
  fold w' in H. destruct (process_one E feed_b_md w) as [r w''] eqn:Hp.
  cbn [fst snd] in *. subst r w'.
  destruct H as (_ & Hd & Hdirs). cbn [blocked dst] in Hdirs.
  split; [reflexivity|]. split; [exact Hd|].
  change (dst w !! ([], py "feed")) with (@None pystr) in Hdirs.
  split; rewrite Hdirs; apply elem_of_union; right;
    apply elem_of_list_to_set, elem_of_ancestors.
  - reflexivity.
  - apply prefix_nil.
Defined.

Lemma run_destination_tree_witness :
  let E := sample_env (py "ok") in
  let w := Build_world E 100%nat unreadable_tree ∅ ∅ in
  let wF := (main E w).2 in
  (main E w).1 = (1, 0, 1)
  /\ dst wF !! feed_b_md = None
  /\ [] ∈ dst_dirs wF
  /\ (forall d, d ∈ dst_dirs wF -> d = [] \/ d = [py "feed"]).
Proof.
  intros E w wF.
  destruct (run_destination_tree E w) as (Hfiles & _ & Hroot & Hdirs).
  fold wF in Hfiles, Hroot, Hdirs.
  assert (Hscan : md_files w = [feed_b_md]) by (vm_compute; reflexivity).
  split; [vm_compute; reflexivity|]. split; [|split; [exact Hroot|]].
  - destruct (Hfiles feed_b_md) as [H|(_ & c & H & _)]; [exact H|].
    assert (Hn : dst wF !! feed_b_md = None) by (vm_compute; reflexivity).
    rewrite Hn in H. discriminate H.
  - intros d Hd. destruct (Hdirs d Hd) as [H|[H|(md & Hmd & Hp)]].
    + cbn [dst_dirs w] in H. now apply not_elem_of_empty in H.
    + now left.
    + rewrite Hscan in Hmd. apply list_elem_of_singleton in Hmd. subst md.
      destruct Hp as [k Hk]. cbn [fst feed_b_md] in Hk.
      destruct d as [|x d]; [now left|]. right.
      destruct d as [|y d]; cbn in Hk; [now injection Hk as <-|].
      discriminate Hk.
Defined.
